(** * Count-Sketch optimizers: sketches, the dense hash compressor and Adam

    A shallow embedding of
      - [optimizers/cms.py]            (CUDA kernel + [CountMinSketch]),
      - [optimizers/dense_exp_cms.py]  (CUDA kernels + [DenseCMS]),
      - [adam_error.py]                ([Adam.__init__], [Adam.dense],
                                        [Adam.sparse], [Adam.step]),
    followed by the properties proved about them.

    Conventions of the embedding.
      - A C [int] is a [Z] kept in the signed 32-bit range by [wrap32];
        [>>] on an [int] is the arithmetic shift, [%] the truncated
        remainder ([Z.rem]).
      - A [float] (device) or Python float (host) is a real number: rounding
        is not modelled, so every equation below is one of exact arithmetic.
      - A device array is a [list R]; an access outside it is a fault
        ([None]).
      - A kernel launch runs its blocks, and the threads of a block, one
        after another in index order.  Two stores of the sources are not
        atomic although threads can meet in them: [acc[hash_idx] += value]
        of [dense_cms_update] (the lanes of a warp) and
        [mem[hash_idx] += value] of [cms_update_retrieve] (the blocks of a
        launch).  What depends on them is stated for the warp
        ([DenseCms.dense_cms_update_warp]) or for batches whose threads
        touch disjoint cells ([Cms.race_free]); the other statements do
        not depend on the order.
      - [rsqrtf], the square root and the division are the total
        functions of the reals; statements about them carry the
        hypotheses under which the device and Python compute an ordinary
        number (a positive argument of [rsqrtf], bias corrections that are
        positive). *)

From Stdlib Require Import ZArith QArith Qreals Reals Lra Lia Sorted.
From stdpp Require Import base option list.

Local Open Scope Z_scope.

(** ** 32-bit integers and the hash of both kernels *)

Module Int32.

(** Reduction of an integer to the signed 32-bit value with the same low
    32 bits. *)
Definition wrap32 (z : Z) : Z := (z + 2 ^ 31) mod 2 ^ 32 - 2 ^ 31.

(** [int hash(int value, int range, int a, int b)], the same text in
    [cms.py] and [dense_exp_cms.py] (lines 9-18).  The two constants are
    [unsigned] literals, so each product is taken modulo [2^32] and
    stored back into the [int]. *)
Definition hash (value range a b : Z) : Z :=
  let h := wrap32 (a * value + b) in
  let h := Z.lxor h (Z.shiftr h 16) in
  let h := wrap32 (h * 0x85ebca6b) in
  let h := Z.lxor h (Z.shiftr h 13) in
  let h := wrap32 (h * 0xc2b2ae35) in
  let h := Z.lxor h (Z.shiftr h 16) in
  Z.rem h range.

End Int32.

(** ** Device arrays and host tensors *)

Module Tensor.

(** [m[i]] for reading. *)
Definition ld (m : list R) (i : Z) : option R :=
  if 0 <=? i then m !! Z.to_nat i else None.

(** [m[i] = v]. *)
Definition st (m : list R) (i : Z) (v : R) : option (list R) :=
  if (0 <=? i) && (i <? Z.of_nat (length m))
  then Some (<[Z.to_nat i := v]> m) else None.

(** [m[i] += v] (also [atomicAdd(&m[i], v)]). *)
Definition add_at (m : list R) (i : Z) (v : R) : option (list R) :=
  old ← ld m i; st m i (old + v)%R.

(** A zero-filled buffer of [n] floats. *)
Definition zeros (n : Z) : list R := replicate (Z.to_nat n) 0%R.

(** [for (int index = 0; index < n; ++index) body(index)], threading a
    state and stopping at the first fault. *)
Fixpoint for_range {S : Type} (n : nat) (body : Z → S → option S) (s : S)
  : option S :=
  match n with
  | O => Some s
  | S n' => s' ← for_range n' body s; body (Z.of_nat n') s'
  end.

(** A launch with [grid] blocks of [block] threads each. *)
Definition launch {S : Type} (grid block : Z)
    (thread : Z → Z → S → option S) (s : S) : option S :=
  for_range (Z.to_nat grid)
    (λ blockIdx, for_range (Z.to_nat block) (thread blockIdx)) s.

(** A stream of calls of one stateful operation, oldest first: the state
    after them and their answers. *)
Fixpoint run_stream {S A B : Type} (step : S → A → option (S * B)) (s : S)
    (ops : list A) : option (S * list B) :=
  match ops with
  | [] => Some (s, [])
  | op :: ops =>
      '(s, r) ← step s op;
      '(s, rs) ← run_stream step s ops;
      Some (s, r :: rs)
  end.

(** Python's [int(x)] on a float: truncation toward zero.  Host floats
    that only size a buffer are kept as exact rationals (where the float
    product falls just short of an integer the rational one reaches,
    Python's width is one less; no statement below depends on which). *)
Definition py_int (q : Q) : Z := Z.quot (Qnum q) (Z.pos (Qden q)).

End Tensor.

(** ** [optimizers/cms.py] *)

Module Cms.
Import Int32 Tensor.

(** [float minimum(float a, float b, float c)] (lines 22-25). *)
Definition minimum (a b c : R) : R := Rmin (Rmin a b) c.

(** The salt arrays [a[3]] and [b[3]] (lines 54-55), read at [idx]. *)
Definition salt (idx : Z) : Z * Z :=
  if idx =? 0 then (994443, 609478)
  else if idx =? 1 then (4113759, 2949676)
  else (9171025, 2171464).

(** The bucket of a key in row [idx], and the cell [hash_idx] of that row
    its lane lands on (line 58).  The key is a [long] handed to an [int]
    parameter. *)
Definition bucket (N index idx : Z) : Z :=
  hash (wrap32 index) N (salt idx).1 (salt idx).2.

Definition cell (N W D index lane idx : Z) : Z :=
  wrap32 (idx * W + bucket N index idx * D + lane).

(** One round of the loop of [cms_update_retrieve] (lines 58-60): the add,
    then the read-back [r[idx]]. *)
Definition cms_row (mem : list R) (N W D index lane : Z) (value : R)
    (idx : Z) : option (list R * R) :=
  let hash_idx := cell N W D index lane idx in
  mem' ← add_at mem hash_idx value;
  r ← ld mem' hash_idx;
  Some (mem', r).

(** [cms_update_retrieve] (lines 44-63), [lane] being [threadIdx.x]; the
    three rounds of its loop are written out. *)
Definition cms_update_retrieve (mem : list R) (N W D index lane : Z)
    (value : R) : option (list R * R) :=
  '(mem, r0) ← cms_row mem N W D index lane value 0;
  '(mem, r1) ← cms_row mem N W D index lane value 1;
  '(mem, r2) ← cms_row mem N W D index lane value 2;
  Some (mem, minimum r0 r1 r2).

(** One thread of the kernel [hash_update_retrieve] (lines 65-82); the
    state is the pair of [mem] and [result]. *)
Definition hash_update_retrieve (indices : list Z) (values : list R)
    (N W D : Z) (blockIdx threadIdx : Z) (s : list R * list R)
  : option (list R * list R) :=
  let '(mem, result) := s in
  if threadIdx <? D then
    let idx := wrap32 (blockIdx * D + threadIdx) in
    value ← ld values idx;
    index ← indices !! Z.to_nat blockIdx;
    '(mem, r) ← cms_update_retrieve mem N W D index threadIdx value;
    result ← st result idx r;
    Some (mem, result)
  else Some (mem, result).

(** The object built by [CountMinSketch.__init__]. *)
Record CountMinSketch := mkCountMinSketch {
  N : Z;
  D : Z;
  blk_size : Z;
  range : Z;
  width : Z;
  cms : list R
}.

(** [CountMinSketch.__init__] (lines 86-94).  [D // 32] is already the
    floor, so [math.ceil] leaves it as it is. *)
Definition init (N D : Z) (sketch_size : Q) : CountMinSketch :=
  let range := py_int (inject_Z N * sketch_size / 3) in
  {| N := N;
     D := D;
     blk_size := (D / 32) * 32;
     range := range;
     width := range * D;
     cms := zeros (3 * range * D) |}.

(** [CountMinSketch.update] (lines 96-109): [values] is the [M] by [D]
    matrix of the batch, flat in row order; the answer is the sketch after
    the launch and the [result] buffer.  The blocks are run one after
    another: the outcome is that of the device when the batch is
    [race_free] below. *)
Definition update (self : CountMinSketch) (indices : list Z) (M : Z)
    (values : list R) : option (CountMinSketch * list R) :=
  let result := zeros (Z.of_nat (length values)) in
  '(mem, result) ←
    launch M (blk_size self)
      (hash_update_retrieve indices values (range self) (width self) (D self))
      (cms self, result);
  Some ({| N := N self; D := D self; blk_size := blk_size self;
           range := range self; width := width self; cms := mem |},
        result).

(** A stream of fused update-retrieve calls on one sketch, oldest first,
    each a key, a lane and a value: the memory after them and their
    answers. *)
Definition cms_run (mem : list R) (N W D : Z) (ops : list (Z * Z * R))
  : option (list R * list R) :=
  run_stream
    (λ mem (op : Z * Z * R), cms_update_retrieve mem N W D op.1.1 op.1.2 op.2)
    mem ops.

(** The exact sum of the values a stream holds for a key and a lane. *)
Fixpoint exact_sum (ops : list (Z * Z * R)) (index lane : Z) : R :=
  match ops with
  | [] => 0%R
  | (k, t, v) :: ops =>
      if (k =? index) && (t =? lane)
      then (v + exact_sum ops index lane)%R
      else exact_sum ops index lane
  end.

(** The invariant of the sketch against a stream: every cell of every key
    and lane holds at least the exact sum; and, for one key and lane, its
    three cells hold exactly the sum. *)
Definition overestimates (mem : list R) (N W D : Z) (ops : list (Z * Z * R))
  : Prop :=
  ∀ k t idx, 0 <= idx < 3 → 0 <= t < D →
    ∃ x, ld mem (cell N W D k t idx) = Some x ∧ (exact_sum ops k t <= x)%R.

Definition exact_at (mem : list R) (N W D : Z) (ops : list (Z * Z * R))
    (index lane : Z) : Prop :=
  ∀ idx, 0 <= idx < 3 →
    ∃ x, ld mem (cell N W D index lane idx) = Some x
         ∧ x = exact_sum ops index lane.

(** [update_retrieve] (lines 27-41), the variant with one row of [N]
    buckets; [lane] is [threadIdx.x].  (No kernel of the file calls it.) *)
Definition update_retrieve (mem : list R) (N D index lane : Z) (value : R)
  : option (list R * R) :=
  let hash_idx := wrap32 (hash (wrap32 index) N 994443 609478 * D + lane) in
  mem' ← add_at mem hash_idx value;
  r ← ld mem' hash_idx;
  Some (mem', r).

(** The fused call thread [t] of block [b] makes (lines 77-80): key
    [indices[b]], lane [t], value [values[b * D + t]]; and the calls of a
    launch of [M] blocks in which the lanes below [L] are run, in launch
    order. *)
Definition thread_op (indices : list Z) (values : list R) (D : Z)
    (b t : nat) : Z * Z * R :=
  (default 0 (indices !! b), Z.of_nat t,
   default 0%R (ld values (Z.of_nat b * D + Z.of_nat t))).

Definition block_ops (indices : list Z) (values : list R) (D : Z)
    (b L : nat) : list (Z * Z * R) :=
  thread_op indices values D b <$> seq 0 L.

Definition batch_ops (indices : list Z) (values : list R) (D : Z)
    (M L : nat) : list (Z * Z * R) :=
  concat ((λ b, block_ops indices values D b L) <$> seq 0 M).

(** The calls of such a launch up to and with that of thread [t] of block
    [b]. *)
Definition ops_upto (indices : list Z) (values : list R) (D : Z)
    (L b t : nat) : list (Z * Z * R) :=
  batch_ops indices values D b L ++ block_ops indices values D b (S t).

(** No two rows of a batch land in one bucket of one row of the sketch.
    The blocks of a launch run concurrently and line 59,
    [mem[hash_idx] += value], is not atomic; under this condition no two
    threads of the launch touch one cell (the lanes of a block differ in
    [threadIdx.x]), so the order they run in does not matter. *)
Definition race_free (N : Z) (indices : list Z) : Prop :=
  ∀ (b b' : nat) (k k' idx : Z),
    b ≠ b' → indices !! b = Some k → indices !! b' = Some k' →
    0 <= idx < 3 → bucket N k idx ≠ bucket N k' idx.

(** A call of key [k] lands in a bucket of key [index]. *)
Definition shares_bucket (N index k : Z) : Prop :=
  ∃ idx, 0 <= idx < 3 ∧ bucket N k idx = bucket N index idx.

End Cms.

(** ** [optimizers/dense_exp_cms.py] *)

Module DenseCms.
Import Int32 Tensor.

(** [rsqrtf(x)], the reciprocal square root, for [x > 0] (the device
    answers [+inf] at 0 and NaN below). *)
Definition rsqrtf (x : R) : R := (/ sqrt x)%R.

(** What one block works on: the two global arrays it writes and its
    [extern __shared__ float shared[]], in which [aux] starts at slot [0]
    and [acc] at slot [n] ([n] is [W] in [dense_cms_update] and [D] in
    [dense_update]). *)
Record block_mem := mkBlockMem {
  parameter : list R;
  mem : list R;
  shared : list R
}.

(** The staging loop (lines 42-47, and 99-104 with [D] for [W]):
    [aux[index] = mem[blockIdx.x * n + index]; acc[index] = 0.0f]. *)
Definition stage (blockIdx n index : Z) (s : block_mem) : option block_mem :=
  let global_index := wrap32 (blockIdx * n + index) in
  v ← ld (mem s) global_index;
  sh ← st (shared s) index v;
  sh ← st sh (n + index) 0%R;
  Some {| parameter := parameter s; mem := mem s; shared := sh |}.

(** The adaptive value of a coordinate (lines 59 and 115). *)
Definition adaptive (beta old value : R) : R :=
  (beta * old + (1 - beta) * value)%R.

(** The body of the update loop, the same text in both kernels but for the
    slot [hash_idx] it reads [aux] and feeds [acc] at (lines 52-66 and
    109-122); [n] is where [acc] starts. *)
Definition adapt_step (gradient : list R) (lr beta : R)
    (offset n index hash_idx : Z) (s : block_mem) : option block_mem :=
  p ← ld (parameter s) (wrap32 (offset + index));
  g ← ld gradient (wrap32 (offset + index));
  let value := (g ^ 2)%R in
  old ← ld (shared s) hash_idx;
  let v := adaptive beta old value in
  let update := (lr * g * rsqrtf (v + 1e-10))%R in
  par ← add_at (parameter s) (wrap32 (offset + index)) update;
  sh ← add_at (shared s) (n + hash_idx) value;
  Some {| parameter := par; mem := mem s; shared := sh |}.

(** In [dense_cms_update] the slot is the hash of the coordinate (line 58). *)
Definition hashed_step (gradient : list R) (lr beta : R) (offset W index : Z)
    (s : block_mem) : option block_mem :=
  adapt_step gradient lr beta offset W index
    (hash (wrap32 (offset + index)) W 994443 609478) s.

(** In [dense_update] the slot is the coordinate itself (lines 115, 122). *)
Definition plain_step (gradient : list R) (lr beta : R) (offset D index : Z)
    (s : block_mem) : option block_mem :=
  adapt_step gradient lr beta offset D index index s.

(** The commit loop (lines 71-76 and 127-132). *)
Definition commit (beta : R) (blockIdx n index : Z) (s : block_mem)
  : option block_mem :=
  a ← ld (shared s) (n + index);
  o ← ld (shared s) index;
  let global_update := ((1 - beta) * (a - o))%R in
  let global_index := wrap32 (blockIdx * n + index) in
  m ← add_at (mem s) global_index global_update;
  Some {| parameter := parameter s; mem := m; shared := shared s |}.

(** One block of [dense_cms_update] (lines 22-77) with its threads run one
    after another.  The threads share the three loops, thread [t] taking
    [index = t, t + blockDim.x, ...]; with the barriers between rounds
    every index below the bound is visited once, here in increasing order.
    (What the lanes of a warp make of line 66 when they share a slot is
    [dense_cms_update_warp] below.) *)
Definition dense_cms_update_block (gradient : list R) (lr beta : R)
    (D W blockIdx : Z) (s : block_mem) : option block_mem :=
  let offset := wrap32 (blockIdx * D) in
  s ← for_range (Z.to_nat W) (stage blockIdx W) s;
  s ← for_range (Z.to_nat D) (hashed_step gradient lr beta offset W) s;
  for_range (Z.to_nat W) (commit beta blockIdx W) s.

(** One block of [dense_update] (lines 81-133). *)
Definition dense_update_block (gradient : list R) (lr beta : R)
    (D W blockIdx : Z) (s : block_mem) : option block_mem :=
  let offset := wrap32 (blockIdx * D) in
  s ← for_range (Z.to_nat D) (stage blockIdx D) s;
  s ← for_range (Z.to_nat D) (plain_step gradient lr beta offset D) s;
  for_range (Z.to_nat D) (commit beta blockIdx D) s.

(** The two kernels [DenseCMS.initialize] chooses from. *)
Inductive kernel_name := dense_update | dense_cms_update.

Definition kernel_block (k : kernel_name) :=
  match k with
  | dense_update => dense_update_block
  | dense_cms_update => dense_cms_update_block
  end.

(** A launch of [grid] blocks, each with [smem] bytes of shared memory
    (4 bytes a float), on the global arrays [(parameter, mem)]. *)
Definition run_kernel (k : kernel_name) (grid smem : Z) (gradient : list R)
    (lr beta : R) (D W : Z) (s : list R * list R) : option (list R * list R) :=
  for_range (Z.to_nat grid)
    (λ blockIdx '(p, m),
       s' ← kernel_block k gradient lr beta D W blockIdx
              {| parameter := p; mem := m; shared := zeros (smem / 4) |};
       Some (parameter s', mem s'))
    s.

(** The object built by [DenseCMS.__init__]. *)
Record DenseCMS := mkDenseCMS {
  N : Z;
  D : Z;
  blk_size : Z;
  range : Z;
  cms : list R;
  kernel : option kernel_name
}.

(** [DenseCMS.__init__] (lines 137-145). *)
Definition init (N D : Z) (sketch_size : Q) : DenseCMS :=
  let range := Z.max (py_int (inject_Z D * sketch_size)) 1 in
  {| N := N;
     D := D;
     blk_size := 32;
     range := range;
     cms := zeros (N * range);
     kernel := None |}.

(** [DenseCMS.initialize] (lines 168-173). *)
Definition initialize (self : DenseCMS) : DenseCMS :=
  match kernel self with
  | Some _ => self
  | None =>
      {| N := N self; D := D self; blk_size := blk_size self;
         range := range self; cms := cms self;
         kernel := Some (if D self =? range self
                         then dense_update else dense_cms_update) |}
  end.

(** [DenseCMS.update] (lines 175-192): the sketch and the parameter [p]
    after the launch. *)
Definition update (self : DenseCMS) (p g : list R) (lr beta : R)
  : option (DenseCMS * list R) :=
  let self := initialize self in
  k ← kernel self;
  '(p', m') ← run_kernel k (N self) (8 * range self) g lr beta
                (D self) (range self) (p, cms self);
  Some ({| N := N self; D := D self; blk_size := blk_size self;
           range := range self; cms := m'; kernel := kernel self |},
        p').

(** [DenseCMS.clean] (lines 194-195). *)
Definition clean (self : DenseCMS) (alpha : R) : DenseCMS :=
  {| N := N self; D := D self; blk_size := blk_size self;
     range := range self; cms := (λ x, x * alpha)%R <$> cms self;
     kernel := kernel self |}.

(** The dictionary of [__getstate__]: the keys [N], [D], [blk_size],
    [range] and [cms] (the buffer copied to the host). *)
Module SD.
Record state_dict := mkStateDict {
  N : Z;
  D : Z;
  blk_size : Z;
  range : Z;
  cms : list R
}.
End SD.

(** [DenseCMS.__getstate__] (lines 153-160) and [DenseCMS.state_dict]
    (lines 147-148). *)
Definition __getstate__ (self : DenseCMS) : SD.state_dict :=
  {| SD.N := N self; SD.D := D self; SD.blk_size := blk_size self;
     SD.range := range self; SD.cms := cms self |}.

Definition state_dict (self : DenseCMS) : SD.state_dict := __getstate__ self.

(** [DenseCMS.__setstate__] (lines 162-166) on a dictionary with the keys
    of [__getstate__], and [DenseCMS.load_state_dict] (lines 150-151): the
    attributes become those of [d] and the kernel is forgotten. *)
Definition __setstate__ (self : DenseCMS) (d : SD.state_dict) : DenseCMS :=
  {| N := SD.N d; D := SD.D d; blk_size := SD.blk_size d;
     range := SD.range d; cms := SD.cms d; kernel := None |}.

Definition load_state_dict (self : DenseCMS) (d : SD.state_dict) : DenseCMS :=
  __setstate__ self d.

(** The kernel [initialize] picks, and the compressors whose [kernel]
    attribute is either unset or that pick. *)
Definition route (self : DenseCMS) : kernel_name :=
  if D self =? range self then dense_update else dense_cms_update.

Definition routed (self : DenseCMS) : Prop :=
  kernel self = None ∨ kernel self = Some (route self).

(** The shapes [update] is called with: the parameter (as the gradient)
    holds [N * D] floats, the buffer [N * range], and every index fits an
    [int]. *)
Definition shaped (self : DenseCMS) (p : list R) : Prop :=
  0 <= N self ∧ 0 <= D self ∧ 0 < range self
  ∧ N self * D self <= 2 ^ 31 ∧ N self * range self <= 2 ^ 31
  ∧ Z.of_nat (length p) = N self * D self
  ∧ Z.of_nat (length (cms self)) = N self * range self.

(** The number of slots a block of kernel [k] stages, and the slot of the
    coordinate [index] of block [blockIdx]. *)
Definition slots (k : kernel_name) (D W : Z) : Z :=
  match k with dense_update => D | dense_cms_update => W end.

Definition slot (k : kernel_name) (D W blockIdx index : Z) : Z :=
  match k with
  | dense_update => index
  | dense_cms_update => hash (blockIdx * D + index) W 994443 609478
  end.

(** The sum of [g^2] over the coordinates [index < k] of the row starting at
    [offset] that the slot function [h] sends to bucket [j], added up in
    the order of the loop. *)
Fixpoint bucket_sum (gradient : list R) (offset : Z) (h : Z → Z) (k : nat)
    (j : Z) : R :=
  match k with
  | O => 0%R
  | S k' =>
      let rest := bucket_sum gradient offset h k' j in
      if h (Z.of_nat k') =? j
      then (rest + default 0 (ld gradient (offset + Z.of_nat k')) ^ 2)%R
      else rest
  end.

(** A run of [update] calls on one compressor and one parameter, each
    with its gradient, [lr] and [beta]; the first fault ends it. *)
Definition updates (self : DenseCMS) (p : list R)
    (steps : list (list R * R * R)) : option (DenseCMS * list R) :=
  foldl (λ acc step,
           '(self, p) ← acc; update self p step.1.1 step.1.2 step.2)
    (Some (self, p)) steps.

(** The second moment of every coordinate by itself,
    [v <- beta * v + (1 - beta) * g^2]: after one step, and after a run. *)
Definition exact_second_moment (beta : R) (v g : list R) : list R :=
  zip_with (λ old gd, beta * old + (1 - beta) * gd ^ 2)%R v g.

Definition exact_second_moments (v : list R)
    (steps : list (list R * R * R)) : list R :=
  foldl (λ v step, exact_second_moment step.2 v step.1.1) v steps.

(** *** The update loop of [dense_cms_update] as a warp runs it

    A block of [DenseCMS.update] has [blk_size = 32] threads, one warp,
    whose lanes run each statement of the update loop together, round after
    round ([index = threadIdx.x], then [threadIdx.x + 32], ...).  Line 66,
    [acc[hash_idx] += value], is a load, an add and a store, not an
    [atomicAdd] (lines 63 and 75 are): every lane of a round has loaded its
    slot before any lane stores, and of the stores of a round to one slot
    only the last to land stays; which one that is, CUDA leaves open.
    [dense_cms_update_block] above is the kernel with the lanes run one
    after another; the two agree when no two lanes of a round share a
    slot. *)

(** Lines 52-63 for the lane at [index]. *)
Definition lane_update (gradient : list R) (lr beta : R)
    (offset W index : Z) (s : block_mem) : option block_mem :=
  p ← ld (parameter s) (wrap32 (offset + index));
  g ← ld gradient (wrap32 (offset + index));
  let value := (g ^ 2)%R in
  let hash_idx := hash (wrap32 (offset + index)) W 994443 609478 in
  old ← ld (shared s) hash_idx;
  let v := (beta * old + (1 - beta) * value)%R in
  let update := (lr * g * rsqrtf (v + 1e-10))%R in
  par ← add_at (parameter s) (wrap32 (offset + index)) update;
  Some {| parameter := par; mem := mem s; shared := shared s |}.

(** The store of line 66 for the lane at [index]: what the lane loaded from
    [loaded], the shared memory when the round reached the line, plus its
    [value]. *)
Definition lane_store (gradient : list R) (offset W : Z) (loaded : list R)
    (index : Z) (sh : list R) : option (list R) :=
  g ← ld gradient (wrap32 (offset + index));
  let hash_idx := hash (wrap32 (offset + index)) W 994443 609478 in
  a ← ld loaded (W + hash_idx);
  st sh (W + hash_idx) (a + g ^ 2)%R.

(** One round of the loop; [order] lists the indices of the round in the
    order their stores land. *)
Definition warp_round (gradient : list R) (lr beta : R) (offset W : Z)
    (order : list Z) (s : block_mem) : option block_mem :=
  s ← foldl (λ acc index,
               s ← acc; lane_update gradient lr beta offset W index s)
        (Some s) order;
  sh ← foldl (λ acc index,
                sh ← acc; lane_store gradient offset W (shared s) index sh)
         (Some (shared s)) order;
  Some {| parameter := parameter s; mem := mem s; shared := sh |}.

(** One block of [dense_cms_update] (lines 22-77) run by its warp. *)
Definition dense_cms_update_warp (gradient : list R) (lr beta : R)
    (D W blockIdx : Z) (rounds : list (list Z)) (s : block_mem)
  : option block_mem :=
  let offset := wrap32 (blockIdx * D) in
  s ← for_range (Z.to_nat W) (stage blockIdx W) s;
  s ← foldl (λ acc order,
               s ← acc; warp_round gradient lr beta offset W order s)
        (Some s) rounds;
  for_range (Z.to_nat W) (commit beta blockIdx W) s.

(** The indices of round [r] of a loop over [index < D] by [B] lanes, and
    the schedules of the loop: one order of landing for every round. *)
Definition round_indices (B D r : Z) : list Z :=
  List.filter (λ index, index <? D) ((λ t, r * B + t) <$> seqZ 0 B).

Definition schedule (B D : Z) (rounds : list (list Z)) : Prop :=
  Z.of_nat (length rounds) = (D + B - 1) / B
  ∧ ∀ (r : nat) (order : list Z),
      rounds !! r = Some order →
      Permutation order (round_indices B D (Z.of_nat r)).

End DenseCms.

(** ** [adam_error.py] *)

Module AdamError.
Import Tensor.

(** A parameter group: the hyper-parameters of [Adam.__init__].  The host
    compares them ([0.0 <= lr], [weight_decay != 0]), so they are exact
    rationals, injected into the reals where they meet tensor data. *)
Record group := mkGroup {
  lr : Q;
  betas : Q * Q;
  eps : Q;
  weight_decay : Q;
  amsgrad : bool
}.

(** The fields [Adam.__init__] adds to the optimizer (lines 44-46), and
    the values it has printed so far. *)
Record Adam := mkAdam {
  exp_avg_error : R;
  exp_avg_sq_error : R;
  count : nat;
  printed : list R
}.

(** [Adam.__init__] (lines 31-46); [None] is the [ValueError]. *)
Definition init (lr : Q) (betas : Q * Q) (eps weight_decay : Q)
    (amsgrad : bool) : option (Adam * group) :=
  if negb (Qle_bool 0 lr) then None
  else if negb (Qle_bool 0 eps) then None
  else if negb (Qle_bool 0 betas.1 && negb (Qle_bool 1 betas.1)) then None
  else if negb (Qle_bool 0 betas.2 && negb (Qle_bool 1 betas.2)) then None
  else Some ({| exp_avg_error := 0; exp_avg_sq_error := 0; count := 1;
                printed := [] |},
             {| lr := lr; betas := betas; eps := eps;
                weight_decay := weight_decay; amsgrad := amsgrad |}).

(** [bias_correction1], [bias_correction2] and [step_size] (lines 89-91
    and 176-178), for bias corrections that are positive, as they are for
    betas in [[0, 1)] (Python raises when the first is [0] or the second
    negative). *)
Definition step_size (g : group) (step : nat) : R :=
  let bias_correction1 := (1 - Q2R (betas g).1 ^ step)%R in
  let bias_correction2 := (1 - Q2R (betas g).2 ^ step)%R in
  (Q2R (lr g) * sqrt bias_correction2 / bias_correction1)%R.

(** *** The dense path *)

(** [self.state[p]] of a parameter with dense gradients; the key
    [max_exp_avg_sq] exists only if [amsgrad] was set at the first step. *)
Module D.
Record state := mkState {
  step : nat;
  exp_avg : list R;
  exp_avg_sq : list R;
  max_exp_avg_sq : option (list R)
}.
End D.

Definition zeros_like (t : list R) : list R := (λ _, 0%R) <$> t.

(** State initialization (lines 58-66): an empty dictionary is filled,
    any other is used as it is. *)
Definition dense_state (p : list R) (g : group) (state : option D.state)
  : D.state :=
  match state with
  | Some s => s
  | None =>
      {| D.step := 0;
         D.exp_avg := zeros_like p;
         D.exp_avg_sq := zeros_like p;
         D.max_exp_avg_sq := if amsgrad g then Some (zeros_like p) else None |}
  end.

(** [grad.add(group['weight_decay'], p.data)] (lines 74-75). *)
Definition dense_grad (p grad : list R) (g : group) : list R :=
  if Qeq_bool (weight_decay g) 0 then grad
  else zip_with (λ gr x, gr + Q2R (weight_decay g) * x)%R grad p.

(** The two moving averages after lines 78-79. *)
Definition dense_exp_avg (g : group) (exp_avg grad : list R) : list R :=
  zip_with (λ m gr, m * Q2R (betas g).1 + (1 - Q2R (betas g).1) * gr)%R
    exp_avg grad.

Definition dense_exp_avg_sq (g : group) (exp_avg_sq grad : list R) : list R :=
  zip_with (λ v gr, v * Q2R (betas g).2 + (1 - Q2R (betas g).2) * gr * gr)%R
    exp_avg_sq grad.

(** [denom] (lines 80-87) from the tensor whose root is taken. *)
Definition dense_denom (g : group) (second : list R) : list R :=
  (λ x, sqrt x + Q2R (eps g))%R <$> second.

(** [p.data.addcdiv_(-step_size, exp_avg, denom)] (line 92). *)
Definition addcdiv (p : list R) (value : R) (t1 t2 : list R) : list R :=
  zip_with (λ x u, x + value * u)%R p (zip_with Rdiv t1 t2).

(** [Adam.dense] (lines 53-92): the state and the parameter after the
    step; [None] is the [KeyError] of a state without [max_exp_avg_sq]
    under [amsgrad]. *)
Definition dense (p grad : list R) (g : group) (state : option D.state)
  : option (D.state * list R) :=
  let state := dense_state p g state in
  let step := S (D.step state) in
  let grad := dense_grad p grad g in
  let exp_avg := dense_exp_avg g (D.exp_avg state) grad in
  let exp_avg_sq := dense_exp_avg_sq g (D.exp_avg_sq state) grad in
  '(max_exp_avg_sq, denom) ←
    (if amsgrad g then
       m ← D.max_exp_avg_sq state;
       let m := zip_with Rmax m exp_avg_sq in
       Some (Some m, dense_denom g m)
     else Some (D.max_exp_avg_sq state, dense_denom g exp_avg_sq));
  Some ({| D.step := step; D.exp_avg := exp_avg; D.exp_avg_sq := exp_avg_sq;
           D.max_exp_avg_sq := max_exp_avg_sq |},
        addcdiv p (- step_size g step) exp_avg denom).

(** *** The sparse path *)

(** A sparse gradient of an [N] by [D] parameter: one key and one row of
    [D] values per entry. *)
Record sparse_tensor := mkSparse {
  indices : list Z;
  values : list (list R);
  size : Z * Z
}.

(** [grad.coalesce()] (line 113): the entries in increasing key order,
    the rows of equal keys added up. *)
Fixpoint coalesce_insert (k : Z) (row : list R) (acc : list (Z * list R))
  : list (Z * list R) :=
  match acc with
  | [] => [(k, row)]
  | (k', row') :: rest =>
      if k <? k' then (k, row) :: acc
      else if k =? k' then (k', zip_with Rplus row' row) :: rest
      else (k', row') :: coalesce_insert k row rest
  end.

(** The order [coalesce] leaves the entries in. *)
Definition key_lt (a b : Z * list R) : Prop := a.1 < b.1.

Definition coalesce_entries (l : list (Z * list R)) : list (Z * list R) :=
  foldl (λ acc e, coalesce_insert e.1 e.2 acc) [] l.

Definition coalesce (grad : sparse_tensor) : sparse_tensor :=
  let l := coalesce_entries (zip (indices grad) (values grad)) in
  {| indices := l.*1; values := l.*2; size := size grad |}.

(** The row a list of entries holds for key [k] (the first one), and the
    rows a list of entries holds for key [k] added up in the order they
    stand in, on top of [acc]. *)
Fixpoint entry_of (k : Z) (l : list (Z * list R)) : option (list R) :=
  match l with
  | [] => None
  | (k', row) :: l => if k' =? k then Some row else entry_of k l
  end.

Fixpoint key_sum (k : Z) (l : list (Z * list R)) (acc : option (list R))
  : option (list R) :=
  match l with
  | [] => acc
  | (k', row) :: l =>
      key_sum k l
        (if k' =? k
         then Some (match acc with
                    | Some a => zip_with Rplus a row
                    | None => row
                    end)
         else acc)
  end.

(** What [adam_error.py] imports and calls but the sources do not hold:
    [CountSketch] of [exp_sketch], [CountMinSketch] of [exp_cms] (with
    [update(indices, values, size, beta)], whose answer is read through
    [_values()], and [clean(alpha)]) and torch's sum of a sparse and a
    dense tensor.  The sparse path is stated over any implementation of
    them. *)
Record sketch_api := mkApi {
  CountSketch : Type;
  CountMinSketch : Type;
  CountSketch_new : Z → Z → CountSketch;
  CountSketch_update :
    CountSketch → list Z → list (list R) → Z * Z → R →
    CountSketch * list (list R);
  CountMinSketch_new : Z → Z → CountMinSketch;
  CountMinSketch_update :
    CountMinSketch → list Z → list (list R) → Z * Z → R →
    CountMinSketch * list (list R);
  CountMinSketch_clean : CountMinSketch → R → CountMinSketch;
  sparse_add : sparse_tensor → R → list (list R) → sparse_tensor
}.

(** [self.state[p]] of a parameter with sparse gradients. *)
Module S.
Record state (api : sketch_api) := mkState {
  step : nat;
  exp_avg : CountSketch api;
  exp_avg_base : list (list R);
  exp_avg_sq : CountMinSketch api;
  exp_avg_sq_base : list (list R)
}.
Arguments mkState {api}.
Arguments step {api}.
Arguments exp_avg {api}.
Arguments exp_avg_base {api}.
Arguments exp_avg_sq {api}.
Arguments exp_avg_sq_base {api}.
End S.

(** Row [k] of a dense matrix; torch refuses a key outside it. *)
Definition row_at (t : list (list R)) (k : Z) : option (list R) :=
  if 0 <=? k then t !! Z.to_nat k else None.

(** [t.sparse_mask(grad)._values()]: the rows of [t] at the keys. *)
Definition sparse_mask (t : list (list R)) (keys : list Z)
  : option (list (list R)) :=
  mapM (row_at t) keys.

(** [t.add_(make_sparse(vals))]: row [k] of [t] grows by the row of [vals]
    that stands at key [k].  ([make_sparse] has a branch for tensors of
    dimension 0, which the indices and values of a matrix gradient never
    are.) *)
Fixpoint add_sparse (t : list (list R)) (keys : list Z)
    (vals : list (list R)) : option (list (list R)) :=
  match keys, vals with
  | k :: keys, v :: vals =>
      row ← row_at t k;
      add_sparse (<[Z.to_nat k := zip_with Rplus row v]> t) keys vals
  | _, _ => Some t
  end.

(** Entry-wise operations on the value rows. *)
Definition rows2 (f : R → R → R) (a b : list (list R)) : list (list R) :=
  zip_with (zip_with f) a b.

Definition rows1 (f : R → R) (a : list (list R)) : list (list R) :=
  (λ row : list R, f <$> row) <$> a.

(** [torch.sum(torch.abs(a - b)).item()]. *)
Definition sum_abs_diff (a b : list (list R)) : R :=
  foldr Rplus 0%R (concat (rows2 (λ x y, Rabs (x - y)) a b)).

Section Sparse.
Context (api : sketch_api).

(** State initialization (lines 98-107). *)
Definition sparse_state (p : list (list R)) (grad : sparse_tensor)
    (state : option (S.state api)) : S.state api :=
  match state with
  | Some s => s
  | None =>
      let '(N, D) := size grad in
      {| S.step := 0;
         S.exp_avg := CountSketch_new api N D;
         S.exp_avg_base := zeros_like <$> p;
         S.exp_avg_sq := CountMinSketch_new api N D;
         S.exp_avg_sq_base := zeros_like <$> p |}
  end.

(** The gradient the sketches see (lines 110-113). *)
Definition sparse_grad (p : list (list R)) (grad : sparse_tensor)
    (g : group) : sparse_tensor :=
  let grad := if Qeq_bool (weight_decay g) 0 then grad
              else sparse_add api grad (Q2R (weight_decay g)) p in
  coalesce grad.

(** The scheduled decay (lines 127-129), [step] already incremented. *)
Definition scheduled_clean (step : nat) (exp_avg_sq : CountMinSketch api)
  : CountMinSketch api :=
  if (step mod 1000 =? 0)%nat
  then CountMinSketch_clean api exp_avg_sq (1 / 4)%R
  else exp_avg_sq.

(** [denom] of the sparse path (line 150). *)
Definition sparse_denom (g : group) (exp_avg_sq_update : list (list R))
  : list (list R) :=
  rows1 (λ x, sqrt x + Q2R (eps g))%R exp_avg_sq_update.

(** The error diagnostic (lines 166-174). *)
Definition diagnostic (self : Adam)
    (numer exp_avg_values_base denom exp_avg_sq_values_base : list (list R))
  : Adam :=
  let self :=
    if (count self mod 125 =? 0)%nat then
      {| exp_avg_error := 0; exp_avg_sq_error := 0; count := 1;
         printed := printed self ++
                    [(exp_avg_error self / INR (count self))%R;
                     (exp_avg_sq_error self / INR (count self))%R] |}
    else self in
  {| exp_avg_error :=
       exp_avg_error self + sum_abs_diff numer exp_avg_values_base;
     exp_avg_sq_error :=
       exp_avg_sq_error self + sum_abs_diff denom exp_avg_sq_values_base;
     count := count self + 1;
     printed := printed self |}.

(** [Adam.sparse] (lines 94-180): the optimizer, the state and the
    parameter after the step. *)
Definition sparse (self : Adam) (p : list (list R)) (grad : sparse_tensor)
    (g : group) (state : option (S.state api))
  : option (Adam * S.state api * list (list R)) :=
  let state := sparse_state p grad state in
  let step := S (S.step state) in
  let grad := sparse_grad p grad g in
  let grad_indices := indices grad in
  let grad_values := values grad in
  let size := size grad in
  let beta1 := Q2R (betas g).1 in
  let beta2 := Q2R (betas g).2 in
  let exp_avg_sq := scheduled_clean step (S.exp_avg_sq state) in
  let '(exp_avg, numer) :=
    CountSketch_update api (S.exp_avg state) grad_indices grad_values
      size beta1 in
  let '(exp_avg_sq, exp_avg_sq_update) :=
    CountMinSketch_update api exp_avg_sq grad_indices
      (rows1 (λ x, x ^ 2)%R grad_values) size beta2 in
  let denom := sparse_denom g exp_avg_sq_update in
  let update := rows2 Rdiv numer denom in
  (* the exact shadows *)
  old_exp_avg_values_base ← sparse_mask (S.exp_avg_base state) grad_indices;
  let exp_avg_update_values_base :=
    rows2 (λ x o, (x - o) * (1 - beta1))%R
      grad_values old_exp_avg_values_base in
  exp_avg_base ←
    add_sparse (S.exp_avg_base state) grad_indices
      exp_avg_update_values_base;
  let exp_avg_values_base :=
    rows2 Rplus exp_avg_update_values_base old_exp_avg_values_base in
  old_exp_avg_sq_values_base ←
    sparse_mask (S.exp_avg_sq_base state) grad_indices;
  let exp_avg_sq_update_values_base :=
    rows2 (λ x o, (x ^ 2 - o) * (1 - beta2))%R
      grad_values old_exp_avg_sq_values_base in
  exp_avg_sq_base ←
    add_sparse (S.exp_avg_sq_base state) grad_indices
      exp_avg_sq_update_values_base;
  exp_avg_sq_values_base ← sparse_mask exp_avg_sq_base grad_indices;
  let self :=
    diagnostic self numer exp_avg_values_base denom
      exp_avg_sq_values_base in
  p' ← add_sparse p grad_indices
         (rows1 (λ u, - step_size g step * u)%R update);
  Some (self,
        {| S.step := step; S.exp_avg := exp_avg;
           S.exp_avg_base := exp_avg_base; S.exp_avg_sq := exp_avg_sq;
           S.exp_avg_sq_base := exp_avg_sq_base |},
        p').

(** [Adam.sparse] with lines 153-174 (shadows and diagnostic) taken
    out: what a run with the diagnostic disabled executes. *)
Definition sparse_plain (p : list (list R)) (grad : sparse_tensor)
    (g : group) (state : option (S.state api))
  : option (S.state api * list (list R)) :=
  let state := sparse_state p grad state in
  let step := S (S.step state) in
  let grad := sparse_grad p grad g in
  let beta1 := Q2R (betas g).1 in
  let beta2 := Q2R (betas g).2 in
  let exp_avg_sq := scheduled_clean step (S.exp_avg_sq state) in
  let '(exp_avg, numer) :=
    CountSketch_update api (S.exp_avg state) (indices grad) (values grad)
      (size grad) beta1 in
  let '(exp_avg_sq, exp_avg_sq_update) :=
    CountMinSketch_update api exp_avg_sq (indices grad)
      (rows1 (λ x, x ^ 2)%R (values grad)) (size grad) beta2 in
  let denom := sparse_denom g exp_avg_sq_update in
  let update := rows2 Rdiv numer denom in
  p' ← add_sparse p (indices grad)
         (rows1 (λ u, - step_size g step * u)%R update);
  Some ({| S.step := step; S.exp_avg := exp_avg;
           S.exp_avg_base := S.exp_avg_base state;
           S.exp_avg_sq := exp_avg_sq;
           S.exp_avg_sq_base := S.exp_avg_sq_base state |},
        p').

End Sparse.

(** A stand-in for the two sketches that records the calls it gets: each
    sketch is the list of key batches it was updated with (and, for the
    second, the factors it was cleaned with); an update answers the values
    it was given.  It serves to run the sparse path on concrete inputs. *)
Definition probe_api : sketch_api :=
  {| CountSketch := list (list Z);
     CountMinSketch := list (list Z) * list R;
     CountSketch_new := λ _ _, [];
     CountSketch_update := λ s keys vals _ _, (s ++ [keys], vals);
     CountMinSketch_new := λ _ _, ([], []);
     CountMinSketch_update := λ s keys vals _ _, ((s.1 ++ [keys], s.2), vals);
     CountMinSketch_clean := λ s alpha, (s.1, s.2 ++ [alpha]);
     sparse_add := λ grad _ _, grad |}.

(** [n] optimizer steps on one parameter whose gradient is [grad] every
    time. *)
Fixpoint sparse_steps (api : sketch_api) (n : nat) (self : Adam)
    (p : list (list R)) (grad : sparse_tensor) (g : group)
    (state : option (S.state api))
  : option (Adam * option (S.state api) * list (list R)) :=
  match n with
  | O => Some (self, state, p)
  | S n =>
      '(self, state, p) ← sparse_steps api n self p grad g state;
      '(self, state, p) ← sparse api self p grad g state;
      Some (self, Some state, p)
  end.

(** The optimizer and the group [Adam(params)] builds with the default
    arguments of line 31. *)
Definition default_adam : Adam :=
  {| exp_avg_error := 0; exp_avg_sq_error := 0; count := 1; printed := [] |}.

Definition default_group : group :=
  {| lr := 1 # 1000; betas := (9 # 10, 999 # 1000); eps := 1 # 100000000;
     weight_decay := 0; amsgrad := false |}.

(** *** [Adam.step] *)

(** A parameter as the loop of [step] sees it: its data, its [grad]
    ([None] when it has none) and its entry of [self.state].  The
    gradients of one parameter are dense, or they are sparse. *)
Inductive param (api : sketch_api) : Type :=
| DenseParam (data : list R) (grad : option (list R))
    (state : option D.state)
| SparseParam (data : list (list R)) (grad : option sparse_tensor)
    (state : option (S.state api)).
Arguments DenseParam {api}.
Arguments SparseParam {api}.

(** The body of the inner loop (lines 196-203) for one parameter of a
    group. *)
Definition step_param (api : sketch_api) (g : group) (self : Adam)
    (p : param api) : option (Adam * param api) :=
  match p with
  | DenseParam data None state => Some (self, p)
  | DenseParam data (Some grad) state =>
      '(st, data') ← dense data grad g state;
      Some (self, DenseParam data' (Some grad) (Some st))
  | SparseParam data None state => Some (self, p)
  | SparseParam data (Some grad) state =>
      '(self, st, data') ← sparse api self data grad g state;
      Some (self, SparseParam data' (Some grad) (Some st))
  end.

(** The loop over the parameters of a group (line 195) and the loop over
    the groups (line 194); an exception ends both. *)
Fixpoint step_params (api : sketch_api) (g : group) (self : Adam)
    (ps : list (param api)) : option (Adam * list (param api)) :=
  match ps with
  | [] => Some (self, [])
  | p :: ps =>
      '(self, p') ← step_param api g self p;
      '(self, ps') ← step_params api g self ps;
      Some (self, p' :: ps')
  end.

Fixpoint step_groups (api : sketch_api) (self : Adam)
    (param_groups : list (group * list (param api)))
  : option (Adam * list (group * list (param api))) :=
  match param_groups with
  | [] => Some (self, [])
  | (g, ps) :: rest =>
      '(self, ps') ← step_params api g self ps;
      '(self, rest') ← step_groups api self rest;
      Some (self, (g, ps') :: rest')
  end.

(** [Adam.step] (lines 182-203).  [closure] is the loss the closure
    returns when one is given; the parameters are passed as they stand
    after it has run. *)
Definition step (api : sketch_api) (self : Adam)
    (param_groups : list (group * list (param api))) (closure : option R)
  : option (Adam * list (group * list (param api)) * option R) :=
  let loss := closure in
  '(self, param_groups) ← step_groups api self param_groups;
  Some (self, param_groups, loss).

(** The parameters of a step that have a sparse gradient. *)
Definition has_sparse_grad {api : sketch_api} (p : param api) : bool :=
  match p with
  | SparseParam _ (Some _) _ => true
  | _ => false
  end.

Definition sparse_calls {api : sketch_api}
    (param_groups : list (group * list (param api))) : nat :=
  sum_list_with (λ gp, length (List.filter has_sparse_grad gp.2))
    param_groups.

End AdamError.

(** * Properties *)

(** One step of inversion of [x ← o; k = Some r]. *)
Ltac bind_inv H :=
  match type of H with
  | mbind _ ?o = Some _ =>
      let E := fresh "E" in
      destruct o eqn:E; [cbn [mbind option_bind] in H | discriminate H]
  end.

(** ** The hash *)

Section HashProperties.
Import Int32.

Lemma xor_shift_nonneg (h n : Z) : 0 <= Z.lxor h (Z.shiftr h n).
Proof.
  apply Z.lxor_nonneg. rewrite Z.shiftr_nonneg. tauto.
Qed.

Lemma wrap32_id (z : Z) : - 2 ^ 31 <= z < 2 ^ 31 → wrap32 z = z.
Proof.
  intros Hz. unfold wrap32.
  rewrite Z.mod_small; lia.
Qed.

Lemma wrap32_bounds (z : Z) : - 2 ^ 31 <= wrap32 z < 2 ^ 31.
Proof.
  unfold wrap32.
  pose proof (Z.mod_pos_bound (z + 2 ^ 31) (2 ^ 32)). lia.
Qed.

Lemma hash_bucket (value range a b : Z) :
  0 < range → 0 <= hash value range a b < range.
Proof.
  intros Hr. unfold hash.
  apply Z.rem_bound_pos; [apply xor_shift_nonneg | exact Hr].
Qed.

(** C4.  For every key, salts and positive range, [hash] answers a bucket
    in [[0, range)]: the last xor-shift leaves a non-negative [h] (an
    arithmetic shift of a negative [h] is negative, and the xor of two
    negative numbers is not), so the remainder that follows is taken of
    a non-negative number, whatever the sign of the intermediate
    values. *)
Theorem hash_in_range (value range a b : Z) :
  0 < range → 0 <= hash value range a b < range.
Proof.
  intros Hr. unfold hash. cbv zeta. split.
  - apply Z.rem_nonneg; [lia | apply xor_shift_nonneg].
  - apply Z.rem_bound_pos; [apply xor_shift_nonneg | exact Hr].
Qed.

Lemma hash_in_range_witness :
  0 <= hash (- 5) 10 994443 609478 < 10.
Proof. apply hash_in_range. lia. Defined.

End HashProperties.

(** ** [CountMinSketch] of [cms.py] *)

Section CmsProperties.
Import Int32 Tensor.

(** C8 (the input on which the code departs from it).
    [CountMinSketch(N=10, D=32)] with the default [sketch_size] of one
    fifth: [int(10 * 0.2 / 3.)] is [0] and nothing clamps it, so the
    sketch has no bucket at all. *)
Theorem CountMinSketch_range_unclamped :
  Cms.range (Cms.init 10 32 (1 # 5)) = 0
  ∧ Cms.cms (Cms.init 10 32 (1 # 5)) = [].
Proof. split; vm_compute; reflexivity. Qed.

(** X2.  [DenseCMS], the sibling constructor, does clamp: its width is at
    least 1 whatever the fraction. *)
Lemma DenseCMS_range_clamped (N D : Z) (sketch_size : Q) :
  1 <= DenseCms.range (DenseCms.init N D sketch_size).
Proof. unfold DenseCms.init; simpl. lia. Qed.

(** C1 (the input on which the code departs from it).  A sketch for rows
    of [D = 33] lanes gets [blk_size = (33 // 32) * 32 = 32] threads per
    block; one update of key [7] with the value [1] in every lane
    leaves lane [32] of the answer at the [0] the buffer was filled
    with, below the [1] accumulated for it, while lane [31] is
    answered. *)
Theorem update_skips_lanes_past_blk_size :
  ∃ self' result,
    Cms.blk_size (Cms.init 15 33 (1 # 5)) = 32
    ∧ Cms.update (Cms.init 15 33 (1 # 5)) [7] 1 (replicate 33 1%R)
      = Some (self', result)
    ∧ result !! 32%nat = Some 0%R
    ∧ result !! 31%nat = Some (Cms.minimum (0 + 1) (0 + 1) (0 + 1)).
Proof.
  eexists _, _. split; [reflexivity |].
  split; [vm_compute; reflexivity |].
  split; vm_compute; reflexivity.
Qed.

End CmsProperties.

(** ** The dense path of [Adam] *)

Section DenseProperties.
Import AdamError.



End DenseProperties.

(** ** The sparse path of [Adam] *)

Section SparseProperties.
Import AdamError.
Context (api : sketch_api).

(** What a successful sparse step has computed, read off its text. *)
Lemma sparse_Some (self : Adam) (p : list (list R)) (grad : sparse_tensor)
    (g : group) (state : option (S.state api))
    (r : Adam * S.state api * list (list R)) :
  sparse api self p grad g state = Some r →
  let st := sparse_state api p grad state in
  let gr := sparse_grad api p grad g in
  let step := S (S.step st) in
  let cs := CountSketch_update api (S.exp_avg st) (indices gr) (values gr)
              (size gr) (Q2R (betas g).1) in
  let cm := CountMinSketch_update api
              (scheduled_clean api step (S.exp_avg_sq st)) (indices gr)
              (rows1 (λ x, x ^ 2)%R (values gr)) (size gr)
              (Q2R (betas g).2) in
  S.step r.1.2 = step
  ∧ S.exp_avg r.1.2 = cs.1
  ∧ S.exp_avg_sq r.1.2 = cm.1
  ∧ add_sparse p (indices gr)
      (rows1 (λ u, - step_size g step * u)%R
         (rows2 Rdiv cs.2 (sparse_denom g cm.2))) = Some r.2
  ∧ count r.1.1
    = ((if (count self mod 125 =? 0)%nat then 1 else count self) + 1)%nat.
Proof.
  intros H. cbv zeta. unfold sparse in H. cbv zeta in H.
  destruct (CountSketch_update api _ _ _ _ _) as [ea numer].
  destruct (CountMinSketch_update api _ _ _ _ _) as [eq est].
  repeat bind_inv H. inversion H; subst; clear H. cbn [fst snd].
  repeat split; try assumption.
  unfold diagnostic. cbn [count].
  destruct (count self mod 125 =? 0)%nat; reflexivity.
Qed.

(** *** Coalescing *)

Lemma coalesce_insert_keys (P : Z → Prop) (k : Z) (row : list R)
    (acc : list (Z * list R)) :
  P k → Forall (λ e, P e.1) acc →
  Forall (λ e, P e.1) (coalesce_insert k row acc).
Proof.
  intros Hk. induction acc as [| [k' row'] rest IH]; intros Hacc; simpl.
  - repeat constructor. exact Hk.
  - inversion Hacc as [| ? ? Hhd Htl]; subst.
    destruct (k <? k'); [constructor; [exact Hk | exact Hacc] |].
    destruct (k =? k'); constructor; auto.
Qed.

Lemma coalesce_insert_sorted (k : Z) (row : list R)
    (acc : list (Z * list R)) :
  StronglySorted key_lt acc → StronglySorted key_lt (coalesce_insert k row acc).
Proof.
  induction acc as [| [k' row'] rest IH]; intros Hs; simpl.
  - repeat constructor.
  - inversion Hs as [| ? ? Hrest Hall]; subst.
    destruct (k <? k') eqn:Hlt.
    + apply Z.ltb_lt in Hlt. constructor; [exact Hs |].
      constructor; [exact Hlt |].
      eapply Forall_impl; [exact Hall |].
      intros e He. unfold key_lt in *. simpl in *. lia.
    + destruct (k =? k') eqn:Heq.
      * constructor; assumption.
      * apply Z.ltb_ge in Hlt. apply Z.eqb_neq in Heq.
        constructor; [apply IH; exact Hrest |].
        apply (coalesce_insert_keys (λ x, k' < x)); [lia | exact Hall].
Qed.

Lemma coalesce_entries_sorted (l : list (Z * list R)) :
  StronglySorted key_lt (coalesce_entries l).
Proof.
  unfold coalesce_entries.
  assert (H : ∀ acc, StronglySorted key_lt acc →
              StronglySorted key_lt
                (foldl (λ acc e, coalesce_insert e.1 e.2 acc) acc l)).
  { induction l as [| e l IH]; intros acc Hacc; simpl; [exact Hacc |].
    apply IH, coalesce_insert_sorted, Hacc. }
  apply H. constructor.
Qed.

Lemma coalesce_insert_last (k : Z) (row : list R) (acc : list (Z * list R)) :
  Forall (λ e, e.1 < k) acc → coalesce_insert k row acc = acc ++ [(k, row)].
Proof.
  induction acc as [| [k' row'] rest IH]; intros Hacc; simpl; [reflexivity |].
  inversion Hacc as [| ? ? Hhd Htl]; subst. simpl in Hhd.
  destruct (k <? k') eqn:Hlt; [apply Z.ltb_lt in Hlt; lia |].
  destruct (k =? k') eqn:Heq; [apply Z.eqb_eq in Heq; lia |].
  rewrite IH by exact Htl. reflexivity.
Qed.

Lemma coalesce_entries_fixed (l : list (Z * list R)) :
  StronglySorted key_lt l → coalesce_entries l = l.
Proof.
  unfold coalesce_entries. intros Hl.
  assert (H : ∀ acc, StronglySorted key_lt (acc ++ l) →
              foldl (λ acc e, coalesce_insert e.1 e.2 acc) acc l = acc ++ l).
  { clear Hl. induction l as [| e l IH]; intros acc Hs; simpl.
    - rewrite app_nil_r. reflexivity.
    - destruct e as [k row]. cbn [fst snd].
      rewrite coalesce_insert_last.
      + rewrite IH; rewrite <- app_assoc; [reflexivity | exact Hs].
      + clear IH. induction acc as [| a acc IHa]; [constructor |].
        simpl in Hs. inversion Hs as [| ? ? Hrest Hall]; subst.
        constructor; [| apply IHa; exact Hrest].
        apply Forall_app in Hall as [_ Hall].
        inversion Hall; subst. assumption. }
  apply (H []). exact Hl.
Qed.

Lemma sorted_keys_NoDup (l : list (Z * list R)) :
  StronglySorted key_lt l → NoDup (l.*1).
Proof.
  induction 1 as [| a l Hs IH Hall]; simpl; constructor; [| exact IH].
  intros Hin. apply list_elem_of_fmap in Hin as (e & He1 & He).
  rewrite Forall_forall in Hall. specialize (Hall e He).
  unfold key_lt in Hall. lia.
Qed.

Lemma coalesce_idempotent (grad : sparse_tensor) :
  coalesce (coalesce grad) = coalesce grad.
Proof.
  unfold coalesce. cbn [indices values size].
  rewrite zip_fst_snd.
  rewrite coalesce_entries_fixed by apply coalesce_entries_sorted.
  reflexivity.
Qed.

(** What the coalesced entries hold for a key. *)
Lemma entry_of_above (k : Z) (acc : list (Z * list R)) :
  Forall (λ e, k < e.1) acc → entry_of k acc = None.
Proof.
  induction acc as [| [k' row'] rest IH]; intros H; [reflexivity |].
  inversion H as [| ? ? Hhd Htl]; subst. cbn [fst] in Hhd. cbn [entry_of].
  destruct (Z.eqb_spec k' k); [lia | apply IH, Htl].
Qed.

Lemma coalesce_insert_entry (k : Z) (row : list R)
    (acc : list (Z * list R)) (k' : Z) :
  StronglySorted key_lt acc →
  entry_of k' (coalesce_insert k row acc)
  = if k =? k'
    then Some (match entry_of k acc with
               | Some a => zip_with Rplus a row
               | None => row
               end)
    else entry_of k' acc.
Proof.
  induction acc as [| [k0 r0] rest IH]; intros Hs.
  - reflexivity.
  - inversion Hs as [| ? ? Hrest Hall]; subst.
    cbn [coalesce_insert].
    destruct (Z.ltb_spec k k0) as [Hlt | Hge].
    + cbn [entry_of].
      rewrite (entry_of_above k rest)
        by (eapply Forall_impl; [exact Hall |];
            intros e He; unfold key_lt in He; cbn [fst] in He; lia).
      destruct (Z.eqb_spec k0 k); [lia |]. reflexivity.
    + destruct (Z.eqb_spec k k0) as [-> | Hne].
      * cbn [entry_of]. rewrite Z.eqb_refl.
        destruct (k0 =? k'); reflexivity.
      * cbn [entry_of]. rewrite (IH Hrest).
        destruct (Z.eqb_spec k0 k); [lia |].
        destruct (Z.eqb_spec k0 k') as [-> | Hne'];
          [destruct (Z.eqb_spec k k'); [lia | reflexivity] | reflexivity].
Qed.

Lemma coalesce_entries_entry (l : list (Z * list R)) (k : Z) :
  entry_of k (coalesce_entries l) = key_sum k l None.
Proof.
  unfold coalesce_entries.
  assert (H : ∀ acc, StronglySorted key_lt acc →
              entry_of k (foldl (λ acc e, coalesce_insert e.1 e.2 acc) acc l)
              = key_sum k l (entry_of k acc)).
  { induction l as [| [k0 r0] l IH]; intros acc Hacc; [reflexivity |].
    cbn [foldl key_sum fst snd].
    rewrite (IH _ (coalesce_insert_sorted k0 r0 acc Hacc)).
    rewrite (coalesce_insert_entry k0 r0 acc k Hacc).
    destruct (Z.eqb_spec k0 k) as [-> | Hne]; reflexivity. }
  apply (H []). constructor.
Qed.

(** C3, as amended.  Line 113 coalesces whatever gradient the caller
    passes before anything reads it.  With no weight decay configured, the
    gradient the step works on is the coalesced form of the one passed: its
    keys are pairwise distinct and it holds, for every key, the sum of the
    rows the gradient passed holds for that key; it is these keys and rows
    that the two sketches are updated with and that the parameter update is
    built from; and the step on the gradient is the step on its coalesced
    form. *)
Theorem sparse_coalesces_itself (self : Adam) (p : list (list R))
    (grad : sparse_tensor) (g : group) (state : option (S.state api)) :
  Qeq_bool (weight_decay g) 0 = true →
  let cg := coalesce grad in
  let st := sparse_state api p grad state in
  let step := S (S.step st) in
  let cs := CountSketch_update api (S.exp_avg st) (indices cg) (values cg)
              (size grad) (Q2R (betas g).1) in
  let cm := CountMinSketch_update api
              (scheduled_clean api step (S.exp_avg_sq st)) (indices cg)
              ((λ row : list R, (λ x, x ^ 2)%R <$> row) <$> values cg)
              (size grad) (Q2R (betas g).2) in
  sparse api self p grad g state = sparse api self p cg g state
  ∧ sparse_grad api p grad g = cg
  ∧ NoDup (indices cg)
  ∧ length (values cg) = length (indices cg)
  ∧ (∀ k, entry_of k (zip (indices cg) (values cg))
          = key_sum k (zip (indices grad) (values grad)) None)
  ∧ (∀ r, sparse api self p grad g state = Some r →
       S.exp_avg r.1.2 = cs.1 ∧ S.exp_avg_sq r.1.2 = cm.1
       ∧ add_sparse p (indices cg)
           ((λ row : list R, (λ u, - step_size g step * u)%R <$> row)
              <$> zip_with (zip_with Rdiv) cs.2
                    ((λ row : list R,
                        (λ x, sqrt x + Q2R (eps g))%R <$> row) <$> cm.2))
         = Some r.2).
Proof.
  intros Hwd. cbv zeta.
  assert (Hsg : sparse_grad api p grad g = coalesce grad).
  { unfold sparse_grad. rewrite Hwd. reflexivity. }
  assert (Hg : sparse_grad api p (coalesce grad) g = sparse_grad api p grad g).
  { unfold sparse_grad. rewrite Hwd. apply coalesce_idempotent. }
  split; [| split; [exact Hsg | split; [| split; [| split]]]].
  - unfold sparse. rewrite Hg.
    replace (sparse_state api p (coalesce grad) state)
      with (sparse_state api p grad state); [reflexivity |].
    unfold sparse_state. destruct state; reflexivity.
  - unfold coalesce. cbn [indices].
    apply sorted_keys_NoDup, coalesce_entries_sorted.
  - unfold coalesce. cbn [indices values]. rewrite !length_fmap.
    reflexivity.
  - intros k. unfold coalesce. cbn [indices values].
    rewrite zip_fst_snd. apply coalesce_entries_entry.
  - intros r Hr. apply sparse_Some in Hr. cbv zeta in Hr.
    rewrite Hsg in Hr. destruct Hr as (_ & Hea & Hsq & Hp & _).
    split; [exact Hea |]. split; [exact Hsq | exact Hp].
Qed.

(** C7.  [DenseCMS.clean(alpha)] multiplies every stored value, hence
    every value a coordinate can read back, by [alpha]; and a sparse step
    feeds the second-moment sketch to its update cleaned with 0.25 when
    the incremented step counter is a multiple of 1000, and untouched
    otherwise. *)
Theorem clean_scales_and_schedule (c : DenseCms.DenseCMS) (alpha : R)
    (self : Adam) (p : list (list R)) (grad : sparse_tensor) (g : group)
    (state : option (S.state api)) (r : Adam * S.state api * list (list R)) :
  sparse api self p grad g state = Some r →
  (∀ i : nat,
      DenseCms.cms (DenseCms.clean c alpha) !! i
      = (λ v, v * alpha)%R <$> DenseCms.cms c !! i)
  ∧ length (DenseCms.cms (DenseCms.clean c alpha)) = length (DenseCms.cms c)
  ∧ S.step r.1.2 = S (S.step (sparse_state api p grad state))
  ∧ S.exp_avg_sq r.1.2
    = (CountMinSketch_update api
         (if (S.step r.1.2 mod 1000 =? 0)%nat
          then CountMinSketch_clean api
                 (S.exp_avg_sq (sparse_state api p grad state)) (1 / 4)%R
          else S.exp_avg_sq (sparse_state api p grad state))
         (indices (sparse_grad api p grad g))
         (rows1 (λ x, x ^ 2)%R (values (sparse_grad api p grad g)))
         (size (sparse_grad api p grad g)) (Q2R (betas g).2)).1.
Proof.
  intros H. apply sparse_Some in H. cbv zeta in H.
  destruct H as (Hstep & _ & Hsq & _).
  split; [| split; [| split]].
  - intros i. unfold DenseCms.clean. cbn [DenseCms.cms].
    apply list_lookup_fmap.
  - unfold DenseCms.clean. cbn [DenseCms.cms]. apply length_fmap.
  - exact Hstep.
  - rewrite Hsq, Hstep. reflexivity.
Qed.

(** X1.  The shadows and the diagnostic (lines 153-174) change nothing of
    the update: a successful step moves the parameter and the two sketches
    exactly as the step without those lines does. *)
Theorem diagnostic_leaves_update_alone (self : Adam) (p : list (list R))
    (grad : sparse_tensor) (g : group) (state : option (S.state api))
    (r : Adam * S.state api * list (list R)) :
  sparse api self p grad g state = Some r →
  ∃ st',
    sparse_plain api p grad g state = Some (st', r.2)
    ∧ S.step st' = S.step r.1.2
    ∧ S.exp_avg st' = S.exp_avg r.1.2
    ∧ S.exp_avg_sq st' = S.exp_avg_sq r.1.2.
Proof.
  intros H. apply sparse_Some in H. cbv zeta in H.
  destruct H as (Hstep & Hea & Hsq & Hp & _).
  unfold sparse_plain. cbv zeta.
  destruct (CountSketch_update api _ _ _ _ _) as [ea numer] eqn:E1.
  destruct (CountMinSketch_update api _ _ _ _ _) as [eq est] eqn:E2.
  cbn [fst snd] in *. rewrite Hp.
  cbn [mbind option_bind]. eexists. split; [reflexivity |].
  cbn [S.step S.exp_avg S.exp_avg_sq]. rewrite Hstep, Hea, Hsq.
  repeat split.
Qed.

End SparseProperties.

(** ** Concrete runs of the two paths *)

Section ConcreteRuns.
Import AdamError.

(** The defaults pass the validation of [Adam.__init__]. *)
Lemma init_defaults :
  init (1 # 1000) (9 # 10, 999 # 1000) (1 # 100000000) 0 false
  = Some (default_adam, default_group).
Proof. reflexivity. Qed.

(** C3 (the input on which the claim fails).  A gradient that names key
    [3] twice reaches the sketches with the single key [3] and the two
    rows added up: the step has coalesced it. *)
Lemma duplicate_keys_are_coalesced :
  sparse_grad probe_api [[0]; [0]; [0]; [0]]%R
    {| indices := [3; 3]; values := [[1]; [2]]%R; size := (4, 1) |}
    default_group
  = {| indices := [3]; values := [[1 + 2]]%R; size := (4, 1) |}
  ∧ (λ r : Adam * S.state probe_api * list (list R),
       (S.exp_avg r.1.2, (S.exp_avg_sq r.1.2).1))
    <$> sparse probe_api default_adam [[0]; [0]; [0]; [0]]%R
          {| indices := [3; 3]; values := [[1]; [2]]%R; size := (4, 1) |}
          default_group None
    = Some ([[3]], [[3]]).
Proof. split; reflexivity. Qed.

Lemma sparse_coalesces_itself_witness :
  let grad := {| indices := [3; 3]; values := [[1]; [2]]%R;
                 size := (4, 1) |} in
  let p := [[0]; [0]; [0]; [0]]%R in
  sparse probe_api default_adam p grad default_group None
  = sparse probe_api default_adam p (coalesce grad) default_group None
  ∧ sparse_grad probe_api p grad default_group = coalesce grad
  ∧ NoDup (indices (coalesce grad))
  ∧ entry_of 3 (zip (indices (coalesce grad)) (values (coalesce grad)))
    = key_sum 3 (zip (indices grad) (values grad)) None.
Proof.
  cbv zeta.
  pose proof (sparse_coalesces_itself probe_api default_adam
                [[0]; [0]; [0]; [0]]%R
                {| indices := [3; 3]; values := [[1]; [2]]%R;
                   size := (4, 1) |}
                default_group None eq_refl) as H.
  cbv zeta in H. destruct H as (H1 & H2 & H3 & _ & H5 & _).
  split; [exact H1 |]. split; [exact H2 |]. split; [exact H3 |].
  exact (H5 3).
Defined.

(** C6 (the run on which the code departs from it).  With the counter
    starting at 1, reset to 1 and tested by [count % 125 == 0], a fresh
    optimizer prints its two numbers during sparse calls 125 and 249:
    before call 125 and again before call 249 the counter stands at 125,
    and after 249 calls four numbers have been printed. *)
Theorem diagnostic_period_is_124 :
  let run n :=
    (λ r : Adam * option (S.state probe_api) * list (list R),
       (count r.1.1, length (printed r.1.1)))
    <$> sparse_steps probe_api n default_adam [[0]]%R
          {| indices := [0]; values := [[2]]%R; size := (1, 1) |}
          default_group None in
  run 124%nat = Some (125%nat, 0%nat)
  ∧ run 125%nat = Some (2%nat, 2%nat)
  ∧ run 248%nat = Some (125%nat, 2%nat)
  ∧ run 249%nat = Some (2%nat, 4%nat).
Proof. cbv zeta. repeat split; vm_compute; reflexivity. Qed.

(** C9 (the input on which the claim fails).  [eps = 0] passes the
    validation of [Adam.__init__]; the first dense step on a zero
    gradient then divides by [sqrt 0 + 0 = 0]. *)
Lemma zero_eps_zero_denominator :
  ∃ a g st p',
    init (1 # 1000) (9 # 10, 999 # 1000) 0 0 false = Some (a, g)
    ∧ dense [1%R] [0%R] g None = Some (st, p')
    ∧ amsgrad g = false
    ∧ dense_denom g (D.exp_avg_sq st) = [0%R].
Proof.
  eexists _, _, _, _. split; [reflexivity |]. split; [reflexivity |].
  split; [reflexivity |].
  unfold dense_denom, dense_exp_avg_sq, dense_grad, dense_state, zeros_like.
  cbn [D.exp_avg_sq eps betas amsgrad weight_decay Qeq_bool fmap list_fmap
       zip_with snd].
  change (Qeq_bool 0 0) with true.
  cbn. f_equal.
  rewrite RMicromega.Q2R_0.
  match goal with |- (sqrt ?x + 0)%R = _ => replace x with 0%R by lra end.
  rewrite sqrt_0. lra.
Qed.

Lemma clean_scales_and_schedule_witness :
  ∃ r,
    sparse probe_api default_adam [[0]]%R
      {| indices := [0]; values := [[2]]%R; size := (1, 1) |} default_group
      (Some {| S.step := 999; S.exp_avg := [] : CountSketch probe_api;
               S.exp_avg_base := [[0]]%R;
               S.exp_avg_sq := ([], []) : CountMinSketch probe_api;
               S.exp_avg_sq_base := [[0]]%R |}) = Some r
    ∧ S.step r.1.2 = 1000%nat
    ∧ S.exp_avg_sq r.1.2 = ([[0]], [(1 / 4)%R])
    ∧ (∀ i : nat,
          DenseCms.cms (DenseCms.clean (DenseCms.init 1 10 (1 # 5)) (1 / 4))
          !! i
          = (λ v, v * (1 / 4))%R
            <$> DenseCms.cms (DenseCms.init 1 10 (1 # 5)) !! i).
Proof.
  eexists. split; [reflexivity |].
  split; [reflexivity |]. split; [reflexivity |].
  refine (proj1 (clean_scales_and_schedule probe_api
                   (DenseCms.init 1 10 (1 # 5)) (1 / 4)%R default_adam
                   [[0]]%R
                   {| indices := [0]; values := [[2]]%R; size := (1, 1) |}
                   default_group
                   (Some {| S.step := 999;
                            S.exp_avg := [] : CountSketch probe_api;
                            S.exp_avg_base := [[0]]%R;
                            S.exp_avg_sq := ([], []) : CountMinSketch probe_api;
                            S.exp_avg_sq_base := [[0]]%R |}) _ _)).
  reflexivity.
Defined.

Lemma diagnostic_leaves_update_alone_witness :
  ∃ r st',
    sparse probe_api default_adam [[0]]%R
      {| indices := [0]; values := [[2]]%R; size := (1, 1) |}
      default_group None = Some r
    ∧ sparse_plain probe_api [[0]]%R
        {| indices := [0]; values := [[2]]%R; size := (1, 1) |}
        default_group None = Some (st', r.2)
    ∧ S.step st' = S.step r.1.2
    ∧ S.exp_avg st' = S.exp_avg r.1.2
    ∧ S.exp_avg_sq st' = S.exp_avg_sq r.1.2.
Proof.
  eexists.
  destruct (diagnostic_leaves_update_alone probe_api default_adam [[0]]%R
              {| indices := [0]; values := [[2]]%R; size := (1, 1) |}
              default_group None _ eq_refl) as (st' & H).
  exists st'. split; [reflexivity | exact H].
Defined.

End ConcreteRuns.

(** ** Device memory and loops *)

Section Memory.
Import Tensor.

Lemma ld_Some_range (m : list R) (i : Z) (v : R) :
  ld m i = Some v → 0 <= i < Z.of_nat (length m).
Proof.
  unfold ld. destruct (0 <=? i) eqn:Hi; [| discriminate].
  intros H. apply lookup_lt_Some in H. lia.
Qed.

Lemma ld_is_Some (m : list R) (i : Z) :
  0 <= i < Z.of_nat (length m) → ∃ v, ld m i = Some v.
Proof.
  intros Hi. unfold ld.
  destruct (0 <=? i) eqn:H0; [| lia].
  destruct (lookup_lt_is_Some_2 m (Z.to_nat i)) as [v Hv]; [lia |].
  exists v. exact Hv.
Qed.

Lemma st_is_Some (m : list R) (i : Z) (v : R) :
  0 <= i < Z.of_nat (length m) → ∃ m', st m i v = Some m'.
Proof.
  intros Hi. unfold st.
  destruct (0 <=? i) eqn:H0; [| lia].
  destruct (i <? Z.of_nat (length m)) eqn:H1; [| lia].
  eexists. reflexivity.
Qed.

Lemma st_spec (m m' : list R) (i : Z) (v : R) :
  st m i v = Some m' →
  length m' = length m
  ∧ ld m' i = Some v
  ∧ ∀ j, j ≠ i → ld m' j = ld m j.
Proof.
  unfold st.
  destruct (0 <=? i) eqn:H0; [| discriminate].
  destruct (i <? Z.of_nat (length m)) eqn:H1; [| discriminate].
  cbn [andb]. intros H. inversion H; subst; clear H.
  split; [apply length_insert |]. split.
  - unfold ld. rewrite H0. apply list_lookup_insert_eq. lia.
  - intros j Hj. unfold ld. destruct (0 <=? j) eqn:Hj0; [| reflexivity].
    apply list_lookup_insert_ne. lia.
Qed.

Lemma add_at_is_Some (m : list R) (i : Z) (old v : R) :
  ld m i = Some old → ∃ m', add_at m i v = Some m'.
Proof.
  intros H. unfold add_at. rewrite H. cbn [mbind option_bind].
  apply st_is_Some. eapply ld_Some_range, H.
Qed.

Lemma add_at_spec (m m' : list R) (i : Z) (v : R) :
  add_at m i v = Some m' →
  length m' = length m
  ∧ (∃ old, ld m i = Some old ∧ ld m' i = Some (old + v)%R)
  ∧ ∀ j, j ≠ i → ld m' j = ld m j.
Proof.
  unfold add_at. intros H. bind_inv H.
  apply st_spec in H as (Hlen & Hi & Hne).
  split; [exact Hlen |]. split; [| exact Hne].
  eexists. split; [reflexivity | exact Hi].
Qed.

Lemma ld_zeros (n i : Z) : 0 <= i < n → ld (zeros n) i = Some 0%R.
Proof.
  intros Hi. unfold ld, zeros.
  destruct (0 <=? i) eqn:H0; [| lia].
  apply lookup_replicate_2. lia.
Qed.

Lemma length_zeros (n : Z) : Z.of_nat (length (zeros n)) = Z.max 0 n.
Proof. unfold zeros. rewrite length_replicate. lia. Qed.

(** The invariant rule of [for_range]. *)
Lemma for_range_inv {S : Type} (I : nat → S → Prop) (n : nat)
    (body : Z → S → option S) (s : S) :
  I 0%nat s →
  (∀ k s, (k < n)%nat → I k s →
          ∃ s', body (Z.of_nat k) s = Some s' ∧ I (Datatypes.S k) s') →
  ∃ s', for_range n body s = Some s' ∧ I n s'.
Proof.
  intros H0 Hstep. induction n as [| n IH].
  - exists s. split; [reflexivity | exact H0].
  - destruct IH as (s1 & Hs1 & HI1).
    { intros k s0 Hk. apply Hstep. lia. }
    destruct (Hstep n s1) as (s2 & Hs2 & HI2); [lia | exact HI1 |].
    exists s2. split; [| exact HI2].
    cbn [for_range]. rewrite Hs1. cbn [mbind option_bind]. exact Hs2.
Qed.

End Memory.

(** ** One block of a dense kernel *)

Section Block.
Import Int32 Tensor DenseCms.

Variables (gradient : list R) (lr beta : R).
Variables (b D n : Z) (h : Z → Z).
Variables (p m : list R).

Hypothesis Hb : 0 <= b.
Hypothesis HD : 0 <= D.
Hypothesis Hn : 0 <= n.
Hypothesis Hp : b * D + D <= Z.of_nat (length p).
Hypothesis Hg : b * D + D <= Z.of_nat (length gradient).
Hypothesis Hm : b * n + n <= Z.of_nat (length m).
Hypothesis HpI : b * D + D <= 2 ^ 31.
Hypothesis HmI : b * n + n <= 2 ^ 31.
Hypothesis Hh : ∀ i, 0 <= i < D → 0 <= h i < n.

Let HbD : 0 <= b * D := Z.mul_nonneg_nonneg _ _ Hb HD.
Let Hbn : 0 <= b * n := Z.mul_nonneg_nonneg _ _ Hb Hn.

(** The staging loop copies the row of [mem] into [aux] and clears [acc]. *)
Lemma stage_loop (sh : list R) :
  2 * n <= Z.of_nat (length sh) →
  ∃ s',
    for_range (Z.to_nat n) (stage b n)
      {| parameter := p; mem := m; shared := sh |} = Some s'
    ∧ parameter s' = p ∧ mem s' = m
    ∧ length (shared s') = length sh
    ∧ ∀ j, 0 <= j < n →
        ld (shared s') j = ld m (b * n + j)
        ∧ ld (shared s') (n + j) = Some 0%R.
Proof using All.
  intros Hsh.
  destruct (for_range_inv
              (λ k s, parameter s = p ∧ mem s = m
                      ∧ length (shared s) = length sh
                      ∧ ∀ j, 0 <= j < Z.of_nat k →
                          ld (shared s) j = ld m (b * n + j)
                          ∧ ld (shared s) (n + j) = Some 0%R)
              (Z.to_nat n) (stage b n)
              {| parameter := p; mem := m; shared := sh |})
    as (s' & Hrun & Hp' & Hm' & Hlen & Hall).
  - cbn. repeat split; try reflexivity; lia.
  - intros k s Hk (Hps & Hms & Hls & Hinv).
    unfold stage. rewrite wrap32_id by lia. rewrite Hms.
    destruct (ld_is_Some m (b * n + Z.of_nat k)) as [v Hv]; [lia |].
    rewrite Hv. cbn [mbind option_bind].
    destruct (st_is_Some (shared s) (Z.of_nat k) v) as [sh1 Hsh1]; [lia |].
    rewrite Hsh1. cbn [mbind option_bind].
    apply st_spec in Hsh1 as (Hl1 & Hk1 & Hne1).
    destruct (st_is_Some sh1 (n + Z.of_nat k) 0%R) as [sh2 Hsh2]; [lia |].
    rewrite Hsh2. cbn [mbind option_bind].
    apply st_spec in Hsh2 as (Hl2 & Hk2 & Hne2).
    eexists. split; [reflexivity |]. cbn [parameter mem shared].
    repeat split; try assumption; try congruence.
    + destruct (Z.eq_dec j (Z.of_nat k)) as [-> | Hjk].
      * rewrite Hne2 by lia. rewrite Hk1, Hv. reflexivity.
      * rewrite Hne2, Hne1 by lia. apply Hinv. lia.
    + destruct (Z.eq_dec j (Z.of_nat k)) as [-> | Hjk].
      * exact Hk2.
      * rewrite Hne2, Hne1 by lia. apply Hinv. lia.
  - exists s'. repeat split; try assumption; apply Hall; lia.
Qed.

(** The update loop: [aux] is left as staged, [acc] collects the bucket
    sums, and every coordinate of the row is moved with the adaptive value
    of its staged bucket. *)
Lemma adapt_loop (s0 : block_mem) :
  parameter s0 = p → mem s0 = m →
  (∀ j, 0 <= j < n →
        ld (shared s0) j = ld m (b * n + j)
        ∧ ld (shared s0) (n + j) = Some 0%R) →
  ∃ s',
    for_range (Z.to_nat D)
      (λ index, adapt_step gradient lr beta (wrap32 (b * D)) n index (h index))
      s0 = Some s'
    ∧ mem s' = m
    ∧ length (parameter s') = length p
    ∧ length (shared s') = length (shared s0)
    ∧ (∀ j, 0 <= j < n →
          ld (shared s') j = ld m (b * n + j)
          ∧ ld (shared s') (n + j)
            = Some (bucket_sum gradient (b * D) h (Z.to_nat D) j))
    ∧ (∀ d, 0 <= d < D →
          ∃ x gd old,
            ld p (b * D + d) = Some x
            ∧ ld gradient (b * D + d) = Some gd
            ∧ ld m (b * n + h d) = Some old
            ∧ ld (parameter s') (b * D + d)
              = Some (x + lr * gd
                          * rsqrtf (adaptive beta old (gd ^ 2) + 1e-10))%R)
    ∧ (∀ i, ¬ (b * D <= i < b * D + D) → ld (parameter s') i = ld p i).
Proof using All.
  intros Hp0 Hm0 Hsh0.
  destruct (for_range_inv
              (λ k s,
                 mem s = m
                 ∧ length (parameter s) = length p
                 ∧ length (shared s) = length (shared s0)
                 ∧ (∀ j, 0 <= j < n →
                       ld (shared s) j = ld m (b * n + j)
                       ∧ ld (shared s) (n + j)
                         = Some (bucket_sum gradient (b * D) h k j))
                 ∧ (∀ d, 0 <= d < Z.of_nat k →
                       ∃ x gd old,
                         ld p (b * D + d) = Some x
                         ∧ ld gradient (b * D + d) = Some gd
                         ∧ ld m (b * n + h d) = Some old
                         ∧ ld (parameter s) (b * D + d)
                           = Some (x + lr * gd
                                       * rsqrtf (adaptive beta old (gd ^ 2)
                                                 + 1e-10))%R)
                 ∧ (∀ i, ¬ (b * D <= i < b * D + Z.of_nat k) →
                       ld (parameter s) i = ld p i))
              (Z.to_nat D)
              (λ index,
                 adapt_step gradient lr beta (wrap32 (b * D)) n index (h index))
              s0)
    as (s' & Hrun & Hm' & Hlp & Hls & Hsh & Hpar & Hrest).
  - rewrite Hp0, Hm0. repeat split; try reflexivity; try apply Hsh0; try lia.
  - intros k s Hk (Hms & Hlps & Hlss & Hshs & Hpars & Hrests).
    unfold adapt_step.
    rewrite (wrap32_id (b * D)) by lia.
    rewrite (wrap32_id (b * D + Z.of_nat k)) by lia.
    destruct (ld_is_Some p (b * D + Z.of_nat k)) as [x Hx]; [lia |].
    rewrite Hrests, Hx by lia. cbn [mbind option_bind].
    destruct (ld_is_Some gradient (b * D + Z.of_nat k)) as [gk Hgk]; [lia |].
    rewrite Hgk. cbn [mbind option_bind].
    pose proof (Hh (Z.of_nat k) ltac:(lia)) as Hhk.
    destruct (ld_is_Some m (b * n + h (Z.of_nat k))) as [old Hold]; [lia |].
    destruct (Hshs (h (Z.of_nat k)) Hhk) as [Haux Hacc].
    rewrite Haux, Hold. cbn [mbind option_bind].
    destruct (add_at_is_Some (parameter s) (b * D + Z.of_nat k) x
                (lr * gk * rsqrtf (adaptive beta old (gk ^ 2) + 1e-10))%R)
      as [par Hpar']; [rewrite Hrests by lia; exact Hx |].
    rewrite Hpar'. cbn [mbind option_bind].
    apply add_at_spec in Hpar' as (Hlpar & (x' & Hx' & Hparnew) & Hparne).
    rewrite Hrests, Hx in Hx' by lia. inversion Hx'; subst x'; clear Hx'.
    destruct (add_at_is_Some (shared s) (n + h (Z.of_nat k)) _ (gk ^ 2)%R Hacc)
      as [sh Hsh'].
    rewrite Hsh'. cbn [mbind option_bind].
    apply add_at_spec in Hsh' as (Hlsh & (a' & Ha' & Hshnew) & Hshne).
    rewrite Hacc in Ha'. inversion Ha'; subst a'; clear Ha'.
    eexists. split; [reflexivity |]. cbn [parameter mem shared].
    split; [exact Hms |]. split; [congruence |]. split; [congruence |].
    split; [| split].
    + intros j Hj. destruct (Hshs j Hj) as [Hauxj Haccj]. split.
      * rewrite Hshne by lia. exact Hauxj.
      * cbn [bucket_sum]. rewrite Hgk. cbn [default from_option id].
        destruct (Z.eqb_spec (h (Z.of_nat k)) j) as [<- | Hne].
        -- exact Hshnew.
        -- rewrite Hshne by lia. exact Haccj.
    + intros d Hd. destruct (Z.eq_dec d (Z.of_nat k)) as [-> | Hdk].
      * exists x, gk, old. repeat split; assumption.
      * destruct (Hpars d ltac:(lia)) as (x0 & g0 & o0 & H1 & H2 & H3 & H4).
        exists x0, g0, o0. repeat split; try assumption.
        rewrite Hparne by lia. exact H4.
    + intros i Hi. rewrite Hparne by lia. apply Hrests. lia.
  - exists s'. rewrite Z2Nat.id in Hpar, Hrest by lia.
    repeat split; try assumption; apply Hsh; assumption.
Qed.

(** The commit loop adds [(1 - beta) * (acc - aux)] to every bucket of the
    row and touches nothing else. *)
Lemma commit_loop (s0 : block_mem) (acc : Z → R) :
  mem s0 = m →
  (∀ j, 0 <= j < n →
        ld (shared s0) j = ld m (b * n + j)
        ∧ ld (shared s0) (n + j) = Some (acc j)) →
  ∃ s',
    for_range (Z.to_nat n) (commit beta b n) s0 = Some s'
    ∧ parameter s' = parameter s0
    ∧ length (mem s') = length m
    ∧ (∀ j, 0 <= j < n →
          ∃ old, ld m (b * n + j) = Some old
                 ∧ ld (mem s') (b * n + j)
                   = Some (old + (1 - beta) * (acc j - old))%R)
    ∧ (∀ i, ¬ (b * n <= i < b * n + n) → ld (mem s') i = ld m i).
Proof using All.
  intros Hm0 Hsh0.
  destruct (for_range_inv
              (λ k s,
                 parameter s = parameter s0
                 ∧ shared s = shared s0
                 ∧ length (mem s) = length m
                 ∧ (∀ j, 0 <= j < Z.of_nat k →
                       ∃ old, ld m (b * n + j) = Some old
                              ∧ ld (mem s) (b * n + j)
                                = Some (old + (1 - beta) * (acc j - old))%R)
                 ∧ (∀ i, ¬ (b * n <= i < b * n + Z.of_nat k) →
                       ld (mem s) i = ld m i))
              (Z.to_nat n) (commit beta b n) s0)
    as (s' & Hrun & Hp' & _ & Hlen & Hdone & Hrest).
  - rewrite Hm0. repeat split; try reflexivity; lia.
  - intros k s Hk (Hps & Hss & Hls & Hdones & Hrests).
    unfold commit. rewrite Hss.
    destruct (Hsh0 (Z.of_nat k) ltac:(lia)) as [Haux Hacc].
    rewrite Hacc. cbn [mbind option_bind].
    destruct (ld_is_Some m (b * n + Z.of_nat k)) as [old Hold]; [lia |].
    rewrite Haux, Hold. cbn [mbind option_bind].
    rewrite wrap32_id by lia.
    destruct (add_at_is_Some (mem s) (b * n + Z.of_nat k) old
                ((1 - beta) * (acc (Z.of_nat k) - old))%R)
      as [m1 Hm1]; [rewrite Hrests by lia; exact Hold |].
    rewrite Hm1. cbn [mbind option_bind].
    apply add_at_spec in Hm1 as (Hl1 & (o' & Ho' & Hnew) & Hne).
    rewrite Hrests, Hold in Ho' by lia. inversion Ho'; subst o'; clear Ho'.
    eexists. split; [reflexivity |]. cbn [parameter mem shared].
    split; [exact Hps |]. split; [reflexivity |]. split; [congruence |].
    split.
    + intros j Hj. destruct (Z.eq_dec j (Z.of_nat k)) as [-> | Hjk].
      * exists old. split; assumption.
      * destruct (Hdones j ltac:(lia)) as (o & Ho1 & Ho2).
        exists o. split; [exact Ho1 |]. rewrite Hne by lia. exact Ho2.
    + intros i Hi. rewrite Hne by lia. apply Hrests. lia.
  - exists s'. rewrite Z2Nat.id in Hdone, Hrest by lia.
    repeat split; assumption.
Qed.

(** One block with slot function [h] over [n] slots: what it leaves in the
    two global arrays. *)
Lemma block_spec (sh : list R) :
  2 * n <= Z.of_nat (length sh) →
  ∃ s',
    (s ← for_range (Z.to_nat n) (stage b n)
           {| parameter := p; mem := m; shared := sh |};
     s ← for_range (Z.to_nat D)
           (λ index,
              adapt_step gradient lr beta (wrap32 (b * D)) n index (h index))
           s;
     for_range (Z.to_nat n) (commit beta b n) s) = Some s'
    ∧ length (parameter s') = length p
    ∧ length (mem s') = length m
    ∧ (∀ d, 0 <= d < D →
          ∃ x gd old,
            ld p (b * D + d) = Some x
            ∧ ld gradient (b * D + d) = Some gd
            ∧ ld m (b * n + h d) = Some old
            ∧ ld (parameter s') (b * D + d)
              = Some (x + lr * gd
                          * rsqrtf (adaptive beta old (gd ^ 2) + 1e-10))%R)
    ∧ (∀ i, ¬ (b * D <= i < b * D + D) → ld (parameter s') i = ld p i)
    ∧ (∀ j, 0 <= j < n →
          ∃ old,
            ld m (b * n + j) = Some old
            ∧ ld (mem s') (b * n + j)
              = Some (old + (1 - beta)
                            * (bucket_sum gradient (b * D) h (Z.to_nat D) j
                               - old))%R)
    ∧ (∀ i, ¬ (b * n <= i < b * n + n) → ld (mem s') i = ld m i).
Proof using All.
  intros Hsh.
  destruct (stage_loop sh Hsh) as (s1 & Hr1 & Hp1 & Hm1 & Hl1 & Hs1).
  rewrite Hr1. cbn [mbind option_bind].
  destruct (adapt_loop s1 Hp1 Hm1 Hs1)
    as (s2 & Hr2 & Hm2 & Hlp2 & Hls2 & Hs2 & Hpar2 & Hrest2).
  rewrite Hr2. cbn [mbind option_bind].
  destruct (commit_loop s2 (bucket_sum gradient (b * D) h (Z.to_nat D))
              Hm2 Hs2)
    as (s3 & Hr3 & Hp3 & Hl3 & Hdone3 & Hrest3).
  exists s3. rewrite Hp3.
  repeat split; assumption.
Qed.

End Block.

(** ** A launch of a dense kernel *)

Section Rows.
Import Tensor DenseCms.

Lemma row_end (N b c : Z) : 0 <= b < N → 0 <= c → b * c + c <= N * c.
Proof. intros Hb Hc. nia. Qed.

Lemma row_before (b' b c d : Z) :
  0 <= b' < b → 0 <= d < c → b' * c + d < b * c.
Proof. intros Hb Hd. nia. Qed.

Lemma bucket_sum_ext (gradient : list R) (off : Z) (h h' : Z → Z) (c : nat)
    (j : Z) :
  (∀ i, 0 <= i < Z.of_nat c → h i = h' i) →
  bucket_sum gradient off h c j = bucket_sum gradient off h' c j.
Proof.
  induction c as [| c IH]; intros Hh; [reflexivity |].
  cbn [bucket_sum]. rewrite IH by (intros i Hi; apply Hh; lia).
  rewrite (Hh (Z.of_nat c)) by lia. reflexivity.
Qed.

End Rows.

Section Kernel.
Import Int32 Tensor DenseCms.

Variables (k : kernel_name) (gradient : list R) (lr beta : R).
Variables (N D W smem : Z) (p0 m0 : list R).

Let n := slots k D W.

Hypothesis HN : 0 <= N.
Hypothesis HD : 0 <= D.
Hypothesis Hn : 0 <= n.
Hypothesis HW : k = dense_cms_update → 0 < W.
Hypothesis Hp : N * D <= Z.of_nat (length p0).
Hypothesis Hg : N * D <= Z.of_nat (length gradient).
Hypothesis Hm : N * n <= Z.of_nat (length m0).
Hypothesis HpI : N * D <= 2 ^ 31.
Hypothesis HmI : N * n <= 2 ^ 31.
Hypothesis Hsmem : 2 * n <= smem / 4.

Lemma slot_range (b i : Z) : 0 <= slot k D W b i < n ∨ ¬ 0 <= i < D.
Proof using All.
  destruct (Z_lt_dec i D) as [Hi |]; [| right; lia].
  destruct (Z_le_dec 0 i) as [Hi0 |]; [| right; lia].
  left. subst n. unfold slot, slots. destruct k; [lia |].
  apply hash_bucket. apply HW. reflexivity.
Qed.

(** What a launch of [N] blocks leaves in [parameter] and [mem]: every
    coordinate moved with the adaptive value of its staged slot, every
    slot advanced by [(1 - beta) * (bucket sum - staged value)]. *)
Lemma run_kernel_spec :
  ∃ p' m',
    run_kernel k N smem gradient lr beta D W (p0, m0) = Some (p', m')
    ∧ length p' = length p0
    ∧ length m' = length m0
    ∧ (∀ b d, 0 <= b < N → 0 <= d < D →
          ∃ x gd old,
            ld p0 (b * D + d) = Some x
            ∧ ld gradient (b * D + d) = Some gd
            ∧ ld m0 (b * n + slot k D W b d) = Some old
            ∧ ld p' (b * D + d)
              = Some (x + lr * gd
                          * rsqrtf (adaptive beta old (gd ^ 2) + 1e-10))%R)
    ∧ (∀ b j, 0 <= b < N → 0 <= j < n →
          ∃ old,
            ld m0 (b * n + j) = Some old
            ∧ ld m' (b * n + j)
              = Some (old + (1 - beta)
                            * (bucket_sum gradient (b * D) (slot k D W b)
                                 (Z.to_nat D) j - old))%R).
Proof using All.
  unfold run_kernel.
  destruct (for_range_inv
              (λ c (s : list R * list R),
                 length s.1 = length p0
                 ∧ length s.2 = length m0
                 ∧ (∀ b d, 0 <= b < Z.of_nat c → 0 <= d < D →
                       ∃ x gd old,
                         ld p0 (b * D + d) = Some x
                         ∧ ld gradient (b * D + d) = Some gd
                         ∧ ld m0 (b * n + slot k D W b d) = Some old
                         ∧ ld s.1 (b * D + d)
                           = Some (x + lr * gd
                                       * rsqrtf (adaptive beta old (gd ^ 2)
                                                 + 1e-10))%R)
                 ∧ (∀ i, Z.of_nat c * D <= i → ld s.1 i = ld p0 i)
                 ∧ (∀ b j, 0 <= b < Z.of_nat c → 0 <= j < n →
                       ∃ old,
                         ld m0 (b * n + j) = Some old
                         ∧ ld s.2 (b * n + j)
                           = Some (old + (1 - beta)
                                         * (bucket_sum gradient (b * D)
                                              (slot k D W b) (Z.to_nat D) j
                                            - old))%R)
                 ∧ (∀ i, Z.of_nat c * n <= i → ld s.2 i = ld m0 i))
              (Z.to_nat N)
              (λ blockIdx '(p, m),
                 s' ← kernel_block k gradient lr beta D W blockIdx
                        {| parameter := p; mem := m;
                           shared := zeros (smem / 4) |};
                 Some (parameter s', mem s'))
              (p0, m0))
    as ([p' m'] & Hrun & Hlp & Hlm & Hpar & _ & Hmem & _).
  - cbn [fst snd]. repeat split; try reflexivity; lia.
  - intros c [p m] Hc (Hlp & Hlm & Hpar & Hprest & Hmem & Hmrest).
    cbn [fst snd] in *.
    set (b := Z.of_nat c) in *.
    assert (Hb : 0 <= b < N) by lia.
    pose proof (row_end N b D Hb HD) as HeD.
    pose proof (row_end N b n Hb Hn) as Hen.
    assert (HbD : 0 <= b * D) by nia.
    assert (Hbn : 0 <= b * n) by nia.
    set (h := λ i, match k with
                   | dense_update => i
                   | dense_cms_update =>
                       hash (wrap32 (wrap32 (b * D) + i)) W 994443 609478
                   end).
    assert (Hh : ∀ i, 0 <= i < D → h i = slot k D W b i).
    { intros i Hi. unfold h, slot. destruct k; [reflexivity |].
      rewrite (wrap32_id (b * D)) by lia.
      rewrite (wrap32_id (b * D + i)) by lia. reflexivity. }
    destruct (block_spec gradient lr beta b D n h p m
                ltac:(lia) HD Hn ltac:(lia) ltac:(lia) ltac:(lia)
                ltac:(lia) ltac:(lia)
                ltac:(intros i Hi; rewrite Hh by exact Hi;
                      destruct (slot_range b i); [assumption | lia])
                (zeros (smem / 4))
                ltac:(rewrite length_zeros; lia))
      as (s' & Hblock & Hlp' & Hlm' & Hpar' & Hprest' & Hmem' & Hmrest').
    assert (Hk : kernel_block k gradient lr beta D W b
                   {| parameter := p; mem := m; shared := zeros (smem / 4) |}
                 = Some s').
    { rewrite <- Hblock. subst n h. destruct k; reflexivity. }
    rewrite Hk. cbn [mbind option_bind].
    eexists. split; [reflexivity |]. cbn [fst snd].
    split; [congruence |]. split; [congruence |].
    split; [| split; [| split]].
    + intros b' d Hb' Hd.
      destruct (Z.eq_dec b' b) as [-> | Hne].
      * destruct (Hpar' d Hd) as (x & gd & old & H1 & H2 & H3 & H4).
        exists x, gd, old.
        rewrite <- Hprest by lia.
        rewrite <- (Hh d Hd).
        rewrite <- Hmrest
          by (destruct (slot_range b d); [rewrite Hh by exact Hd; lia | lia]).
        repeat split; assumption.
      * destruct (Hpar b' d ltac:(lia) Hd) as (x & gd & old & H1 & H2 & H3 & H4).
        exists x, gd, old. repeat split; try assumption.
        rewrite Hprest'; [exact H4 |].
        pose proof (row_before b' b D d ltac:(lia) Hd). lia.
    + intros i Hi. rewrite Hprest' by nia. apply Hprest. nia.
    + intros b' j Hb' Hj.
      destruct (Z.eq_dec b' b) as [-> | Hne].
      * destruct (Hmem' j Hj) as (old & H1 & H2).
        exists old. rewrite <- Hmrest by lia.
        rewrite <- (bucket_sum_ext gradient (b * D) h)
          by (intros; apply Hh; lia).
        split; assumption.
      * destruct (Hmem b' j ltac:(lia) Hj) as (old & H1 & H2).
        exists old. split; [exact H1 |].
        rewrite Hmrest'; [exact H2 |].
        pose proof (row_before b' b n j ltac:(lia) Hj). lia.
    + intros i Hi. rewrite Hmrest' by nia. apply Hmrest. nia.
  - exists p', m'. cbn [fst snd] in *.
    rewrite Z2Nat.id in Hpar, Hmem by lia.
    repeat split; assumption.
Qed.

End Kernel.

(** ** [DenseCMS.update] *)

Section DenseCmsProperties.
Import Int32 Tensor DenseCms.

Lemma initialize_fields (c : DenseCMS) :
  N (initialize c) = N c ∧ D (initialize c) = D c
  ∧ range (initialize c) = range c ∧ cms (initialize c) = cms c
  ∧ blk_size (initialize c) = blk_size c.
Proof. unfold initialize. destruct (kernel c); repeat split. Qed.

Lemma initialize_kernel (c : DenseCMS) :
  kernel (initialize c)
  = Some (match kernel c with
          | Some k => k
          | None => if D c =? range c then dense_update else dense_cms_update
          end).
Proof.
  unfold initialize. destruct (kernel c) eqn:E; [exact E | reflexivity].
Qed.

Lemma slots_hashed (D W : Z) : slots dense_cms_update D W = W.
Proof. reflexivity. Qed.

Lemma slots_plain (D W : Z) : slots dense_update D W = D.
Proof. reflexivity. Qed.

Lemma slot_hashed (D W b d : Z) :
  slot dense_cms_update D W b d = hash (b * D + d) W 994443 609478.
Proof. reflexivity. Qed.

(** One [update] with whichever kernel [initialize] settles on. *)
Lemma update_spec (c : DenseCMS) (k : kernel_name) (p g : list R)
    (lr beta : R) :
  kernel (initialize c) = Some k →
  0 <= N c → 0 <= D c → 0 < range c →
  slots k (D c) (range c) <= range c →
  N c * D c <= 2 ^ 31 → N c * range c <= 2 ^ 31 →
  Z.of_nat (length p) = N c * D c →
  Z.of_nat (length g) = N c * D c →
  Z.of_nat (length (cms c)) = N c * range c →
  ∃ c' p',
    update c p g lr beta = Some (c', p')
    ∧ N c' = N c ∧ D c' = D c ∧ range c' = range c ∧ kernel c' = Some k
    ∧ length p' = length p
    ∧ length (cms c') = length (cms c)
    ∧ (∀ b d, 0 <= b < N c → 0 <= d < D c →
          ∃ x gd old,
            ld p (b * D c + d) = Some x
            ∧ ld g (b * D c + d) = Some gd
            ∧ ld (cms c)
                (b * slots k (D c) (range c) + slot k (D c) (range c) b d)
              = Some old
            ∧ ld p' (b * D c + d)
              = Some (x + lr * gd
                          * rsqrtf (adaptive beta old (gd ^ 2) + 1e-10))%R)
    ∧ (∀ b j, 0 <= b < N c → 0 <= j < slots k (D c) (range c) →
          ∃ old,
            ld (cms c) (b * slots k (D c) (range c) + j) = Some old
            ∧ ld (cms c') (b * slots k (D c) (range c) + j)
              = Some (old + (1 - beta)
                            * (bucket_sum g (b * D c) (slot k (D c) (range c) b)
                                 (Z.to_nat (D c)) j - old))%R).
Proof.
  intros Hk HN HD HW Hslots HpI HmI Hp Hg Hm.
  destruct (initialize_fields c) as (EN & ED & ER & EC & _).
  assert (Hn : 0 <= slots k (D c) (range c)).
  { destruct k; [rewrite slots_plain | rewrite slots_hashed]; lia. }
  assert (Hmn : N c * slots k (D c) (range c) <= N c * range c) by nia.
  assert (Hsm : 8 * range c / 4 = 2 * range c).
  { replace (8 * range c) with (2 * range c * 4) by lia.
    apply Z.div_mul. lia. }
  destruct (run_kernel_spec k g lr beta (N c) (D c) (range c)
              (8 * range c) p (cms c) HN HD Hn
              ltac:(intros _; exact HW) ltac:(lia) ltac:(lia) ltac:(lia)
              HpI ltac:(lia) ltac:(rewrite Hsm; lia))
    as (p' & m' & Hrun & Hlp & Hlm & Hpar & Hmem).
  unfold update. cbv zeta. rewrite Hk. cbn [mbind option_bind].
  rewrite EN, ED, ER, EC, Hrun. cbn [mbind option_bind].
  eexists _, _. split; [reflexivity |]. cbn [N D range kernel cms].
  repeat split; assumption.
Qed.

(** The one round of a block of two coordinates run by 32 lanes: its two
    indices, in either order of landing. *)
Lemma schedule_32_2 (rounds : list (list Z)) :
  schedule 32 2 rounds → rounds = [[0; 1]] ∨ rounds = [[1; 0]].
Proof.
  intros [Hlen Hperm].
  change ((2 + 32 - 1) / 32) with 1 in Hlen.
  destruct rounds as [| order [| ? ?]]; cbn [length] in Hlen; try lia.
  specialize (Hperm 0%nat order eq_refl).
  change (round_indices 32 2 (Z.of_nat 0)) with [0; 1] in Hperm.
  apply Permutation_sym, Permutation_length_2_inv in Hperm as [-> | ->];
    [left | right]; reflexivity.
Qed.

(** C2 (the input on which the code departs from it).
    [DenseCMS(N = 1, D = 2)] has one bucket per row and runs the hashed
    kernel, so both coordinates of the row share bucket [0].  With the
    gradient [[1; 2]] the bucket should end at
    [beta * 0 + (1 - beta) * (1^2 + 2^2)].  The two lanes run line 66
    together: each loads [acc[0] = 0] and stores its own [g^2]; whichever
    store lands last, the bucket ends at [(1 - beta) * g^2] for that one
    coordinate, and the other square is lost. *)
Theorem hashed_kernel_loses_colliding_adds (rounds : list (list Z)) :
  schedule 32 2 rounds →
  let c := init 1 2 (1 # 5) in
  blk_size c = 32 ∧ range c = 1 ∧ cms c = [0%R]
  ∧ kernel (initialize c) = Some dense_cms_update
  ∧ ∃ s' w,
      dense_cms_update_warp [1; 2]%R 1 (1 / 2) (D c) (range c) 0 rounds
        {| parameter := [0; 0]%R; mem := cms c;
           shared := zeros (8 * range c / 4) |} = Some s'
      ∧ (w = 1 ∨ w = 2)%R
      ∧ mem s' = [(0 + (1 - 1 / 2) * (0 + w ^ 2 - 0))%R]
      ∧ mem s' ≠ [(1 / 2 * 0 + (1 - 1 / 2) * (1 ^ 2 + 2 ^ 2))%R].
Proof.
  intros Hs. cbv zeta.
  split; [reflexivity |]. split; [reflexivity |]. split; [reflexivity |].
  split; [reflexivity |].
  assert (Hne : ∀ w : R, (w = 1 ∨ w = 2)%R →
            [(0 + (1 - 1 / 2) * (0 + w ^ 2 - 0))%R]
            ≠ [(1 / 2 * 0 + (1 - 1 / 2) * (1 ^ 2 + 2 ^ 2))%R]).
  { intros w Hw H. injection H as H. destruct Hw as [-> | ->]; lra. }
  destruct (schedule_32_2 rounds Hs) as [-> | ->].
  - eexists _, 2%R. split; [vm_compute; reflexivity |].
    split; [right; reflexivity |].
    split; [vm_compute; reflexivity |].
    intros H. apply (Hne 2%R (or_intror eq_refl)). rewrite <- H.
    vm_compute. reflexivity.
  - eexists _, 1%R. split; [vm_compute; reflexivity |].
    split; [left; reflexivity |].
    split; [vm_compute; reflexivity |].
    intros H. apply (Hne 1%R (or_introl eq_refl)). rewrite <- H.
    vm_compute. reflexivity.
Qed.

Lemma hashed_kernel_loses_colliding_adds_witness :
  ∃ s' w,
    dense_cms_update_warp [1; 2]%R 1 (1 / 2) 2 1 0 [[0; 1]]
      {| parameter := [0; 0]%R; mem := [0%R]; shared := zeros 2 |}
    = Some s'
    ∧ (w = 1 ∨ w = 2)%R
    ∧ mem s' = [(0 + (1 - 1 / 2) * (0 + w ^ 2 - 0))%R]
    ∧ mem s' ≠ [(1 / 2 * 0 + (1 - 1 / 2) * (1 ^ 2 + 2 ^ 2))%R].
Proof.
  assert (Hs : schedule 32 2 [[0; 1]]).
  { split; [reflexivity |]. intros [| r] order H; [| discriminate H].
    injection H as <-. reflexivity. }
  pose proof (hashed_kernel_loses_colliding_adds [[0; 1]] Hs) as H.
  cbv zeta in H. destruct H as (_ & _ & _ & _ & H). exact H.
Defined.

Lemma bucket_sum_plain_zero (g : list R) (off D W b : Z) (c : nat) (j : Z) :
  Z.of_nat c <= j →
  bucket_sum g off (slot dense_update D W b) c j = 0%R.
Proof.
  induction c as [| c IH]; intros Hj; [reflexivity |].
  cbn [bucket_sum slot]. rewrite IH by lia.
  destruct (Z.eqb_spec (Z.of_nat c) j); [lia | reflexivity].
Qed.

Lemma bucket_sum_plain (g : list R) (off D W b : Z) (c : nat) (j : Z)
    (gj : R) :
  0 <= j < Z.of_nat c → ld g (off + j) = Some gj →
  bucket_sum g off (slot dense_update D W b) c j = (gj ^ 2)%R.
Proof.
  induction c as [| c IH]; intros Hj Hg; [lia |].
  cbn [bucket_sum slot].
  destruct (Z.eqb_spec (Z.of_nat c) j) as [<- | Hne].
  - rewrite bucket_sum_plain_zero by lia. rewrite Hg.
    cbn [default from_option]. unfold Datatypes.id. lra.
  - apply IH; [lia | exact Hg].
Qed.

(** One [update] on the kernel without hashing: the per-coordinate
    recurrence. *)
Lemma plain_update_step (c : DenseCMS) (p g : list R) (lr beta : R) :
  kernel (initialize c) = Some dense_update →
  D c = range c → 0 <= N c → 0 < D c → N c * D c <= 2 ^ 31 →
  Z.of_nat (length p) = N c * D c →
  Z.of_nat (length g) = N c * D c →
  Z.of_nat (length (cms c)) = N c * D c →
  ∃ c' p',
    update c p g lr beta = Some (c', p')
    ∧ N c' = N c ∧ D c' = D c ∧ range c' = range c
    ∧ kernel c' = Some dense_update
    ∧ length p' = length p
    ∧ length (cms c') = length (cms c)
    ∧ (∀ b d, 0 <= b < N c → 0 <= d < D c →
          ∃ old gd v,
            ld (cms c) (b * D c + d) = Some old
            ∧ ld g (b * D c + d) = Some gd
            ∧ ld (cms c') (b * D c + d) = Some v
            ∧ v = (beta * old + (1 - beta) * gd ^ 2)%R).
Proof.
  intros Hk HDW HN HD HpI Hp Hg Hm.
  destruct (update_spec c dense_update p g lr beta Hk HN ltac:(lia)
              ltac:(lia) ltac:(rewrite slots_plain; lia) HpI
              ltac:(rewrite <- HDW; exact HpI)
              Hp Hg ltac:(rewrite <- HDW; exact Hm))
    as (c' & p' & Hup & EN & ED & ER & EK & Hlp & Hlm & Hpar & Hmem).
  exists c', p'. repeat (split; [assumption |]).
  intros b d Hb Hd.
  destruct (Hpar b d Hb Hd) as (_ & gd & _ & _ & Hgd & _).
  destruct (Hmem b d Hb ltac:(rewrite slots_plain; lia))
    as (old & Hold & Hnew).
  rewrite slots_plain in Hold, Hnew.
  rewrite (bucket_sum_plain g (b * D c) (D c) (range c) b _ d gd) in Hnew
    by (try lia; exact Hgd).
  eexists old, gd, _. split; [exact Hold |]. split; [exact Hgd |].
  split; [exact Hnew |]. lra.
Qed.

(** C5.  A compressor with [W == D] is routed to [dense_update], and two
    updates with the same gradient leave at every coordinate the value
    [beta * v1 + (1 - beta) * g^2], [v1] being the value after the first
    update. *)
Theorem plain_kernel_two_steps (c : DenseCMS) (p g : list R) (lr beta : R) :
  kernel c = None → D c = range c →
  0 <= N c → 0 < D c → N c * D c <= 2 ^ 31 →
  Z.of_nat (length p) = N c * D c →
  Z.of_nat (length g) = N c * D c →
  Z.of_nat (length (cms c)) = N c * D c →
  ∃ c1 p1 c2 p2,
    update c p g lr beta = Some (c1, p1)
    ∧ kernel c1 = Some dense_update
    ∧ update c1 p1 g lr beta = Some (c2, p2)
    ∧ kernel c2 = Some dense_update
    ∧ (∀ b d, 0 <= b < N c → 0 <= d < D c →
          ∃ v1 gd v2,
            ld (cms c1) (b * D c + d) = Some v1
            ∧ ld g (b * D c + d) = Some gd
            ∧ ld (cms c2) (b * D c + d) = Some v2
            ∧ v2 = (beta * v1 + (1 - beta) * gd ^ 2)%R).
Proof.
  intros Hk HDW HN HD HpI Hp Hg Hm.
  assert (Hk1 : kernel (initialize c) = Some dense_update).
  { rewrite initialize_kernel, Hk, HDW, Z.eqb_refl. reflexivity. }
  destruct (plain_update_step c p g lr beta Hk1 HDW HN HD HpI Hp Hg Hm)
    as (c1 & p1 & Hup1 & EN & ED & ER & EK & Hlp & Hlm & _).
  assert (Hk2 : kernel (initialize c1) = Some dense_update).
  { rewrite initialize_kernel, EK. reflexivity. }
  destruct (plain_update_step c1 p1 g lr beta Hk2 ltac:(congruence)
              ltac:(lia) ltac:(lia) ltac:(rewrite EN, ED; exact HpI)
              ltac:(rewrite EN, ED; lia) ltac:(rewrite EN, ED; exact Hg)
              ltac:(rewrite EN, ED; lia))
    as (c2 & p2 & Hup2 & _ & _ & _ & EK2 & _ & _ & Hstep).
  exists c1, p1, c2, p2. repeat (split; [assumption |]).
  intros b d Hb Hd. rewrite EN, ED in Hstep. apply Hstep; assumption.
Qed.

Lemma plain_kernel_two_steps_witness :
  let c := init 2 3 1 in
  let p := replicate 6 0%R in
  let g := replicate 6 2%R in
  let lr := 1%R in
  let beta := (9 / 10)%R in
  ∃ c1 p1 c2 p2,
    update c p g lr beta = Some (c1, p1)
    ∧ kernel c1 = Some dense_update
    ∧ update c1 p1 g lr beta = Some (c2, p2)
    ∧ kernel c2 = Some dense_update
    ∧ (∀ b d, 0 <= b < N c → 0 <= d < D c →
          ∃ v1 gd v2,
            ld (cms c1) (b * D c + d) = Some v1
            ∧ ld g (b * D c + d) = Some gd
            ∧ ld (cms c2) (b * D c + d) = Some v2
            ∧ v2 = (beta * v1 + (1 - beta) * gd ^ 2)%R).
Proof.
  cbv zeta.
  apply (plain_kernel_two_steps (init 2 3 1) (replicate 6 0%R)
           (replicate 6 2%R) 1%R (9 / 10)%R);
    first [reflexivity | vm_compute; first [reflexivity | discriminate]].
Defined.

End DenseCmsProperties.

(** ** The denominators of the three update paths *)

Section Denominators.
Import AdamError.
Context (api : sketch_api).

(** C9, as amended.  With [eps > 0]: the dense step divides [exp_avg],
    entry by entry, by [sqrt second + eps], [second] being
    [max_exp_avg_sq] under [amsgrad] and [exp_avg_sq] otherwise; the sparse
    step divides the answer of the first sketch, entry by entry, by
    [sqrt est + eps], [est] being the answer of the second sketch; every
    one of these denominators is at least [eps] and positive.  The kernels
    of the dense hash compressor move a coordinate by
    [lr * g / sqrt (beta * old + (1 - beta) * g^2 + 1e-10)], [old] being
    the staged value of its slot; the argument of the root is at least
    [1e-10] when [0 <= beta <= 1] and [old] is not negative. *)
Theorem positive_eps_positive_denominators (g : group)
    (p grad : list R) (state : option D.state) (st' : D.state)
    (p' : list R) (self : Adam) (sp : list (list R)) (sgrad : sparse_tensor)
    (sstate : option (S.state api))
    (r : Adam * S.state api * list (list R)) (beta old gr : R) :
  (0 < eps g)%Q →
  dense p grad g state = Some (st', p') →
  sparse api self sp sgrad g sstate = Some r →
  (0 <= beta <= 1)%R → (0 <= old)%R →
  (∃ second,
      (if amsgrad g then D.max_exp_avg_sq st' = Some second
       else second = D.exp_avg_sq st')
      ∧ p' = zip_with (λ x u, x + - step_size g (D.step st') * u)%R p
               (zip_with Rdiv (D.exp_avg st')
                  ((λ x, sqrt x + Q2R (eps g))%R <$> second))
      ∧ Forall (λ d, Q2R (eps g) <= d ∧ 0 < d)%R
          ((λ x, sqrt x + Q2R (eps g))%R <$> second))
  ∧ (let st := sparse_state api sp sgrad sstate in
     let sg := sparse_grad api sp sgrad g in
     let step := S (S.step st) in
     let numer :=
       (CountSketch_update api (S.exp_avg st) (indices sg) (values sg)
          (size sg) (Q2R (betas g).1)).2 in
     let est :=
       (CountMinSketch_update api
          (scheduled_clean api step (S.exp_avg_sq st)) (indices sg)
          ((λ row : list R, (λ x, x ^ 2)%R <$> row) <$> values sg)
          (size sg) (Q2R (betas g).2)).2 in
     let denom :=
       (λ row : list R, (λ x, sqrt x + Q2R (eps g))%R <$> row) <$> est in
     S.step r.1.2 = step
     ∧ add_sparse sp (indices sg)
         ((λ row : list R, (λ u, - step_size g step * u)%R <$> row)
            <$> zip_with (zip_with Rdiv) numer denom) = Some r.2
     ∧ Forall (Forall (λ d, Q2R (eps g) <= d ∧ 0 < d)%R) denom)
  ∧ (∀ gradient lr offset n index hash_idx s s',
       DenseCms.adapt_step gradient lr beta offset n index hash_idx s
       = Some s' →
       ∃ x gd o,
         Tensor.ld (DenseCms.parameter s) (Int32.wrap32 (offset + index))
         = Some x
         ∧ Tensor.ld gradient (Int32.wrap32 (offset + index)) = Some gd
         ∧ Tensor.ld (DenseCms.shared s) hash_idx = Some o
         ∧ Tensor.ld (DenseCms.parameter s')
             (Int32.wrap32 (offset + index))
           = Some (x + lr * gd
                       * / sqrt (beta * o + (1 - beta) * gd ^ 2 + 1e-10))%R)
  ∧ (1e-10 <= beta * old + (1 - beta) * gr ^ 2 + 1e-10
     ∧ 0 < sqrt (beta * old + (1 - beta) * gr ^ 2 + 1e-10))%R.
Proof.
  intros Heps Hd Hs Hbeta Hold.
  assert (He : (0 < Q2R (eps g))%R).
  { rewrite <- RMicromega.Q2R_0. apply Qlt_Rlt, Heps. }
  assert (Hden : ∀ x, (Q2R (eps g) <= sqrt x + Q2R (eps g)
                       ∧ 0 < sqrt x + Q2R (eps g))%R).
  { intros x. pose proof (sqrt_pos x). lra. }
  split; [| split; [| split]].
  - unfold dense in Hd. cbv zeta in Hd.
    destruct (amsgrad g);
      [destruct (D.max_exp_avg_sq (dense_state p g state)) as [m |];
       [| discriminate Hd] |];
      cbn [mbind option_bind] in Hd;
      inversion Hd; subst; clear Hd;
      cbn [D.step D.exp_avg D.max_exp_avg_sq D.exp_avg_sq];
      eexists; (split; [reflexivity |]);
      (split; [reflexivity |]);
      apply Forall_fmap, Forall_forall; intros x _; apply Hden.
  - apply sparse_Some in Hs. cbv zeta in Hs.
    destruct Hs as (Hstep & _ & _ & Hp & _).
    cbv zeta. split; [exact Hstep |]. split; [exact Hp |].
    apply Forall_fmap, Forall_forall. intros row _.
    apply Forall_fmap, Forall_forall. intros x _. apply Hden.
  - intros gradient lr offset n index hash_idx s s' H.
    unfold DenseCms.adapt_step in H. cbv zeta in H.
    bind_inv H. bind_inv H. bind_inv H. bind_inv H. bind_inv H.
    injection H as <-. cbn [DenseCms.parameter].
    apply add_at_spec in E2 as (_ & (x & Hx & Hx') & _).
    rewrite E in Hx. injection Hx as <-.
    eexists _, _, _. split; [reflexivity |]. split; [reflexivity |].
    split; [reflexivity |]. exact Hx'.
  - assert (0 <= beta * old)%R by (apply Rmult_le_pos; lra).
    assert (0 <= (1 - beta) * gr ^ 2)%R.
    { apply Rmult_le_pos; [lra | apply pow2_ge_0]. }
    split; [lra |]. apply sqrt_lt_R0. lra.
Qed.

End Denominators.

Section DenominatorsRun.
Import AdamError.

Lemma positive_eps_positive_denominators_witness :
  ∃ st' p' r second,
    dense [1%R] [2%R] default_group None = Some (st', p')
    ∧ sparse probe_api default_adam [[0]]%R
        {| indices := [0]; values := [[2]]%R; size := (1, 1) |}
        default_group None = Some r
    ∧ second = D.exp_avg_sq st'
    ∧ p' = zip_with
             (λ x u, x + - step_size default_group (D.step st') * u)%R
             [1%R]
             (zip_with Rdiv (D.exp_avg st')
                ((λ x, sqrt x + Q2R (eps default_group))%R <$> second))
    ∧ Forall (λ d, Q2R (eps default_group) <= d ∧ 0 < d)%R
        ((λ x, sqrt x + Q2R (eps default_group))%R <$> second)
    ∧ S.step r.1.2 = 1%nat
    ∧ (0 < sqrt (9 / 10 * 0 + (1 - 9 / 10) * 2 ^ 2 + 1e-10))%R.
Proof.
  destruct (positive_eps_positive_denominators probe_api default_group
              [1%R] [2%R] None _ _ default_adam [[0]]%R
              {| indices := [0]; values := [[2]]%R; size := (1, 1) |}
              None _ (9 / 10)%R 0%R 2%R
              eq_refl eq_refl eq_refl
              ltac:(lra) ltac:(lra))
    as ((second & Hsec & Hp & Hd) & Hs & _ & (_ & Hk)).
  cbv zeta in Hs. destruct Hs as (Hstep & _ & _).
  eexists _, _, _, second.
  split; [reflexivity |]. split; [reflexivity |].
  repeat split; assumption.
Defined.

End DenominatorsRun.

(** ** The fused update-retrieve of the Count-Min sketch *)

Section CmsStream.
Import Int32 Tensor Cms.

Variables (N D : Z).
Hypothesis HN : 0 < N.
Hypothesis HD : 0 < D.
Hypothesis Hsz : 3 * (N * D) <= 2 ^ 31.

Local Abbreviation W := (N * D).

Lemma bucket_range (k idx : Z) : 0 <= bucket N k idx < N.
Proof using All. unfold bucket. apply hash_bucket. exact HN. Qed.

Lemma cell_flat (k t idx : Z) :
  0 <= idx < 3 → 0 <= t < D →
  cell N W D k t idx = idx * W + bucket N k idx * D + t
  ∧ idx * W <= cell N W D k t idx < idx * W + W
  ∧ 0 <= cell N W D k t idx < 3 * W.
Proof using All.
  intros Hi Ht. pose proof (bucket_range k idx) as Hb.
  assert (Hlt : bucket N k idx * D + t < W) by nia.
  assert (H0 : 0 <= bucket N k idx * D) by nia.
  assert (Hw : idx * W + W <= 3 * W) by nia.
  assert (Hiw : 0 <= idx * W) by nia.
  unfold cell. rewrite wrap32_id by lia. lia.
Qed.

Lemma cell_inj (k t idx k' t' idx' : Z) :
  0 <= idx < 3 → 0 <= idx' < 3 → 0 <= t < D → 0 <= t' < D →
  cell N W D k t idx = cell N W D k' t' idx' →
  idx = idx' ∧ bucket N k idx = bucket N k' idx' ∧ t = t'.
Proof using All.
  intros Hi Hi' Ht Ht' Hc.
  destruct (cell_flat k t idx Hi Ht) as (E1 & B1 & _).
  destruct (cell_flat k' t' idx' Hi' Ht') as (E2 & B2 & _).
  assert (HW : 0 < W) by nia.
  assert (Hidx : idx = idx').
  { rewrite Hc in B1.
    assert (idx = 0 ∨ idx = 1 ∨ idx = 2) as [-> | [-> | ->]] by lia;
      assert (idx' = 0 ∨ idx' = 1 ∨ idx' = 2) as [-> | [-> | ->]] by lia;
      try reflexivity; exfalso; lia. }
  subst idx'. rewrite E1, E2 in Hc.
  pose proof (bucket_range k idx) as Hb.
  pose proof (bucket_range k' idx) as Hb'.
  assert (Hbk : bucket N k idx = bucket N k' idx).
  { destruct (Z.lt_trichotomy (bucket N k idx) (bucket N k' idx))
      as [H | [H | H]]; [exfalso; nia | exact H | exfalso; nia]. }
  split; [reflexivity |]. split; [exact Hbk |].
  rewrite Hbk in Hc. lia.
Qed.

Lemma cms_row_spec (mem : list R) (k t idx : Z) (v : R) :
  Z.of_nat (length mem) = 3 * W → 0 <= idx < 3 → 0 <= t < D →
  ∃ old mem',
    ld mem (cell N W D k t idx) = Some old
    ∧ cms_row mem N W D k t v idx = Some (mem', (old + v)%R)
    ∧ length mem' = length mem
    ∧ ld mem' (cell N W D k t idx) = Some (old + v)%R
    ∧ ∀ j, j ≠ cell N W D k t idx → ld mem' j = ld mem j.
Proof using All.
  intros Hlen Hi Ht.
  destruct (cell_flat k t idx Hi Ht) as (_ & _ & Hc).
  destruct (ld_is_Some mem (cell N W D k t idx)) as [old Hold]; [lia |].
  destruct (add_at_is_Some mem _ old v Hold) as [mem' Hadd].
  pose proof (add_at_spec _ _ _ _ Hadd) as (Hl & (o & Ho & Hnew) & Hne).
  rewrite Hold in Ho. inversion Ho; subst o; clear Ho.
  exists old, mem'. split; [exact Hold |]. split.
  { unfold cms_row. cbv zeta. rewrite Hadd. cbn [mbind option_bind].
    rewrite Hnew. reflexivity. }
  repeat split; assumption.
Qed.

(** One fused call: the three cells of the key's lane grow by the value,
    nothing else changes, and the answer is the minimum of the three
    post-add values. *)
Lemma cms_update_retrieve_spec (mem : list R) (k t : Z) (v : R) :
  Z.of_nat (length mem) = 3 * W → 0 <= t < D →
  ∃ o0 o1 o2 mem',
    ld mem (cell N W D k t 0) = Some o0
    ∧ ld mem (cell N W D k t 1) = Some o1
    ∧ ld mem (cell N W D k t 2) = Some o2
    ∧ cms_update_retrieve mem N W D k t v
      = Some (mem', minimum (o0 + v) (o1 + v) (o2 + v))
    ∧ length mem' = length mem
    ∧ ld mem' (cell N W D k t 0) = Some (o0 + v)%R
    ∧ ld mem' (cell N W D k t 1) = Some (o1 + v)%R
    ∧ ld mem' (cell N W D k t 2) = Some (o2 + v)%R
    ∧ ∀ j, j ≠ cell N W D k t 0 → j ≠ cell N W D k t 1 →
           j ≠ cell N W D k t 2 → ld mem' j = ld mem j.
Proof using All.
  intros Hlen Ht.
  assert (Hdiff : ∀ i j, 0 <= i < 3 → 0 <= j < 3 → i ≠ j →
                         cell N W D k t i ≠ cell N W D k t j).
  { intros i j Hi Hj Hij E.
    destruct (cell_inj _ _ _ _ _ _ Hi Hj Ht Ht E) as [E' _]. lia. }
  pose proof (Hdiff 0 1 ltac:(lia) ltac:(lia) ltac:(lia)) as H01.
  pose proof (Hdiff 0 2 ltac:(lia) ltac:(lia) ltac:(lia)) as H02.
  pose proof (Hdiff 1 2 ltac:(lia) ltac:(lia) ltac:(lia)) as H12.
  destruct (cms_row_spec mem k t 0 v Hlen ltac:(lia) Ht)
    as (o0 & m1 & Ho0 & Hr0 & Hl1 & Hn0 & Hne0).
  destruct (cms_row_spec m1 k t 1 v ltac:(lia) ltac:(lia) Ht)
    as (o1 & m2 & Ho1 & Hr1 & Hl2 & Hn1 & Hne1).
  destruct (cms_row_spec m2 k t 2 v ltac:(lia) ltac:(lia) Ht)
    as (o2 & m3 & Ho2 & Hr2 & Hl3 & Hn2 & Hne2).
  rewrite Hne1, Hne0 in Ho2 by congruence.
  rewrite Hne0 in Ho1 by congruence.
  exists o0, o1, o2, m3.
  split; [exact Ho0 |]. split; [exact Ho1 |]. split; [exact Ho2 |].
  split.
  { unfold cms_update_retrieve.
    rewrite Hr0. cbn [mbind option_bind].
    rewrite Hr1. cbn [mbind option_bind].
    rewrite Hr2. reflexivity. }
  split; [congruence |].
  split; [rewrite Hne2, Hne1 by congruence; exact Hn0 |].
  split; [rewrite Hne2 by congruence; exact Hn1 |].
  split; [exact Hn2 |].
  intros j H0 H1 H2. rewrite Hne2, Hne1, Hne0 by assumption. reflexivity.
Qed.

Lemma exact_sum_app (l1 l2 : list (Z * Z * R)) (k t : Z) :
  exact_sum (l1 ++ l2) k t = (exact_sum l1 k t + exact_sum l2 k t)%R.
Proof.
  induction l1 as [| [[k' t'] v] l1 IH]; cbn [app exact_sum]; [lra |].
  destruct ((k' =? k) && (t' =? t)); rewrite IH; lra.
Qed.

Lemma exact_sum_last (pre : list (Z * Z * R)) (k t : Z) (v : R) (k' t' : Z) :
  exact_sum (pre ++ [(k, t, v)]) k' t'
  = (exact_sum pre k' t' + (if (k =? k') && (t =? t') then v else 0))%R.
Proof.
  rewrite exact_sum_app. cbn [exact_sum].
  destruct ((k =? k') && (t =? t')); lra.
Qed.

(** A call with a non-negative value keeps the invariant and answers at
    least the exact sum. *)
Lemma overestimates_step (mem : list R) (pre : list (Z * Z * R)) (k t : Z)
    (v : R) :
  Z.of_nat (length mem) = 3 * W → 0 <= t < D → (0 <= v)%R →
  overestimates mem N W D pre →
  ∃ mem' r,
    cms_update_retrieve mem N W D k t v = Some (mem', r)
    ∧ length mem' = length mem
    ∧ overestimates mem' N W D (pre ++ [(k, t, v)])
    ∧ (exact_sum (pre ++ [(k, t, v)]) k t <= r)%R.
Proof using All.
  intros Hlen Ht Hv Hinv.
  destruct (cms_update_retrieve_spec mem k t v Hlen Ht)
    as (o0 & o1 & o2 & mem' & Ho0 & Ho1 & Ho2 & Hrun & Hl & Hn0 & Hn1 & Hn2
        & Hne).
  exists mem', (minimum (o0 + v) (o1 + v) (o2 + v)).
  split; [exact Hrun |]. split; [exact Hl |]. split.
  - intros k' t' idx Hi Ht'. rewrite exact_sum_last.
    destruct (Hinv k' t' idx Hi Ht') as (x & Hx & Hle).
    set (c := cell N W D k' t' idx) in *.
    destruct (Z.eq_dec c (cell N W D k t 0)) as [E0 | E0];
      [| destruct (Z.eq_dec c (cell N W D k t 1)) as [E1 | E1];
         [| destruct (Z.eq_dec c (cell N W D k t 2)) as [E2 | E2]]].
    + rewrite E0 in Hx |- *. rewrite Ho0 in Hx. inversion Hx; subst x.
      eexists. split; [exact Hn0 |].
      destruct ((k =? k') && (t =? t')); lra.
    + rewrite E1 in Hx |- *. rewrite Ho1 in Hx. inversion Hx; subst x.
      eexists. split; [exact Hn1 |].
      destruct ((k =? k') && (t =? t')); lra.
    + rewrite E2 in Hx |- *. rewrite Ho2 in Hx. inversion Hx; subst x.
      eexists. split; [exact Hn2 |].
      destruct ((k =? k') && (t =? t')); lra.
    + exists x. split; [rewrite Hne by assumption; exact Hx |].
      destruct ((k =? k') && (t =? t')) eqn:Hsame; [| lra].
      apply andb_true_iff in Hsame as [Hk Hl'].
      apply Z.eqb_eq in Hk, Hl'. subst k' t'. subst c.
      exfalso.
      assert (idx = 0 ∨ idx = 1 ∨ idx = 2) as [-> | [-> | ->]] by lia;
        congruence.
  - rewrite exact_sum_last, !Z.eqb_refl. cbn [andb].
    destruct (Hinv k t 0 ltac:(lia) Ht) as (x0 & Hx0 & Hle0).
    destruct (Hinv k t 1 ltac:(lia) Ht) as (x1 & Hx1 & Hle1).
    destruct (Hinv k t 2 ltac:(lia) Ht) as (x2 & Hx2 & Hle2).
    rewrite Ho0 in Hx0. rewrite Ho1 in Hx1. rewrite Ho2 in Hx2.
    inversion Hx0; inversion Hx1; inversion Hx2; subst.
    unfold minimum. repeat apply Rmin_glb; lra.
Qed.

(** A call of the key and lane under watch keeps its cells exact and
    answers the exact sum. *)
Lemma exact_at_step_same (mem mem' : list R) (pre : list (Z * Z * R))
    (k t : Z) (v r : R) :
  Z.of_nat (length mem) = 3 * W → 0 <= t < D →
  exact_at mem N W D pre k t →
  cms_update_retrieve mem N W D k t v = Some (mem', r) →
  exact_at mem' N W D (pre ++ [(k, t, v)]) k t
  ∧ r = exact_sum (pre ++ [(k, t, v)]) k t.
Proof using All.
  intros Hlen Ht Hinv Hrun.
  destruct (cms_update_retrieve_spec mem k t v Hlen Ht)
    as (o0 & o1 & o2 & m & Ho0 & Ho1 & Ho2 & Hrun' & Hl & Hn0 & Hn1 & Hn2
        & Hne).
  rewrite Hrun' in Hrun. inversion Hrun; subst; clear Hrun.
  destruct (Hinv 0 ltac:(lia)) as (x0 & Hx0 & E0).
  destruct (Hinv 1 ltac:(lia)) as (x1 & Hx1 & E1).
  destruct (Hinv 2 ltac:(lia)) as (x2 & Hx2 & E2).
  rewrite Ho0 in Hx0. rewrite Ho1 in Hx1. rewrite Ho2 in Hx2.
  injection Hx0 as Hx0. injection Hx1 as Hx1. injection Hx2 as Hx2.
  rewrite <- Hx0 in E0. rewrite <- Hx1 in E1. rewrite <- Hx2 in E2.
  clear Hx0 Hx1 Hx2 x0 x1 x2.
  assert (Hnew : exact_sum (pre ++ [(k, t, v)]) k t
                 = (exact_sum pre k t + v)%R).
  { rewrite exact_sum_last, !Z.eqb_refl. reflexivity. }
  split.
  - intros idx Hi. rewrite Hnew.
    assert (idx = 0 ∨ idx = 1 ∨ idx = 2) as [-> | [-> | ->]] by lia;
      eexists; (split; [eassumption | lra]).
  - rewrite Hnew, E0, E1, E2. unfold minimum.
    set (a := (exact_sum pre k t + v)%R).
    rewrite !(Rmin_left a a) by lra. reflexivity.
Qed.

(** A call that lands in none of the watched cells leaves them exact. *)
Lemma exact_at_step_other (mem mem' : list R) (pre : list (Z * Z * R))
    (k t k0 t0 : Z) (v0 r : R) :
  Z.of_nat (length mem) = 3 * W → 0 <= t < D → 0 <= t0 < D →
  exact_at mem N W D pre k t →
  (k0 = k → t0 ≠ t) →
  (k0 ≠ k → ¬ shares_bucket N k k0) →
  cms_update_retrieve mem N W D k0 t0 v0 = Some (mem', r) →
  exact_at mem' N W D (pre ++ [(k0, t0, v0)]) k t.
Proof using All.
  intros Hlen Ht Ht0 Hinv Hsame Hother Hrun.
  destruct (cms_update_retrieve_spec mem k0 t0 v0 Hlen Ht0)
    as (o0 & o1 & o2 & m & _ & _ & _ & Hrun' & _ & _ & _ & _ & Hne).
  rewrite Hrun' in Hrun. inversion Hrun; subst; clear Hrun.
  assert (Hapart : ∀ idx i, 0 <= idx < 3 → 0 <= i < 3 →
                            cell N W D k t idx ≠ cell N W D k0 t0 i).
  { intros idx i Hi Hi' E.
    destruct (cell_inj _ _ _ _ _ _ Hi Hi' Ht Ht0 E) as (-> & Hb & ->).
    destruct (Z.eq_dec k0 k) as [Hk | Hk]; [apply (Hsame Hk); reflexivity |].
    apply (Hother Hk). exists i. split; [exact Hi' | symmetry; exact Hb]. }
  assert (Hnew : exact_sum (pre ++ [(k0, t0, v0)]) k t = exact_sum pre k t).
  { rewrite exact_sum_last.
    destruct ((k0 =? k) && (t0 =? t)) eqn:E; [| lra].
    apply andb_true_iff in E as [Hk Hl]. apply Z.eqb_eq in Hk, Hl.
    exfalso. apply (Hsame Hk Hl). }
  intros idx Hi. rewrite Hnew.
  destruct (Hinv idx Hi) as (x & Hx & E). exists x. split; [| exact E].
  rewrite Hne by (apply Hapart; lia). exact Hx.
Qed.

Lemma cms_run_cons (mem : list R) (op : Z * Z * R)
    (ops : list (Z * Z * R)) :
  cms_run mem N W D (op :: ops)
  = ('(mem, r) ← cms_update_retrieve mem N W D op.1.1 op.1.2 op.2;
     '(mem, rs) ← cms_run mem N W D ops;
     Some (mem, r :: rs)).
Proof. reflexivity. Qed.

Lemma take_snoc_cons (pre : list (Z * Z * R)) (op : Z * Z * R)
    (ops : list (Z * Z * R)) (n : nat) :
  pre ++ take (S n) (op :: ops) = (pre ++ [op]) ++ take n ops.
Proof. rewrite <- app_assoc. reflexivity. Qed.

(** A stream of calls with non-negative values runs through and every
    answer is at least the exact sum up to its call. *)
Lemma cms_run_ge (ops : list (Z * Z * R)) :
  ∀ (mem : list R) (pre : list (Z * Z * R)),
    Z.of_nat (length mem) = 3 * W →
    overestimates mem N W D pre →
    Forall (λ op, 0 <= op.1.2 < D ∧ (0 <= op.2)%R) ops →
    ∃ mem' rs,
      cms_run mem N W D ops = Some (mem', rs)
      ∧ length rs = length ops
      ∧ ∀ n k t v r,
          ops !! n = Some (k, t, v) → rs !! n = Some r →
          (exact_sum (pre ++ take (S n) ops) k t <= r)%R.
Proof using All.
  induction ops as [| [[k0 t0] v0] ops IH]; intros mem pre Hlen Hinv Hok.
  - exists mem, []. split; [reflexivity |]. split; [reflexivity |].
    intros n k t v r H. rewrite lookup_nil in H. discriminate H.
  - inversion Hok as [| ? ? [Ht0 Hv0] Hok']; subst. cbn [fst snd] in Ht0, Hv0.
    destruct (overestimates_step mem pre k0 t0 v0 Hlen Ht0 Hv0 Hinv)
      as (m1 & r1 & Hstep & Hl1 & Hinv1 & Hr1).
    destruct (IH m1 (pre ++ [(k0, t0, v0)]) ltac:(lia) Hinv1 Hok')
      as (mem' & rs & Hrun & Hlrs & Hall).
    exists mem', (r1 :: rs). split.
    { rewrite cms_run_cons. cbn [fst snd]. rewrite Hstep.
      cbn [mbind option_bind]. rewrite Hrun. reflexivity. }
    split; [cbn [length]; congruence |].
    intros n k t v r Hop Hr. rewrite take_snoc_cons.
    destruct n as [| n]; cbn in Hop, Hr.
    + inversion Hop; inversion Hr; subst. rewrite take_0, app_nil_r.
      exact Hr1.
    + apply (Hall n k t v r Hop Hr).
Qed.

(** While no other key lands in a bucket of the watched key, the answers
    for it are the exact sums. *)
Lemma cms_run_exact (ops : list (Z * Z * R)) (k t : Z) :
  ∀ (mem mem' : list R) (pre : list (Z * Z * R)) (rs : list R),
    Z.of_nat (length mem) = 3 * W → 0 <= t < D →
    Forall (λ op, 0 <= op.1.2 < D ∧ (0 <= op.2)%R) ops →
    exact_at mem N W D pre k t →
    cms_run mem N W D ops = Some (mem', rs) →
    ∀ n v r,
      ops !! n = Some (k, t, v) → rs !! n = Some r →
      (∀ m k' t' v', (m < n)%nat → ops !! m = Some (k', t', v') →
                     k' ≠ k → ¬ shares_bucket N k k') →
      r = exact_sum (pre ++ take (S n) ops) k t.
Proof using All.
  induction ops as [| [[k0 t0] v0] ops IH];
    intros mem mem' pre rs Hlen Ht Hok Hinv Hrun n v r Hop Hr Hfree.
  - rewrite lookup_nil in Hop. discriminate Hop.
  - inversion Hok as [| ? ? [Ht0 Hv0] Hok']; subst. cbn [fst snd] in Ht0, Hv0.
    rewrite cms_run_cons in Hrun. cbn [fst snd] in Hrun.
    bind_inv Hrun. destruct p as [m1 r1]. bind_inv Hrun.
    destruct p as [m2 rs']. injection Hrun as Hm Hrs. subst mem' rs.
    rewrite take_snoc_cons.
    assert (Hl1 : Z.of_nat (length m1) = 3 * W).
    { destruct (cms_update_retrieve_spec mem k0 t0 v0 Hlen Ht0)
        as (? & ? & ? & ? & _ & _ & _ & Hrun' & Hl & _).
      rewrite Hrun' in E. inversion E; subst. lia. }
    destruct n as [| n]; cbn in Hop, Hr.
    + inversion Hop; inversion Hr; subst. rewrite take_0, app_nil_r.
      apply (exact_at_step_same mem m1 pre k t v r Hlen Ht Hinv E).
    + assert (Hinv1 : exact_at m1 N W D (pre ++ [(k0, t0, v0)]) k t).
      { destruct (Z.eq_dec k0 k) as [Hk | Hk];
          [destruct (Z.eq_dec t0 t) as [Hl | Hl] |].
        - subst k0 t0.
          apply (exact_at_step_same mem m1 pre k t v0 r1 Hlen Ht Hinv E).
        - apply (exact_at_step_other mem m1 pre k t k0 t0 v0 r1 Hlen Ht Ht0
                   Hinv); [intros _; exact Hl | intros Hne; congruence
                          | exact E].
        - apply (exact_at_step_other mem m1 pre k t k0 t0 v0 r1 Hlen Ht Ht0
                   Hinv); [intros Heq; congruence | | exact E].
          intros _. apply (Hfree 0%nat k0 t0 v0); [lia | reflexivity | exact Hk]. }
      apply (IH m1 m2 (pre ++ [(k0, t0, v0)]) rs' Hl1 Ht Hok' Hinv1 E0 n v r
               Hop Hr).
      intros m k' t' v' Hm Hop'. apply (Hfree (S m) k' t' v'); [lia | exact Hop'].
Qed.

(** X3.  On a fresh sketch of [N] buckets and [D] lanes, every answer of a
    stream of calls with non-negative values is at least the exact sum
    accumulated so far for its key and lane, and equal to it as long as no
    other key has landed in a bucket of that key. *)
Theorem cms_stream_overestimates (ops : list (Z * Z * R)) :
  Forall (λ op, 0 <= op.1.2 < D ∧ (0 <= op.2)%R) ops →
  ∃ mem' rs,
    cms_run (zeros (3 * N * D)) N W D ops = Some (mem', rs)
    ∧ length rs = length ops
    ∧ ∀ n k t v r,
        ops !! n = Some (k, t, v) → rs !! n = Some r →
        (exact_sum (take (S n) ops) k t <= r)%R
        ∧ ((∀ m k' t' v', (m < n)%nat → ops !! m = Some (k', t', v') →
                          k' ≠ k → ¬ shares_bucket N k k') →
           r = exact_sum (take (S n) ops) k t).
Proof using All.
  intros Hok.
  assert (Hpos : 0 <= 3 * N * D) by nia.
  assert (Hlen : Z.of_nat (length (zeros (3 * N * D))) = 3 * W).
  { rewrite length_zeros. lia. }
  assert (Hcell : ∀ k t idx, 0 <= idx < 3 → 0 <= t < D →
                    ld (zeros (3 * N * D)) (cell N W D k t idx) = Some 0%R).
  { intros k t idx Hi Ht. apply ld_zeros.
    destruct (cell_flat k t idx Hi Ht) as (_ & _ & Hc). lia. }
  destruct (cms_run_ge ops (zeros (3 * N * D)) [] Hlen) as
    (mem' & rs & Hrun & Hlrs & Hge); [| exact Hok |].
  { intros k t idx Hi Ht. exists 0%R.
    split; [apply Hcell; assumption | cbn; lra]. }
  exists mem', rs. split; [exact Hrun |]. split; [exact Hlrs |].
  intros n k t v r Hop Hr. split.
  - apply (Hge n k t v r Hop Hr).
  - intros Hfree.
    assert (Ht : 0 <= t < D).
    { rewrite Forall_forall in Hok.
      apply (Hok (k, t, v)). eapply list_elem_of_lookup_2, Hop. }
    apply (cms_run_exact ops k t (zeros (3 * N * D)) mem' [] rs Hlen Ht Hok)
      with (v := v); try assumption.
    intros idx Hi. exists 0%R. split; [apply Hcell; assumption | reflexivity].
Qed.

End CmsStream.

Section CmsStreamRun.
Import Int32 Tensor Cms.

Lemma cms_stream_overestimates_witness :
  let ops : list (Z * Z * R) := [(7, 0, 1%R); (7, 0, 2%R)] in
  ∃ mem' rs,
    cms_run (zeros (3 * 4 * 2)) 4 (4 * 2) 2 ops = Some (mem', rs)
    ∧ length rs = length ops
    ∧ ∀ n k t v r,
        ops !! n = Some (k, t, v) → rs !! n = Some r →
        (exact_sum (take (S n) ops) k t <= r)%R
        ∧ ((∀ m k' t' v', (m < n)%nat → ops !! m = Some (k', t', v') →
                          k' ≠ k → ¬ shares_bucket 4 k k') →
           r = exact_sum (take (S n) ops) k t).
Proof.
  cbv zeta.
  apply (cms_stream_overestimates 4 2 ltac:(lia) ltac:(lia) ltac:(lia)
           [(7, 0, 1%R); (7, 0, 2%R)]).
  repeat constructor; cbn; lra || lia.
Defined.

End CmsStreamRun.

(** ** The validation of [Adam.__init__] *)

Section AdamValidation.
Import AdamError.

Lemma Qle_bool_false (x y : Q) : Qle_bool x y = false ↔ (y < x)%Q.
Proof.
  split.
  - intros H. apply Qnot_le_lt. intros Hle.
    apply Qle_bool_iff in Hle. congruence.
  - intros H. destruct (Qle_bool x y) eqn:E; [| reflexivity].
    apply Qle_bool_iff in E. exfalso. exact (Qlt_not_le _ _ H E).
Qed.

(** X4.  [Adam.__init__] accepts its arguments exactly when [0 <= lr],
    [0 <= eps] and both betas lie in [[0, 1)]; the weight decay and the
    [amsgrad] flag are not looked at (a negative weight decay passes), and
    what is accepted is stored unchanged with the counter at 1. *)
Theorem init_accepts_iff (lr : Q) (betas : Q * Q) (eps weight_decay : Q)
    (amsgrad : bool) :
  let valid := ((0 <= lr)%Q ∧ (0 <= eps)%Q
                ∧ (0 <= betas.1)%Q ∧ (betas.1 < 1)%Q
                ∧ (0 <= betas.2)%Q ∧ (betas.2 < 1)%Q) in
  (init lr betas eps weight_decay amsgrad
   = Some (default_adam,
           {| lr := lr; betas := betas; eps := eps;
              weight_decay := weight_decay; amsgrad := amsgrad |})
   ↔ valid)
  ∧ (init lr betas eps weight_decay amsgrad = None ↔ ¬ valid).
Proof.
  cbv zeta. unfold init, default_adam.
  destruct (Qle_bool 0 lr) eqn:E1; cbn [negb].
  2: { apply Qle_bool_false in E1.
       split; split; try discriminate; try reflexivity.
       - intros (H & _). exfalso. exact (Qlt_not_le _ _ E1 H).
       - intros _ (H & _). exact (Qlt_not_le _ _ E1 H). }
  apply Qle_bool_iff in E1.
  destruct (Qle_bool 0 eps) eqn:E2; cbn [negb].
  2: { apply Qle_bool_false in E2.
       split; split; try discriminate; try reflexivity.
       - intros (_ & H & _). exfalso. exact (Qlt_not_le _ _ E2 H).
       - intros _ (_ & H & _). exact (Qlt_not_le _ _ E2 H). }
  apply Qle_bool_iff in E2.
  destruct (Qle_bool 0 betas.1) eqn:E3; cbn [negb andb].
  2: { apply Qle_bool_false in E3.
       split; split; try discriminate; try reflexivity.
       - intros (_ & _ & H & _). exfalso. exact (Qlt_not_le _ _ E3 H).
       - intros _ (_ & _ & H & _). exact (Qlt_not_le _ _ E3 H). }
  apply Qle_bool_iff in E3.
  destruct (Qle_bool 1 betas.1) eqn:E4; cbn [negb andb].
  { apply Qle_bool_iff in E4.
    split; split; try discriminate; try reflexivity.
    - intros (_ & _ & _ & H & _). exfalso. exact (Qlt_not_le _ _ H E4).
    - intros _ (_ & _ & _ & H & _). exact (Qlt_not_le _ _ H E4). }
  apply Qle_bool_false in E4.
  destruct (Qle_bool 0 betas.2) eqn:E5; cbn [negb andb].
  2: { apply Qle_bool_false in E5.
       split; split; try discriminate; try reflexivity.
       - intros (_ & _ & _ & _ & H & _). exfalso.
         exact (Qlt_not_le _ _ E5 H).
       - intros _ (_ & _ & _ & _ & H & _). exact (Qlt_not_le _ _ E5 H). }
  apply Qle_bool_iff in E5.
  destruct (Qle_bool 1 betas.2) eqn:E6; cbn [negb andb].
  { apply Qle_bool_iff in E6.
    split; split; try discriminate; try reflexivity.
    - intros (_ & _ & _ & _ & _ & H). exfalso. exact (Qlt_not_le _ _ H E6).
    - intros _ (_ & _ & _ & _ & _ & H). exact (Qlt_not_le _ _ H E6). }
  apply Qle_bool_false in E6.
  split; split; try discriminate; try reflexivity.
  - intros _. repeat split; assumption.
  - intros H. exfalso. apply H. repeat split; assumption.
Qed.

End AdamValidation.

(** ** The dense path of [Adam]: failure and the first step *)

Section DenseSteps.
Import AdamError.

(** What [Adam.__init__] has checked and stored when it returns. *)
Lemma init_Some (lr0 : Q) (betas0 : Q * Q) (eps0 wd : Q) (ams : bool)
    (a : Adam) (g : group) :
  init lr0 betas0 eps0 wd ams = Some (a, g) →
  a = default_adam
  ∧ g = {| lr := lr0; betas := betas0; eps := eps0; weight_decay := wd;
           amsgrad := ams |}
  ∧ (0 <= lr0)%Q ∧ (0 <= eps0)%Q
  ∧ (0 <= betas0.1)%Q ∧ (betas0.1 < 1)%Q
  ∧ (0 <= betas0.2)%Q ∧ (betas0.2 < 1)%Q.
Proof.
  unfold init.
  destruct (Qle_bool 0 lr0) eqn:E1; cbn [negb]; [| discriminate].
  destruct (Qle_bool 0 eps0) eqn:E2; cbn [negb]; [| discriminate].
  destruct (Qle_bool 0 betas0.1) eqn:E3; cbn [negb andb]; [| discriminate].
  destruct (Qle_bool 1 betas0.1) eqn:E4; cbn [negb andb]; [discriminate |].
  destruct (Qle_bool 0 betas0.2) eqn:E5; cbn [negb andb]; [| discriminate].
  destruct (Qle_bool 1 betas0.2) eqn:E6; cbn [negb andb]; [discriminate |].
  intros H. inversion H; subst; clear H.
  apply Qle_bool_iff in E1, E2, E3, E5. apply Qle_bool_false in E4, E6.
  repeat split; assumption.
Qed.

Lemma bias_correction_pos (b : R) (n : nat) :
  (0 <= b < 1)%R → (0 < 1 - b ^ S n)%R.
Proof.
  intros Hb.
  assert (H0 : (0 <= b ^ n)%R) by (apply pow_le; lra).
  assert (H1 : (b ^ n <= 1)%R).
  { rewrite <- (pow1 n). apply pow_incr. lra. }
  cbn [pow]. nra.
Qed.

(** X5.  For betas in [[0, 1)] (the range [Adam.__init__] accepts), the
    dense step fails in one way only: [amsgrad] is set for a parameter
    whose state was created without [max_exp_avg_sq] (the key is added at
    the first step, and only if [amsgrad] was set then).  Line 91 cannot
    raise: at every step both bias corrections are positive. *)
Theorem dense_fails_iff (p grad : list R) (g : group)
    (state : option D.state) :
  (0 <= (betas g).1)%Q → ((betas g).1 < 1)%Q →
  (0 <= (betas g).2)%Q → ((betas g).2 < 1)%Q →
  (dense p grad g state = None
   ↔ amsgrad g = true
     ∧ ∃ s, state = Some s ∧ D.max_exp_avg_sq s = None)
  ∧ ∀ n : nat,
      (0 < 1 - Q2R (betas g).1 ^ S n)%R
      ∧ (0 < 1 - Q2R (betas g).2 ^ S n)%R.
Proof.
  intros H1 H1' H2 H2'. split.
  - unfold dense. cbv zeta.
    destruct (amsgrad g) eqn:Ea.
    + destruct state as [s |]; cbn [dense_state].
      * destruct (D.max_exp_avg_sq s) as [m |] eqn:Em;
          cbn [mbind option_bind].
        -- split; [discriminate |]. intros (_ & s' & Hs & Hm).
           inversion Hs; subst. congruence.
        -- split; [| reflexivity]. intros _. split; [reflexivity |].
           exists s. split; [reflexivity | exact Em].
      * rewrite Ea. cbn [D.max_exp_avg_sq mbind option_bind].
        split; [discriminate |]. intros (_ & s' & Hs & _). discriminate Hs.
    + cbn [mbind option_bind]. split; [discriminate |].
      intros (H & _). discriminate H.
  - intros n.
    assert (R1 : (0 <= Q2R (betas g).1 < 1)%R).
    { split; [rewrite <- RMicromega.Q2R_0; apply Qle_Rle, H1
             | rewrite <- RMicromega.Q2R_1; apply Qlt_Rlt, H1']. }
    assert (R2 : (0 <= Q2R (betas g).2 < 1)%R).
    { split; [rewrite <- RMicromega.Q2R_0; apply Qle_Rle, H2
             | rewrite <- RMicromega.Q2R_1; apply Qlt_Rlt, H2']. }
    split; apply bias_correction_pos; assumption.
Qed.

Lemma dense_fails_iff_witness :
  (dense [1%R] [2%R] default_group None = None
   ↔ amsgrad default_group = true
     ∧ ∃ s, None = Some s ∧ D.max_exp_avg_sq s = None)
  ∧ ∀ n : nat,
      (0 < 1 - Q2R (betas default_group).1 ^ S n)%R
      ∧ (0 < 1 - Q2R (betas default_group).2 ^ S n)%R.
Proof.
  apply (dense_fails_iff [1%R] [2%R] default_group None);
    first [discriminate | reflexivity].
Defined.

(** The entries of the tensors of the first step. *)
Lemma lookup_zeros_like (p : list R) (i : nat) (x : R) :
  p !! i = Some x → zeros_like p !! i = Some 0%R.
Proof.
  intros H. unfold zeros_like. rewrite list_lookup_fmap, H. reflexivity.
Qed.

Lemma sqrt_scaled_square (c gi : R) :
  (0 <= c)%R → sqrt (0 * (1 - c) + c * gi * gi) = (sqrt c * Rabs gi)%R.
Proof.
  intros Hc.
  replace (0 * (1 - c) + c * gi * gi)%R with (c * Rsqr gi)%R
    by (unfold Rsqr; ring).
  rewrite sqrt_mult; [| exact Hc | apply Rle_0_sqr].
  rewrite sqrt_Rsqr_abs. reflexivity.
Qed.

Lemma ratio_bounded (lr0 c gi e : R) :
  (0 <= lr0)%R → (0 <= c)%R → (0 < e)%R →
  (Rabs (- (lr0 * (c * gi / (c * Rabs gi + e)))) <= lr0)%R.
Proof.
  intros Hlr Hc He.
  assert (Ha : (0 <= c * Rabs gi)%R).
  { apply Rmult_le_pos; [exact Hc | apply Rabs_pos]. }
  set (d := (c * Rabs gi + e)%R) in *.
  assert (Hd : (0 < d)%R) by (unfold d; lra).
  assert (Hi : (0 < / d)%R) by (apply Rinv_0_lt_compat, Hd).
  assert (Hid : (d * / d = 1)%R) by (apply Rinv_r; lra).
  assert (Hup : (c * gi <= d)%R).
  { pose proof (Rle_abs gi). unfold d. nra. }
  assert (Hlo : (- d <= c * gi)%R).
  { pose proof (Rle_abs (- gi)) as H. rewrite Rabs_Ropp in H.
    unfold d. nra. }
  assert (Hq1 : (c * gi / d <= 1)%R).
  { unfold Rdiv. rewrite <- Hid. apply Rmult_le_compat_r; lra. }
  assert (Hq2 : (-1 <= c * gi / d)%R).
  { unfold Rdiv. replace (-1)%R with (- d * / d)%R by lra.
    apply Rmult_le_compat_r; lra. }
  apply Rabs_le. split; nra.
Qed.

(** X6.  The first dense step of an optimizer [Adam.__init__] has accepted
    with no weight decay and a positive [eps]: with [c = sqrt (1 - beta2)],
    the entry [x] of the parameter whose gradient entry is [gi] becomes
    [x - lr * c * gi / (c * |gi| + eps)], with or without [amsgrad]; so no
    entry moves by more than [lr], and a zero gradient entry moves
    nothing. *)
Theorem dense_first_step_bounded (lr0 : Q) (betas0 : Q * Q) (eps0 : Q)
    (ams : bool) (a : Adam) (g : group) (p grad : list R) :
  init lr0 betas0 eps0 0 ams = Some (a, g) → (0 < eps0)%Q →
  ∃ st p',
    dense p grad g None = Some (st, p')
    ∧ D.step st = 1%nat
    ∧ ∀ i x gi, p !! i = Some x → grad !! i = Some gi →
        let c := sqrt (1 - Q2R betas0.2) in
        let d := (- (Q2R lr0 * (c * gi / (c * Rabs gi + Q2R eps0))))%R in
        p' !! i = Some (x + d)%R ∧ (Rabs d <= Q2R lr0)%R
        ∧ (gi = 0%R → d = 0%R).
Proof.
  intros Hinit Heps.
  apply init_Some in Hinit
    as (_ & -> & Hlr & _ & Hb1 & Hb1' & Hb2 & Hb2').
  assert (Rlr : (0 <= Q2R lr0)%R).
  { rewrite <- RMicromega.Q2R_0. apply Qle_Rle, Hlr. }
  assert (Re : (0 < Q2R eps0)%R).
  { rewrite <- RMicromega.Q2R_0. apply Qlt_Rlt, Heps. }
  assert (R1 : (Q2R betas0.1 < 1)%R).
  { rewrite <- RMicromega.Q2R_1. apply Qlt_Rlt, Hb1'. }
  assert (R2 : (Q2R betas0.2 < 1)%R).
  { rewrite <- RMicromega.Q2R_1. apply Qlt_Rlt, Hb2'. }
  set (b1 := Q2R betas0.1) in *. set (b2 := Q2R betas0.2) in *.
  assert (Hc : (0 <= 1 - b2)%R) by lra.
  assert (Hsq : ∀ i x gi, p !! i = Some x → grad !! i = Some gi →
            dense_exp_avg_sq
              {| lr := lr0; betas := betas0; eps := eps0; weight_decay := 0;
                 amsgrad := ams |} (zeros_like p) grad !! i
            = Some (0 * b2 + (1 - b2) * gi * gi)%R).
  { intros i x gi Hx Hg. unfold dense_exp_avg_sq. cbn [betas snd].
    rewrite lookup_zip_with, (lookup_zeros_like p i x Hx), Hg.
    reflexivity. }
  assert (Hnn : ∀ gi, (0 <= 0 * b2 + (1 - b2) * gi * gi)%R).
  { intros gi. pose proof (Rle_0_sqr gi) as H. unfold Rsqr in H. nra. }
  unfold dense. cbv zeta.
  cbn [dense_state amsgrad D.step D.exp_avg D.exp_avg_sq D.max_exp_avg_sq].
  unfold dense_grad. cbn [weight_decay]. change (Qeq_bool 0 0) with true.
  cbv iota.
  assert (Hden : ∀ second,
            (∀ i x gi, p !! i = Some x → grad !! i = Some gi →
               second !! i = Some (0 * b2 + (1 - b2) * gi * gi)%R) →
            ∀ i x gi, p !! i = Some x → grad !! i = Some gi →
              let c := sqrt (1 - b2) in
              let d := (- (Q2R lr0 * (c * gi / (c * Rabs gi + Q2R eps0))))%R in
              addcdiv p
                (- step_size
                     {| lr := lr0; betas := betas0; eps := eps0;
                        weight_decay := 0; amsgrad := ams |} 1)
                (dense_exp_avg
                   {| lr := lr0; betas := betas0; eps := eps0;
                      weight_decay := 0; amsgrad := ams |}
                   (zeros_like p) grad)
                (dense_denom
                   {| lr := lr0; betas := betas0; eps := eps0;
                      weight_decay := 0; amsgrad := ams |} second) !! i
              = Some (x + d)%R
              ∧ (Rabs d <= Q2R lr0)%R ∧ (gi = 0%R → d = 0%R)).
  { intros second Hsec i x gi Hx Hg. cbv zeta.
    split; [| split].
    - unfold addcdiv, dense_exp_avg, dense_denom, step_size.
      cbn [betas lr eps fst snd]. fold b1 b2.
      rewrite !lookup_zip_with, Hx, (lookup_zeros_like p i x Hx), Hg.
      rewrite list_lookup_fmap, (Hsec i x gi Hx Hg).
      cbn [mbind option_bind fmap option_fmap option_map].
      f_equal.
      replace (0 * b2 + (1 - b2) * gi * gi)%R
        with (0 * (1 - (1 - b2)) + (1 - b2) * gi * gi)%R by ring.
      rewrite (sqrt_scaled_square (1 - b2) gi Hc).
      rewrite !pow_1.
      assert (Hd : (sqrt (1 - b2) * Rabs gi + Q2R eps0 ≠ 0)%R).
      { pose proof (sqrt_pos (1 - b2)). pose proof (Rabs_pos gi).
        assert (0 <= sqrt (1 - b2) * Rabs gi)%R
          by (apply Rmult_le_pos; assumption).
        lra. }
      field. split; [exact Hd | lra].
    - apply ratio_bounded; [exact Rlr | apply sqrt_pos | exact Re].
    - intros ->. unfold Rdiv. ring. }
  destruct ams; cbn [mbind option_bind].
  - eexists _, _. split; [reflexivity |]. split; [reflexivity |].
    apply Hden. intros i x gi Hx Hg.
    rewrite lookup_zip_with, (lookup_zeros_like p i x Hx),
      (Hsq i x gi Hx Hg).
    cbn [mbind option_bind]. f_equal. apply Rmax_right, Hnn.
  - eexists _, _. split; [reflexivity |]. split; [reflexivity |].
    apply Hden. exact Hsq.
Qed.

Lemma dense_first_step_bounded_witness :
  ∃ st p',
    dense [1; 2]%R [3; 0]%R default_group None = Some (st, p')
    ∧ D.step st = 1%nat
    ∧ ∀ i x gi, [1; 2]%R !! i = Some x → [3; 0]%R !! i = Some gi →
        let c := sqrt (1 - Q2R (999 # 1000)) in
        let d := (- (Q2R (1 # 1000)
                     * (c * gi / (c * Rabs gi + Q2R (1 # 100000000)))))%R in
        p' !! i = Some (x + d)%R ∧ (Rabs d <= Q2R (1 # 1000))%R
        ∧ (gi = 0%R → d = 0%R).
Proof.
  apply (dense_first_step_bounded (1 # 1000) (9 # 10, 999 # 1000)
           (1 # 100000000) false default_adam default_group [1; 2]%R
           [3; 0]%R); reflexivity.
Defined.

End DenseSteps.

(** ** The sparse path of [Adam]: rows, shadows and the counter *)

Section SparseRows.
Import AdamError.

Lemma row_at_Some (t : list (list R)) (k : Z) (row : list R) :
  row_at t k = Some row → 0 <= k ∧ t !! Z.to_nat k = Some row.
Proof.
  unfold row_at. destruct (0 <=? k) eqn:E; [| discriminate].
  intros H. split; [lia | exact H].
Qed.

Lemma add_sparse_length (keys : list Z) :
  ∀ (t : list (list R)) (vals t' : list (list R)),
    add_sparse t keys vals = Some t' → length t' = length t.
Proof.
  induction keys as [| k keys IH]; intros t vals t' H.
  - cbn in H. inversion H. reflexivity.
  - destruct vals as [| v vals]; cbn [add_sparse] in H.
    + inversion H. reflexivity.
    + bind_inv H. apply IH in H. rewrite H, length_insert. reflexivity.
Qed.

Lemma add_sparse_frame (keys : list Z) :
  ∀ (t : list (list R)) (vals t' : list (list R)) (i : nat),
    add_sparse t keys vals = Some t' → Z.of_nat i ∉ keys →
    t' !! i = t !! i.
Proof.
  induction keys as [| k keys IH]; intros t vals t' i H Hi.
  - cbn in H. inversion H. reflexivity.
  - destruct vals as [| v vals]; cbn [add_sparse] in H.
    + inversion H. reflexivity.
    + bind_inv H. apply row_at_Some in E as [Hk _].
      apply not_elem_of_cons in Hi as [Hne Hi].
      rewrite (IH _ _ _ i H Hi).
      apply list_lookup_insert_ne. lia.
Qed.

Lemma add_sparse_at (keys : list Z) :
  ∀ (t : list (list R)) (vals t' : list (list R)) (n : nat) (k : Z)
    (v : list R),
    NoDup keys → add_sparse t keys vals = Some t' →
    keys !! n = Some k → vals !! n = Some v →
    ∃ row, 0 <= k ∧ t !! Z.to_nat k = Some row
           ∧ t' !! Z.to_nat k = Some (zip_with Rplus row v).
Proof.
  induction keys as [| k0 keys IH]; intros t vals t' n k v Hnd H Hk Hv.
  - rewrite lookup_nil in Hk. discriminate Hk.
  - destruct vals as [| v0 vals]; [rewrite lookup_nil in Hv; discriminate |].
    cbn [add_sparse] in H. bind_inv H.
    apply row_at_Some in E as [Hk0 Hrow].
    apply NoDup_cons in Hnd as [Hnotin Hnd].
    destruct n as [| n]; cbn in Hk, Hv.
    + inversion Hk; inversion Hv; subst. exists l.
      split; [exact Hk0 |]. split; [exact Hrow |].
      rewrite (add_sparse_frame _ _ _ _ (Z.to_nat k) H)
        by (rewrite Z2Nat.id by lia; exact Hnotin).
      apply list_lookup_insert_eq. apply lookup_lt_Some in Hrow. exact Hrow.
    + destruct (IH _ _ _ n k v Hnd H Hk Hv) as (row & Hk' & Hr & Hr').
      exists row. split; [exact Hk' |]. split; [| exact Hr'].
      rewrite list_lookup_insert_ne in Hr; [exact Hr |].
      intros Heq. apply Hnotin.
      replace k0 with k by lia. eapply list_elem_of_lookup_2, Hk.
Qed.

Lemma sparse_mask_at (t : list (list R)) (keys : list Z)
    (rows : list (list R)) (n : nat) (k : Z) :
  sparse_mask t keys = Some rows → keys !! n = Some k →
  ∃ row, rows !! n = Some row ∧ t !! Z.to_nat k = Some row.
Proof.
  unfold sparse_mask. intros H Hk. apply mapM_Some in H.
  destruct (Forall2_lookup_l _ _ _ _ _ H Hk) as (row & Hr & Hrow).
  exists row. split; [exact Hr |]. apply row_at_Some in Hrow as [_ Hrow].
  exact Hrow.
Qed.

(** Adding [(x - o) * (1 - beta)] to [o] is the moving average of the
    dense path. *)
Lemma shadow_first_moment (g : group) (o v : list R) :
  zip_with Rplus o
    (zip_with (λ x o, (x - o) * (1 - Q2R (betas g).1))%R v o)
  = dense_exp_avg g o v.
Proof.
  unfold dense_exp_avg. revert v.
  induction o as [| a o IH]; intros [| x v]; try reflexivity.
  cbn [zip_with]. rewrite IH. f_equal. ring.
Qed.

Lemma shadow_second_moment (g : group) (o v : list R) :
  zip_with Rplus o
    (zip_with (λ x o, (x ^ 2 - o) * (1 - Q2R (betas g).2))%R v o)
  = dense_exp_avg_sq g o v.
Proof.
  unfold dense_exp_avg_sq. revert v.
  induction o as [| a o IH]; intros [| x v]; try reflexivity.
  cbn [zip_with]. rewrite IH. f_equal. ring.
Qed.

Context (api : sketch_api).

Lemma sparse_grad_NoDup (p : list (list R)) (grad : sparse_tensor)
    (g : group) :
  NoDup (indices (sparse_grad api p grad g)).
Proof.
  unfold sparse_grad, coalesce. cbv zeta. cbn [indices].
  apply sorted_keys_NoDup, coalesce_entries_sorted.
Qed.

(** What a successful sparse step has done to the exact shadows and to the
    diagnostic fields, read off its text. *)
Lemma sparse_shadows (self : Adam) (p : list (list R))
    (grad : sparse_tensor) (g : group) (state : option (S.state api))
    (r : Adam * S.state api * list (list R)) :
  sparse api self p grad g state = Some r →
  let st := sparse_state api p grad state in
  let gr := sparse_grad api p grad g in
  (∃ old,
      sparse_mask (S.exp_avg_base st) (indices gr) = Some old
      ∧ add_sparse (S.exp_avg_base st) (indices gr)
          (rows2 (λ x o, (x - o) * (1 - Q2R (betas g).1))%R (values gr) old)
        = Some (S.exp_avg_base r.1.2))
  ∧ (∃ old,
        sparse_mask (S.exp_avg_sq_base st) (indices gr) = Some old
        ∧ add_sparse (S.exp_avg_sq_base st) (indices gr)
            (rows2 (λ x o, (x ^ 2 - o) * (1 - Q2R (betas g).2))%R
               (values gr) old)
          = Some (S.exp_avg_sq_base r.1.2))
  ∧ length (printed r.1.1)
    = (length (printed self)
       + (if (count self mod 125 =? 0)%nat then 2 else 0))%nat.
Proof.
  intros H. cbv zeta. unfold sparse in H. cbv zeta in H.
  destruct (CountSketch_update api _ _ _ _ _) as [ea numer].
  destruct (CountMinSketch_update api _ _ _ _ _) as [eq est].
  repeat bind_inv H. inversion H; subst; clear H.
  cbn [fst snd S.exp_avg_base S.exp_avg_sq_base].
  split; [eexists; split; [reflexivity | assumption] |].
  split; [eexists; split; [reflexivity | assumption] |].
  unfold diagnostic. cbn [printed].
  destruct (count self mod 125 =? 0)%nat; cbn [printed];
    [rewrite length_app; reflexivity | lia].
Qed.

(** X7.  A sparse step touches only the rows its coalesced gradient names:
    the parameter and the two exact shadows keep their number of rows, and
    every row whose index is not a key of the gradient is left as it
    was. *)
Theorem sparse_touches_only_named_rows (self : Adam) (p : list (list R))
    (grad : sparse_tensor) (g : group) (state : option (S.state api))
    (r : Adam * S.state api * list (list R)) :
  sparse api self p grad g state = Some r →
  let st := sparse_state api p grad state in
  let gr := sparse_grad api p grad g in
  length r.2 = length p
  ∧ length (S.exp_avg_base r.1.2) = length (S.exp_avg_base st)
  ∧ length (S.exp_avg_sq_base r.1.2) = length (S.exp_avg_sq_base st)
  ∧ ∀ i : nat, Z.of_nat i ∉ indices gr →
      r.2 !! i = p !! i
      ∧ S.exp_avg_base r.1.2 !! i = S.exp_avg_base st !! i
      ∧ S.exp_avg_sq_base r.1.2 !! i = S.exp_avg_sq_base st !! i.
Proof.
  intros H. cbv zeta.
  pose proof (sparse_Some api _ _ _ _ _ _ H) as Hs. cbv zeta in Hs.
  destruct Hs as (_ & _ & _ & Hp & _).
  pose proof (sparse_shadows _ _ _ _ _ _ H) as Hsh. cbv zeta in Hsh.
  destruct Hsh as ((o1 & _ & H1) & (o2 & _ & H2) & _).
  split; [exact (add_sparse_length _ _ _ _ Hp) |].
  split; [exact (add_sparse_length _ _ _ _ H1) |].
  split; [exact (add_sparse_length _ _ _ _ H2) |].
  intros i Hi. split; [| split].
  - exact (add_sparse_frame _ _ _ _ i Hp Hi).
  - exact (add_sparse_frame _ _ _ _ i H1 Hi).
  - exact (add_sparse_frame _ _ _ _ i H2 Hi).
Qed.

(** X8.  The exact shadows are the moments of the dense path, kept row by
    row: at every key [k] of the coalesced gradient, with gradient row
    [v], the step replaces the shadow rows [o1] and [o2] by
    [beta1 * o1 + (1 - beta1) * v] and [beta2 * o2 + (1 - beta2) * v^2],
    the very rows [Adam.dense] computes from [o1], [o2] and [v]. *)
Theorem sparse_shadows_are_dense_moments (self : Adam)
    (p : list (list R)) (grad : sparse_tensor) (g : group)
    (state : option (S.state api))
    (r : Adam * S.state api * list (list R)) :
  sparse api self p grad g state = Some r →
  let st := sparse_state api p grad state in
  let gr := sparse_grad api p grad g in
  ∀ (n : nat) (k : Z) (v : list R),
    indices gr !! n = Some k → values gr !! n = Some v →
    ∃ o1 o2,
      0 <= k
      ∧ S.exp_avg_base st !! Z.to_nat k = Some o1
      ∧ S.exp_avg_sq_base st !! Z.to_nat k = Some o2
      ∧ S.exp_avg_base r.1.2 !! Z.to_nat k = Some (dense_exp_avg g o1 v)
      ∧ S.exp_avg_sq_base r.1.2 !! Z.to_nat k
        = Some (dense_exp_avg_sq g o2 v).
Proof.
  intros H. cbv zeta. intros n k v Hk Hv.
  pose proof (sparse_shadows _ _ _ _ _ _ H) as Hsh. cbv zeta in Hsh.
  destruct Hsh as ((old1 & Hm1 & H1) & (old2 & Hm2 & H2) & _).
  pose proof (sparse_grad_NoDup p grad g) as Hnd.
  destruct (sparse_mask_at _ _ _ n k Hm1 Hk) as (o1 & Ho1 & Hb1).
  destruct (sparse_mask_at _ _ _ n k Hm2 Hk) as (o2 & Ho2 & Hb2).
  exists o1, o2.
  assert (Hu1 : rows2 (λ x o, (x - o) * (1 - Q2R (betas g).1))%R
                  (values (sparse_grad api p grad g)) old1 !! n
                = Some (zip_with (λ x o, (x - o) * (1 - Q2R (betas g).1))%R
                          v o1)).
  { unfold rows2. rewrite lookup_zip_with, Hv, Ho1. reflexivity. }
  assert (Hu2 : rows2 (λ x o, (x ^ 2 - o) * (1 - Q2R (betas g).2))%R
                  (values (sparse_grad api p grad g)) old2 !! n
                = Some (zip_with
                          (λ x o, (x ^ 2 - o) * (1 - Q2R (betas g).2))%R
                          v o2)).
  { unfold rows2. rewrite lookup_zip_with, Hv, Ho2. reflexivity. }
  destruct (add_sparse_at _ _ _ _ n k _ Hnd H1 Hk Hu1)
    as (row1 & Hk0 & Hr1 & Hn1).
  destruct (add_sparse_at _ _ _ _ n k _ Hnd H2 Hk Hu2)
    as (row2 & _ & Hr2 & Hn2).
  rewrite Hb1 in Hr1. inversion Hr1; subst row1.
  rewrite Hb2 in Hr2. inversion Hr2; subst row2.
  rewrite shadow_first_moment in Hn1. rewrite shadow_second_moment in Hn2.
  repeat split; assumption.
Qed.

(** The counter and the printed numbers over a run of sparse steps. *)
Lemma sparse_steps_cadence (n : nat) :
  ∀ (self : Adam) (p : list (list R)) (grad : sparse_tensor) (g : group)
    (state : option (S.state api))
    (r : Adam * option (S.state api) * list (list R)),
    count self = 1%nat →
    sparse_steps api n self p grad g state = Some r →
    count r.1.1 = (if (n =? 0)%nat then 1 else 2 + (n - 1) mod 124)%nat
    ∧ length (printed r.1.1)
      = (length (printed self) + 2 * ((n - 1) / 124))%nat.
Proof.
  induction n as [| n IH]; intros self p grad g state r Hc H.
  - cbn in H. inversion H; subst. cbn [fst]. split; [exact Hc |].
    cbn. lia.
  - cbn [sparse_steps] in H. bind_inv H. destruct p0 as [[self1 st1] p1].
    bind_inv H. destruct p0 as [[self2 st2] p2].
    inversion H; subst; clear H. cbn [fst].
    destruct (IH _ _ _ _ _ _ Hc E) as [Hc1 Hp1]. cbn [fst] in Hc1, Hp1.
    pose proof (sparse_Some api _ _ _ _ _ _ E0) as Hs. cbv zeta in Hs.
    destruct Hs as (_ & _ & _ & _ & Hc2). cbn [fst] in Hc2.
    pose proof (sparse_shadows _ _ _ _ _ _ E0) as Hsh. cbv zeta in Hsh.
    destruct Hsh as (_ & _ & Hp2). cbn [fst] in Hp2.
    rewrite Hc2, Hp2, Hp1, Hc1. clear.
    replace (S n - 1)%nat with n by lia. cbn [Nat.eqb].
    destruct n as [| n].
    + cbn. lia.
    + cbn [Nat.eqb]. replace (S n - 1)%nat with n by lia.
      pose proof (Nat.div_mod_eq n 124) as Hn.
      pose proof (Nat.mod_upper_bound n 124 ltac:(lia)) as Hn'.
      pose proof (Nat.div_mod_eq (S n) 124) as Hm.
      pose proof (Nat.mod_upper_bound (S n) 124 ltac:(lia)) as Hm'.
      destruct (Nat.eq_dec (n mod 124)%nat 123%nat) as [E | E].
      * assert (H125 : ((2 + n mod 124) mod 125 = 0)%nat)
          by (rewrite E; reflexivity).
        rewrite H125. cbn [Nat.eqb]. lia.
      * assert (H125 : ((2 + n mod 124) mod 125 ≠ 0)%nat).
        { rewrite Nat.mod_small by lia. lia. }
        apply Nat.eqb_neq in H125. rewrite H125. lia.
Qed.

(** X9.  The cadence of the diagnostic over any run: after [n >= 1]
    successful sparse steps of a fresh optimizer the counter stands at
    [2 + (n - 1) mod 124] and [2 * ((n - 1) / 124)] numbers have been
    printed, whatever the sketches, the parameter and the gradient are:
    a pair every 124 calls, the first during call 125. *)
Theorem diagnostic_cadence (n : nat) (p : list (list R))
    (grad : sparse_tensor) (g : group) (state : option (S.state api))
    (r : Adam * option (S.state api) * list (list R)) :
  sparse_steps api (S n) default_adam p grad g state = Some r →
  count r.1.1 = (2 + n mod 124)%nat
  ∧ length (printed r.1.1) = (2 * (n / 124))%nat.
Proof.
  intros H.
  destruct (sparse_steps_cadence (S n) default_adam p grad g state r
              eq_refl H) as [Hc Hp].
  cbn [Nat.eqb] in Hc. replace (S n - 1)%nat with n in Hc, Hp by lia.
  split; [exact Hc | exact Hp].
Qed.

End SparseRows.

Section SparseRowsRun.
Import AdamError.

Lemma sparse_touches_only_named_rows_witness :
  ∃ r,
    sparse probe_api default_adam [[0]; [5]]%R
      {| indices := [0]; values := [[2]]%R; size := (2, 1) |}
      default_group None = Some r
    ∧ length r.2 = 2%nat
    ∧ r.2 !! 1%nat = Some [5%R]
    ∧ S.exp_avg_base r.1.2 !! 1%nat = Some [0%R]
    ∧ S.exp_avg_sq_base r.1.2 !! 1%nat = Some [0%R].
Proof.
  eexists.
  destruct (sparse_touches_only_named_rows probe_api default_adam
              [[0]; [5]]%R
              {| indices := [0]; values := [[2]]%R; size := (2, 1) |}
              default_group None _ eq_refl) as (Hl & _ & _ & Hrows).
  destruct (Hrows 1%nat) as (Hp & H1 & H2).
  { intros Hin. apply list_elem_of_singleton in Hin. discriminate Hin. }
  split; [reflexivity |]. split; [exact Hl |].
  split; [exact Hp |]. split; [exact H1 | exact H2].
Defined.

Lemma sparse_shadows_are_dense_moments_witness :
  ∃ r o1 o2,
    sparse probe_api default_adam [[0]; [5]]%R
      {| indices := [1]; values := [[2]]%R; size := (2, 1) |}
      default_group None = Some r
    ∧ S.exp_avg_base r.1.2 !! 1%nat
      = Some (dense_exp_avg default_group o1 [2%R])
    ∧ S.exp_avg_sq_base r.1.2 !! 1%nat
      = Some (dense_exp_avg_sq default_group o2 [2%R]).
Proof.
  eexists.
  destruct (sparse_shadows_are_dense_moments probe_api default_adam
              [[0]; [5]]%R
              {| indices := [1]; values := [[2]]%R; size := (2, 1) |}
              default_group None _ eq_refl 0%nat 1 [2%R] eq_refl eq_refl)
    as (o1 & o2 & _ & _ & _ & H1 & H2).
  exists o1, o2. split; [reflexivity |]. split; [exact H1 | exact H2].
Defined.

Lemma diagnostic_cadence_witness :
  ∃ r,
    sparse_steps probe_api 3 default_adam [[0]]%R
      {| indices := [0]; values := [[2]]%R; size := (1, 1) |}
      default_group None = Some r
    ∧ count r.1.1 = (2 + 2 mod 124)%nat
    ∧ length (printed r.1.1) = (2 * (2 / 124))%nat.
Proof.
  eexists.
  pose proof (diagnostic_cadence probe_api 2 [[0]]%R
                {| indices := [0]; values := [[2]]%R; size := (1, 1) |}
                default_group None _ eq_refl) as H.
  split; [reflexivity | exact H].
Defined.

End SparseRowsRun.

(** ** Runs of [DenseCMS.update] *)

Section Buckets.
Import Tensor DenseCms.

Lemma bucket_sum_nonneg (g : list R) (off : Z) (h : Z → Z) (c : nat)
    (j : Z) :
  (0 <= bucket_sum g off h c j)%R.
Proof.
  induction c as [| c IH]; cbn [bucket_sum]; [lra |].
  destruct (h (Z.of_nat c) =? j); [| exact IH].
  pose proof (pow2_ge_0 (default 0%R (ld g (off + Z.of_nat c)))). lra.
Qed.

Lemma bucket_sum_zero (g : list R) (off : Z) (h : Z → Z) (c : nat)
    (j : Z) :
  (∀ i, default 0%R (ld g i) = 0%R) → bucket_sum g off h c j = 0%R.
Proof.
  intros Hg. induction c as [| c IH]; cbn [bucket_sum]; [reflexivity |].
  rewrite IH, Hg. destruct (h (Z.of_nat c) =? j); ring.
Qed.

Lemma ld_of_nat (l : list R) (i : nat) : ld l (Z.of_nat i) = l !! i.
Proof.
  unfold ld. destruct (Z.leb_spec 0 (Z.of_nat i)); [| lia].
  rewrite Nat2Z.id. reflexivity.
Qed.

Lemma default_ld_zeros (n i : Z) : default 0%R (ld (zeros n) i) = 0%R.
Proof.
  unfold ld, zeros. destruct (0 <=? i); [| reflexivity].
  destruct (replicate (Z.to_nat n) 0%R !! Z.to_nat i) as [x |] eqn:E;
    [| reflexivity].
  apply lookup_replicate in E as [-> _]. reflexivity.
Qed.

(** The cells of a buffer of [N] rows of [n]. *)
Lemma cell_of_index (N n i : Z) :
  0 < n → 0 <= i < N * n →
  i = i / n * n + i mod n ∧ 0 <= i / n < N ∧ 0 <= i mod n < n.
Proof.
  intros Hn Hi. pose proof (Z.div_mod i n ltac:(lia)) as E.
  pose proof (Z.mod_pos_bound i n Hn) as Hm.
  split; [lia |]. split; [| exact Hm].
  split; [apply Z.div_pos; lia |].
  apply Z.div_lt_upper_bound; [exact Hn | nia].
Qed.

End Buckets.

Section DenseCmsRuns.
Import Int32 Tensor DenseCms.

Lemma routed_kernel (c : DenseCMS) :
  routed c → kernel (initialize c) = Some (route c).
Proof. intros [H | H]; rewrite initialize_kernel, H; reflexivity. Qed.

Lemma route_slots (c : DenseCMS) :
  slots (route c) (D c) (range c) = range c.
Proof.
  unfold route. destruct (Z.eqb_spec (D c) (range c)) as [E |];
    [rewrite slots_plain; exact E | apply slots_hashed].
Qed.

Lemma slot_in_range (k : kernel_name) (D W b d : Z) :
  0 < W → 0 <= d < D → 0 <= slot k D W b d < slots k D W.
Proof.
  intros HW Hd. destruct k.
  - rewrite slots_plain. change (slot dense_update D W b d) with d. exact Hd.
  - rewrite slots_hashed, slot_hashed. apply hash_bucket, HW.
Qed.

(** The fields [update] carries over. *)
Lemma update_fields (c c' : DenseCMS) (p g p' : list R) (lr beta : R) :
  update c p g lr beta = Some (c', p') →
  c' = {| N := N c; D := D c; blk_size := blk_size c; range := range c;
          cms := cms c'; kernel := kernel (initialize c) |}.
Proof.
  destruct (initialize_fields c) as (EN & ED & ER & EC & EB).
  unfold update. cbv zeta. intros H. bind_inv H. bind_inv H.
  destruct p0 as [p1 m1]. inversion H; subst; clear H. cbn [cms].
  rewrite EN, ED, ER, EB. reflexivity.
Qed.

(** One [update] of a compressor whose kernel is the one [initialize]
    picks: [update_spec] with its slots counted. *)
Lemma update_routed (c : DenseCMS) (p g : list R) (lr beta : R) :
  routed c → shaped c p → Z.of_nat (length g) = N c * D c →
  ∃ c' p',
    update c p g lr beta = Some (c', p')
    ∧ c' = {| N := N c; D := D c; blk_size := blk_size c; range := range c;
              cms := cms c'; kernel := Some (route c) |}
    ∧ routed c' ∧ shaped c' p' ∧ route c' = route c
    ∧ length p' = length p
    ∧ (∀ b d, 0 <= b < N c → 0 <= d < D c →
          ∃ x gd old,
            ld p (b * D c + d) = Some x
            ∧ ld g (b * D c + d) = Some gd
            ∧ 0 <= slot (route c) (D c) (range c) b d < range c
            ∧ ld (cms c)
                (b * range c + slot (route c) (D c) (range c) b d)
              = Some old
            ∧ ld p' (b * D c + d)
              = Some (x + lr * gd
                          * rsqrtf (adaptive beta old (gd ^ 2) + 1e-10))%R)
    ∧ (∀ b j, 0 <= b < N c → 0 <= j < range c →
          ∃ old,
            ld (cms c) (b * range c + j) = Some old
            ∧ ld (cms c') (b * range c + j)
              = Some (old + (1 - beta)
                            * (bucket_sum g (b * D c)
                                 (slot (route c) (D c) (range c) b)
                                 (Z.to_nat (D c)) j - old))%R).
Proof.
  intros Hr (HN & HD & HW & HpI & HmI & Hp & Hm) Hg.
  pose proof (routed_kernel c Hr) as Hk.
  pose proof (route_slots c) as Hs.
  destruct (update_spec c (route c) p g lr beta Hk HN HD HW
              ltac:(rewrite Hs; lia) HpI HmI Hp Hg Hm)
    as (c' & p' & Hu & EN & ED & ER & EK & Hlp & Hlm & Hpar & Hmem).
  rewrite Hs in Hpar, Hmem.
  pose proof (update_fields _ _ _ _ _ _ _ Hu) as Hc. rewrite Hk in Hc.
  assert (Hroute : route c' = route c).
  { unfold route. rewrite ED, ER. reflexivity. }
  exists c', p'. split; [exact Hu |]. split; [exact Hc |].
  split; [right; rewrite EK, Hroute; reflexivity |].
  split; [unfold shaped; rewrite EN, ED, ER, Hlp, Hlm; repeat split;
          assumption |].
  split; [exact Hroute |]. split; [exact Hlp |]. split; [| exact Hmem].
  intros b d Hb Hd.
  destruct (Hpar b d Hb Hd) as (x & gd & old & Hx & Hgd & Hold & Hp').
  exists x, gd, old. split; [exact Hx |]. split; [exact Hgd |].
  split; [| split; assumption].
  pose proof (slot_in_range (route c) (D c) (range c) b d HW Hd) as H.
  rewrite Hs in H. exact H.
Qed.

(** X10.  Saving and loading lose nothing an update needs: a compressor
    rebuilt by [load_state_dict] from the [state_dict] of [c] has the
    fields of [c] and no kernel, and its next [update] gives what the
    [update] of [c] itself gives, as long as the kernel [c] holds (if any)
    is the one its [D] and [range] select. *)
Theorem load_state_dict_resumes (c0 c : DenseCMS) (p g : list R)
    (lr beta : R) :
  routed c →
  load_state_dict c0 (state_dict c)
  = {| N := N c; D := D c; blk_size := blk_size c; range := range c;
       cms := cms c; kernel := None |}
  ∧ update (load_state_dict c0 (state_dict c)) p g lr beta
    = update c p g lr beta.
Proof.
  intros Hr. split; [reflexivity |].
  assert (Hi : initialize (load_state_dict c0 (state_dict c)) = initialize c).
  { destruct c as [n d bs r m k]. unfold routed, route in Hr.
    cbn [kernel D range] in Hr.
    destruct Hr as [-> | ->]; reflexivity. }
  unfold update. cbv zeta. rewrite Hi. reflexivity.
Qed.

Lemma load_state_dict_resumes_witness :
  let c := init 2 3 (1 # 5) in
  load_state_dict (init 7 7 1) (state_dict c)
  = {| N := N c; D := D c; blk_size := blk_size c; range := range c;
       cms := cms c; kernel := None |}
  ∧ update (load_state_dict (init 7 7 1) (state_dict c))
      [1; 2; 3; 4; 5; 6]%R [1; 1; 1; 1; 1; 1]%R 1 (1 / 2)
    = update c [1; 2; 3; 4; 5; 6]%R [1; 1; 1; 1; 1; 1]%R 1 (1 / 2).
Proof.
  cbv zeta.
  apply (load_state_dict_resumes (init 7 7 1) (init 2 3 (1 # 5))).
  left. reflexivity.
Defined.

Lemma updates_cons (c : DenseCMS) (p : list R) (s : list R * R * R)
    (steps : list (list R * R * R)) :
  updates c p (s :: steps)
  = ('(c, p) ← update c p s.1.1 s.1.2 s.2; updates c p steps).
Proof.
  unfold updates. cbn [foldl mbind option_bind].
  destruct (update c p s.1.1 s.1.2 s.2) as [[c' p'] |];
    cbn [mbind option_bind]; [reflexivity |].
  induction steps as [| s' steps IH]; [reflexivity | exact IH].
Qed.

Lemma exact_second_moments_cons (v : list R) (s : list R * R * R)
    (steps : list (list R * R * R)) :
  exact_second_moments v (s :: steps)
  = exact_second_moments (exact_second_moment s.2 v s.1.1) steps.
Proof. reflexivity. Qed.

(** One step of the invariants of a run. *)
Lemma update_keeps_invariants (c : DenseCMS) (p g : list R)
    (lr beta : R) :
  routed c → shaped c p → Z.of_nat (length g) = N c * D c →
  (0 <= beta <= 1)%R →
  Forall (λ x, 0 <= x)%R (cms c) →
  ∃ c' p',
    update c p g lr beta = Some (c', p')
    ∧ N c' = N c ∧ D c' = D c ∧ range c' = range c
    ∧ routed c' ∧ shaped c' p'
    ∧ Forall (λ x, 0 <= x)%R (cms c').
Proof.
  intros Hr Hsh Hg Hbeta Hnn.
  destruct (update_routed c p g lr beta Hr Hsh Hg)
    as (c' & p' & Hu & Hc & Hr' & Hsh' & Hroute & _ & Hpar & Hmem).
  assert (EN : N c' = N c) by (rewrite Hc; reflexivity).
  assert (ED : D c' = D c) by (rewrite Hc; reflexivity).
  assert (ER : range c' = range c) by (rewrite Hc; reflexivity).
  destruct Hsh as (HN & HD & HW & _ & _ & _ & Hm).
  pose proof Hsh' as (_ & _ & _ & _ & _ & _ & Hm').
  rewrite EN, ER in Hm'.
  exists c', p'. split; [exact Hu |].
  split; [exact EN |]. split; [exact ED |]. split; [exact ER |].
  split; [exact Hr' |]. split; [assumption |].
  apply Forall_lookup. intros i x Hx.
  assert (Hi : 0 <= Z.of_nat i < N c * range c).
  { apply lookup_lt_Some in Hx. lia. }
  destruct (cell_of_index (N c) (range c) (Z.of_nat i) HW Hi)
    as (Ei & Hb & Hj).
  destruct (Hmem _ _ Hb Hj) as (old & Hold & Hnew).
  rewrite <- Ei in Hold, Hnew. rewrite ld_of_nat in Hold, Hnew.
  rewrite Hx in Hnew. inversion Hnew; subst x.
  rewrite Forall_lookup in Hnn. specialize (Hnn i old Hold). cbn in Hnn.
  pose proof (bucket_sum_nonneg g (Z.of_nat i / range c * D c)
                (slot (route c) (D c) (range c) (Z.of_nat i / range c))
                (Z.to_nat (D c)) (Z.of_nat i mod range c)) as Hs.
  cbn. nra.
Qed.

Lemma updates_keep_invariants (steps : list (list R * R * R)) :
  ∀ (c : DenseCMS) (p : list R),
    routed c → shaped c p →
    Forall (λ s, Z.of_nat (length s.1.1) = N c * D c ∧ (0 <= s.2 <= 1)%R)
      steps →
    Forall (λ x, 0 <= x)%R (cms c) →
    ∃ c' p',
      updates c p steps = Some (c', p')
      ∧ N c' = N c ∧ D c' = D c ∧ range c' = range c
      ∧ routed c' ∧ shaped c' p'
      ∧ Forall (λ x, 0 <= x)%R (cms c').
Proof.
  induction steps as [| [[g lr] beta] steps IH];
    intros c p Hr Hsh Hok Hnn.
  - exists c, p. repeat split; try assumption; apply Hsh.
  - inversion Hok as [| ? ? [Hg Hbeta] Hok']; subst. cbn [fst snd] in Hg, Hbeta.
    destruct (update_keeps_invariants c p g lr beta Hr Hsh Hg Hbeta Hnn)
      as (c1 & p1 & Hu & EN & ED & ER & Hr1 & Hsh1 & Hnn1).
    destruct (IH c1 p1 Hr1 Hsh1) as
      (c' & p' & Hus & EN' & ED' & ER' & Hr' & Hsh' & Hnn');
      [rewrite EN, ED; exact Hok' | exact Hnn1 |].
    exists c', p'. rewrite updates_cons. cbn [fst snd]. rewrite Hu.
    cbn [mbind option_bind]. split; [exact Hus |].
    repeat split; try assumption; try congruence; apply Hsh'.
Qed.

(** One update of the kernel without hashing: every cell is advanced by
    its own coordinate. *)
Lemma plain_update_exact (c : DenseCMS) (p g : list R) (lr beta : R) :
  routed c → shaped c p → Z.of_nat (length g) = N c * D c →
  D c = range c →
  ∃ c' p',
    update c p g lr beta = Some (c', p')
    ∧ N c' = N c ∧ D c' = D c ∧ range c' = range c
    ∧ routed c' ∧ shaped c' p'
    ∧ kernel c' = Some dense_update
    ∧ cms c' = exact_second_moment beta (cms c) g.
Proof.
  intros Hr Hsh Hg HDW.
  assert (Hroute : route c = dense_update).
  { unfold route. rewrite HDW, Z.eqb_refl. reflexivity. }
  destruct (update_routed c p g lr beta Hr Hsh Hg)
    as (c' & p' & Hu & Hc & Hr' & Hsh' & _ & _ & _ & Hmem).
  assert (EN : N c' = N c) by (rewrite Hc; reflexivity).
  assert (ED : D c' = D c) by (rewrite Hc; reflexivity).
  assert (ER : range c' = range c) by (rewrite Hc; reflexivity).
  assert (EK : kernel c' = Some dense_update).
  { rewrite Hc. cbn [kernel]. rewrite Hroute. reflexivity. }
  destruct Hsh as (HN & HD & HW & _ & _ & _ & Hm).
  pose proof Hsh' as (_ & _ & _ & _ & _ & _ & Hm').
  rewrite EN, ER in Hm'.
  exists c', p'. split; [exact Hu |].
  split; [exact EN |]. split; [exact ED |]. split; [exact ER |].
  split; [exact Hr' |]. split; [exact Hsh' |]. split; [exact EK |].
  rewrite Hroute in Hmem.
  apply list_eq. intros i. unfold exact_second_moment.
  rewrite lookup_zip_with.
  destruct (lt_dec i (length (cms c))) as [Hi | Hi].
  - destruct (cell_of_index (N c) (range c) (Z.of_nat i) HW ltac:(lia))
      as (Ei & Hb & Hj).
    destruct (Hmem _ _ Hb Hj) as (old & Hold & Hnew).
    destruct (ld_is_Some g (Z.of_nat i) ltac:(rewrite HDW in Hg; lia))
      as [gd Hgd].
    rewrite (bucket_sum_plain g (Z.of_nat i / range c * D c) (D c)
               (range c) (Z.of_nat i / range c) (Z.to_nat (D c))
               (Z.of_nat i mod range c) gd) in Hnew.
    + rewrite <- Ei in Hold, Hnew. rewrite ld_of_nat in Hold, Hnew, Hgd.
      rewrite Hold, Hnew, Hgd. cbn [mbind option_bind]. f_equal. ring.
    + rewrite HDW. lia.
    + rewrite HDW, <- Ei. exact Hgd.
  - rewrite !lookup_ge_None_2 by lia. reflexivity.
Qed.

Lemma plain_updates_exact (steps : list (list R * R * R)) :
  ∀ (c : DenseCMS) (p : list R),
    routed c → shaped c p → D c = range c →
    Forall (λ s, Z.of_nat (length s.1.1) = N c * D c) steps →
    ∃ c' p',
      updates c p steps = Some (c', p')
      ∧ cms c' = exact_second_moments (cms c) steps.
Proof.
  induction steps as [| [[g lr] beta] steps IH];
    intros c p Hr Hsh HDW Hok.
  - exists c, p. split; reflexivity.
  - inversion Hok as [| ? ? Hg Hok']; subst. cbn [fst snd] in Hg.
    destruct (plain_update_exact c p g lr beta Hr Hsh Hg HDW)
      as (c1 & p1 & Hu & EN & ED & ER & Hr1 & Hsh1 & _ & Hcms).
    destruct (IH c1 p1 Hr1 Hsh1 ltac:(congruence))
      as (c' & p' & Hus & Hcms'); [rewrite EN, ED; exact Hok' |].
    exists c', p'. rewrite updates_cons. cbn [fst snd]. rewrite Hu.
    cbn [mbind option_bind]. split; [exact Hus |].
    rewrite exact_second_moments_cons. cbn [fst snd].
    rewrite <- Hcms. exact Hcms'.
Qed.

End DenseCmsRuns.

Section DenseCmsStream.
Import Int32 Tensor DenseCms.

(** A fresh compressor is well shaped, holds no kernel, and its sketch is
    zero. *)
Lemma init_invariants (N0 D0 : Z) (sketch_size : Q) (p : list R) :
  0 <= N0 → 0 <= D0 → N0 * D0 <= 2 ^ 31 →
  N0 * range (init N0 D0 sketch_size) <= 2 ^ 31 →
  Z.of_nat (length p) = N0 * D0 →
  routed (init N0 D0 sketch_size)
  ∧ shaped (init N0 D0 sketch_size) p
  ∧ Forall (λ x, 0 <= x)%R (cms (init N0 D0 sketch_size)).
Proof.
  intros HN HD HpI HmI Hp.
  set (c := init N0 D0 sketch_size) in *.
  assert (EN : N c = N0) by reflexivity.
  assert (ED : D c = D0) by reflexivity.
  assert (EC : cms c = zeros (N0 * range c)) by reflexivity.
  assert (HW : 0 < range c).
  { unfold c, init. cbn [range]. lia. }
  split; [left; reflexivity |]. split.
  { unfold shaped. rewrite EN, ED, EC, length_zeros.
    repeat split; try assumption. nia. }
  rewrite EC. unfold zeros. apply Forall_replicate. lra.
Qed.

(** X11.  No run of updates faults: from a fresh compressor, any sequence
    of [update] calls with gradients of [N * D] floats and coefficients
    [0 <= beta <= 1] goes through without an access out of bounds, keeps
    the shape of the parameter and of the sketch, and leaves every cell of
    the sketch non-negative, so that each later step takes its inverse
    root of a number that is at least [1e-10]. *)
Theorem fresh_sketch_runs_stay_in_bounds (N0 D0 : Z) (sketch_size : Q)
    (p : list R) (steps : list (list R * R * R)) :
  0 <= N0 → 0 <= D0 → N0 * D0 <= 2 ^ 31 →
  N0 * range (init N0 D0 sketch_size) <= 2 ^ 31 →
  Z.of_nat (length p) = N0 * D0 →
  Forall (λ s, Z.of_nat (length s.1.1) = N0 * D0 ∧ (0 <= s.2 <= 1)%R)
    steps →
  ∃ c' p',
    updates (init N0 D0 sketch_size) p steps = Some (c', p')
    ∧ length p' = length p
    ∧ length (cms c') = length (cms (init N0 D0 sketch_size))
    ∧ Forall (λ x, 0 <= x)%R (cms c')
    ∧ ∀ old gd beta, (0 <= beta <= 1)%R → In old (cms c') →
        (1e-10 <= adaptive beta old (gd ^ 2) + 1e-10)%R.
Proof.
  intros HN HD HpI HmI Hp Hok.
  destruct (init_invariants N0 D0 sketch_size p HN HD HpI HmI Hp)
    as (Hr & Hsh & Hnn).
  destruct (updates_keep_invariants steps _ p Hr Hsh Hok Hnn)
    as (c' & p' & Hu & EN & ED & ER & _ & Hsh' & Hnn').
  exists c', p'. split; [exact Hu |].
  destruct Hsh as (_ & _ & _ & _ & _ & Hlp & Hlm).
  destruct Hsh' as (_ & _ & _ & _ & _ & Hlp' & Hlm').
  rewrite EN, ED in Hlp'. rewrite EN, ER in Hlm'.
  split; [lia |]. split; [lia |]. split; [exact Hnn' |].
  intros old gd beta Hbeta Hin.
  rewrite Forall_forall in Hnn'.
  assert (Hold : (0 <= old)%R).
  { apply Hnn'. apply list_elem_of_In. exact Hin. }
  pose proof (pow2_ge_0 gd). unfold adaptive. nra.
Qed.

Lemma fresh_sketch_runs_stay_in_bounds_witness :
  let p := [1; 2; 3; 4; 5; 6]%R in
  let steps : list (list R * R * R) :=
    [([1; 1; 1; 1; 1; 1]%R, 1%R, (1 / 2)%R)] in
  ∃ c' p',
    updates (init 2 3 (1 # 5)) p steps = Some (c', p')
    ∧ length p' = length p
    ∧ length (cms c') = length (cms (init 2 3 (1 # 5)))
    ∧ Forall (λ x, 0 <= x)%R (cms c')
    ∧ ∀ old gd beta, (0 <= beta <= 1)%R → In old (cms c') →
        (1e-10 <= adaptive beta old (gd ^ 2) + 1e-10)%R.
Proof.
  cbv zeta.
  apply (fresh_sketch_runs_stay_in_bounds 2 3 (1 # 5)
           [1; 2; 3; 4; 5; 6]%R
           [([1; 1; 1; 1; 1; 1]%R, 1%R, (1 / 2)%R)]);
    try first [reflexivity | vm_compute; first [reflexivity | discriminate]].
  repeat constructor; cbn; lra.
Defined.

(** X12.  Without hashing the sketch is exact: when the width equals [D]
    (so that [initialize] picks [dense_update], in which every thread has
    its own slot), after any run of updates from a fresh compressor the
    buffer is, coordinate by coordinate, the second moment
    [v <- beta * v + (1 - beta) * g^2] of that coordinate's own gradients,
    started at zero; in particular it is never below it. *)
Theorem plain_sketch_is_exact_second_moment (N0 D0 : Z)
    (sketch_size : Q) (p : list R) (steps : list (list R * R * R)) :
  0 <= N0 → 0 <= D0 → N0 * D0 <= 2 ^ 31 →
  range (init N0 D0 sketch_size) = D0 →
  Z.of_nat (length p) = N0 * D0 →
  Forall (λ s, Z.of_nat (length s.1.1) = N0 * D0) steps →
  route (init N0 D0 sketch_size) = dense_update
  ∧ ∃ c' p',
      updates (init N0 D0 sketch_size) p steps = Some (c', p')
      ∧ cms c' = exact_second_moments (zeros (N0 * D0)) steps.
Proof.
  intros HN HD HpI HW Hp Hok.
  destruct (init_invariants N0 D0 sketch_size p HN HD HpI
              ltac:(rewrite HW; exact HpI) Hp) as (Hr & Hsh & _).
  split.
  { unfold route. change (D (init N0 D0 sketch_size)) with D0.
    rewrite HW, Z.eqb_refl. reflexivity. }
  destruct (plain_updates_exact steps (init N0 D0 sketch_size) p Hr Hsh
              ltac:(symmetry; exact HW) Hok) as (c' & p' & Hu & Hcms).
  exists c', p'. split; [exact Hu |]. rewrite Hcms.
  change (cms (init N0 D0 sketch_size))
    with (zeros (N0 * range (init N0 D0 sketch_size))).
  rewrite HW. reflexivity.
Qed.

Lemma plain_sketch_is_exact_second_moment_witness :
  let p := [1; 2]%R in
  let steps : list (list R * R * R) :=
    [([3; 4]%R, 1%R, (1 / 2)%R); ([5; 6]%R, 1%R, (1 / 4)%R)] in
  route (init 2 1 1) = dense_update
  ∧ ∃ c' p',
      updates (init 2 1 1) p steps = Some (c', p')
      ∧ cms c' = exact_second_moments (zeros (2 * 1)) steps.
Proof.
  cbv zeta.
  apply (plain_sketch_is_exact_second_moment 2 1 1 [1; 2]%R
           [([3; 4]%R, 1%R, (1 / 2)%R); ([5; 6]%R, 1%R, (1 / 4)%R)]);
    try first [reflexivity | vm_compute; first [reflexivity | discriminate]].
  repeat constructor.
Defined.

(** X13.  A zero gradient moves nothing and only decays the sketch: for
    [0 <= beta <= 1] and a sketch without negative cells (so that every
    reciprocal root of the step is taken of a number that is at least
    [1e-10]), the update of a well-shaped compressor with an all-zero
    gradient returns the parameter as it was and the sketch multiplied by
    [beta], which is what [clean(beta)] does to it. *)
Theorem zero_gradient_update_is_clean (c : DenseCMS) (p : list R)
    (lr beta : R) :
  routed c → shaped c p →
  (0 <= beta <= 1)%R → Forall (λ x, 0 <= x)%R (cms c) →
  update c p (zeros (N c * D c)) lr beta
  = Some (clean (initialize c) beta, p)
  ∧ ∀ old, In old (cms c) →
      (1e-10 <= beta * old + (1 - beta) * 0 ^ 2 + 1e-10)%R.
Proof.
  intros Hr Hsh Hbeta Hnn. split.
  2: { intros old Hin. rewrite Forall_forall in Hnn.
       assert (Hold : (0 <= old)%R).
       { apply Hnn. apply list_elem_of_In. exact Hin. }
       nra. }
  pose proof Hsh as (HN & HD & HW & HpI & HmI & Hp & Hm).
  assert (Hg : Z.of_nat (length (zeros (N c * D c))) = N c * D c).
  { rewrite length_zeros. nia. }
  destruct (update_routed c p (zeros (N c * D c)) lr beta Hr Hsh Hg)
    as (c' & p' & Hu & Hc & _ & Hsh' & _ & Hlp & Hpar & Hmem).
  rewrite Hu. f_equal.
  assert (Hp' : p' = p).
  { apply list_eq. intros i.
    destruct (lt_dec i (length p)) as [Hi | Hi].
    - destruct (Z.eq_dec (D c) 0) as [E0 | E0]; [nia |].
      destruct (cell_of_index (N c) (D c) (Z.of_nat i) ltac:(lia)
                  ltac:(lia)) as (Ei & Hb & Hd).
      destruct (Hpar _ _ Hb Hd) as (x & gd & old & Hx & Hgd & _ & _ & Hx').
      rewrite <- Ei in Hx, Hgd, Hx'. rewrite ld_of_nat in Hx, Hx'.
      rewrite ld_zeros in Hgd by lia. inversion Hgd; subst gd.
      rewrite Hx, Hx'. f_equal. ring.
    - rewrite !lookup_ge_None_2 by lia. reflexivity. }
  assert (Hcms : cms c' = (λ x, x * beta)%R <$> cms c).
  { destruct Hsh' as (_ & _ & _ & _ & _ & _ & Hm').
    assert (EN : N c' = N c) by (rewrite Hc; reflexivity).
    assert (ER : range c' = range c) by (rewrite Hc; reflexivity).
    rewrite EN, ER in Hm'.
    apply list_eq. intros i. rewrite list_lookup_fmap.
    destruct (lt_dec i (length (cms c))) as [Hi | Hi].
    - destruct (cell_of_index (N c) (range c) (Z.of_nat i) HW ltac:(lia))
        as (Ei & Hb & Hj).
      destruct (Hmem _ _ Hb Hj) as (old & Hold & Hnew).
      rewrite <- Ei in Hold, Hnew. rewrite ld_of_nat in Hold, Hnew.
      rewrite Hold, Hnew. cbn [fmap option_fmap option_map]. f_equal.
      rewrite bucket_sum_zero by (intros j; apply default_ld_zeros). ring.
    - rewrite !lookup_ge_None_2 by lia. reflexivity. }
  rewrite Hp'. f_equal. rewrite Hc, Hcms. unfold clean.
  destruct (initialize_fields c) as (EN & ED & ER & EC & EB).
  rewrite EN, ED, ER, EC, EB, (routed_kernel c Hr). reflexivity.
Qed.

Lemma zero_gradient_update_is_clean_witness :
  let c := init 2 3 (1 # 5) in
  update c [1; 2; 3; 4; 5; 6]%R (zeros (N c * D c)) 1 (1 / 2)
  = Some (clean (initialize c) (1 / 2), [1; 2; 3; 4; 5; 6]%R)
  ∧ ∀ old, In old (cms c) →
      (1e-10 <= 1 / 2 * old + (1 - 1 / 2) * 0 ^ 2 + 1e-10)%R.
Proof.
  cbv zeta.
  apply (zero_gradient_update_is_clean (init 2 3 (1 # 5))
           [1; 2; 3; 4; 5; 6]%R 1 (1 / 2)).
  - left. reflexivity.
  - repeat split;
      first [reflexivity | vm_compute; first [reflexivity | discriminate]].
  - lra.
  - apply Forall_replicate. lra.
Defined.

End DenseCmsStream.

(** ** A launch of [hash_update_retrieve] *)

Lemma bind_of_Some {A B : Type} (f : A → option B) (x : A) :
  mbind f (Some x) = f x.
Proof. reflexivity. Qed.

Lemma flat_index_inj (D b t b' t' : Z) :
  0 <= t < D → 0 <= t' < D → b * D + t = b' * D + t' → b = b' ∧ t = t'.
Proof.
  intros Ht Ht' E.
  assert (Hb : b = b').
  { destruct (Z.lt_trichotomy b b') as [H | [H | H]];
      [exfalso; nia | exact H | exfalso; nia]. }
  subst b'. split; [reflexivity | lia].
Qed.

Lemma flat_index_range (M D b t : Z) :
  0 <= b < M → 0 <= t < D → 0 <= b * D + t < M * D.
Proof. intros Hb Ht. nia. Qed.

Section CmsBatch.
Import Int32 Tensor Cms.

Variables (N D : Z) (indices : list Z) (values : list R) (M : Z) (L : nat).
Variable pre : list (Z * Z * R).
Variable mem0 : list R.

Hypothesis HN : 0 < N.
Hypothesis HD : 0 < D.
Hypothesis Hsz : 3 * (N * D) <= 2 ^ 31.
Hypothesis HL : Z.of_nat L <= D.
Hypothesis HM : 0 <= M.
Hypothesis Hidx : Z.of_nat (length indices) = M.
Hypothesis Hval : Z.of_nat (length values) = M * D.
Hypothesis HMD : M * D <= 2 ^ 31.
Hypothesis Hnn : Forall (λ v, 0 <= v)%R values.
Hypothesis Hrf : race_free N indices.

(** Thread [t'] of block [b'] has run when block [b] is at thread [t]. *)
Let done (b t : nat) (b' t' : Z) : Prop :=
  (b' < Z.of_nat b ∧ t' < Z.of_nat L) ∨ (b' = Z.of_nat b ∧ t' < Z.of_nat t).

(** The answer of thread [t'] of block [b'], from the memory the launch
    began with. *)
Let answer (b' t' : nat) (r : R) : Prop :=
  ∃ k v o0 o1 o2,
    indices !! b' = Some k
    ∧ ld values (Z.of_nat b' * D + Z.of_nat t') = Some v
    ∧ ld mem0 (cell N (N * D) D k (Z.of_nat t') 0) = Some o0
    ∧ ld mem0 (cell N (N * D) D k (Z.of_nat t') 1) = Some o1
    ∧ ld mem0 (cell N (N * D) D k (Z.of_nat t') 2) = Some o2
    ∧ r = minimum (o0 + v) (o1 + v) (o2 + v).

(** The state of the launch when block [b] is at thread [t]. *)
Let J (b t : nat) (s : list R * list R) : Prop :=
  Z.of_nat (length s.1) = 3 * (N * D)
  ∧ length s.2 = length values
  ∧ overestimates s.1 N (N * D) D
      (pre ++ batch_ops indices values D b L
           ++ block_ops indices values D b t)
  ∧ (∀ b' t' : nat, done b t (Z.of_nat b') (Z.of_nat t') →
       ∃ r, ld s.2 (Z.of_nat b' * D + Z.of_nat t') = Some r
            ∧ (exact_sum (pre ++ ops_upto indices values D L b' t')
                 (default 0%Z (indices !! b')) (Z.of_nat t') <= r)%R
            ∧ answer b' t' r)
  ∧ (∀ b' t' : Z, 0 <= b' < M → 0 <= t' < D → ¬ done b t b' t' →
       ld s.2 (b' * D + t') = Some 0%R)
  ∧ (∀ (b' : nat) (t' k' idx : Z),
       indices !! b' = Some k' → 0 <= t' < D → 0 <= idx < 3 →
       ¬ done b t (Z.of_nat b') t' →
       ld s.1 (cell N (N * D) D k' t' idx)
       = ld mem0 (cell N (N * D) D k' t' idx)).

Lemma block_ops_S (b t : nat) :
  block_ops indices values D b (S t)
  = block_ops indices values D b t ++ [thread_op indices values D b t].
Proof. unfold block_ops. rewrite seq_S, fmap_app. reflexivity. Qed.

Lemma batch_ops_S (b : nat) :
  batch_ops indices values D (S b) L
  = batch_ops indices values D b L ++ block_ops indices values D b L.
Proof.
  unfold batch_ops. rewrite seq_S, fmap_app, concat_app.
  cbn [fmap list_fmap concat]. rewrite app_nil_r. reflexivity.
Qed.

(** The cells of two threads of a race-free launch are apart. *)
Lemma thread_cells_apart (b b' : nat) (k k' t t' idx idx' : Z) :
  indices !! b = Some k → indices !! b' = Some k' →
  0 <= t < D → 0 <= t' < D → 0 <= idx < 3 → 0 <= idx' < 3 →
  cell N (N * D) D k' t' idx' = cell N (N * D) D k t idx →
  b' = b ∧ t' = t.
Proof using HN HD Hsz Hrf.
  intros Hk Hk' Ht Ht' Hi Hi' E.
  destruct (cell_inj N D HN HD Hsz _ _ _ _ _ _ Hi' Hi Ht' Ht E)
    as (Eidx & Eb & Et).
  split; [| exact Et].
  destruct (Nat.eq_dec b' b) as [Ebb | Ebb]; [exact Ebb |].
  exfalso. subst idx'.
  exact (Hrf b' b k' k idx Ebb Hk' Hk Hi Eb).
Qed.

Lemma thread_step (b t : nat) (s : list R * list R) :
  Z.of_nat b < M → (t < L)%nat → J b t s →
  ∃ s',
    hash_update_retrieve indices values N (N * D) D (Z.of_nat b)
      (Z.of_nat t) s = Some s'
    ∧ J b (S t) s'.
Proof using All.
  intros Hb Ht (Hlen & Hres & Hinv & Hdone & Hrest & Hkeep).
  destruct s as [mem result]. cbn [fst snd] in *.
  assert (Hi : 0 <= Z.of_nat b * D + Z.of_nat t < M * D)
    by (apply flat_index_range; lia).
  destruct (ld_is_Some values (Z.of_nat b * D + Z.of_nat t) ltac:(lia))
    as [v Hv].
  destruct (lookup_lt_is_Some_2 indices b ltac:(lia)) as [k Hk].
  assert (Hv0 : (0 <= v)%R).
  { rewrite Forall_lookup in Hnn.
    unfold ld in Hv. destruct (0 <=? _); [| discriminate].
    exact (Hnn _ _ Hv). }
  assert (Hop : thread_op indices values D b t = (k, Z.of_nat t, v)).
  { unfold thread_op. rewrite Hk, Hv. reflexivity. }
  assert (HtD : 0 <= Z.of_nat t < D) by lia.
  destruct (overestimates_step N D HN HD Hsz mem _ k (Z.of_nat t) v Hlen
              HtD Hv0 Hinv)
    as (mem' & r & Hstep & Hlen' & Hinv' & Hr).
  destruct (cms_update_retrieve_spec N D HN HD Hsz mem k (Z.of_nat t) v
              Hlen HtD)
    as (o0 & o1 & o2 & mem'' & Ho0 & Ho1 & Ho2 & Hstep' & _ & _ & _ & _
        & Hframe).
  rewrite Hstep in Hstep'. injection Hstep' as Emem Er. subst mem''.
  assert (Hnotdone : ¬ done b t (Z.of_nat b) (Z.of_nat t)).
  { unfold done. lia. }
  rewrite (Hkeep b (Z.of_nat t) k 0 Hk HtD ltac:(lia) Hnotdone) in Ho0.
  rewrite (Hkeep b (Z.of_nat t) k 1 Hk HtD ltac:(lia) Hnotdone) in Ho1.
  rewrite (Hkeep b (Z.of_nat t) k 2 Hk HtD ltac:(lia) Hnotdone) in Ho2.
  destruct (st_is_Some result (Z.of_nat b * D + Z.of_nat t) r ltac:(lia))
    as [result' Hst].
  pose proof (st_spec _ _ _ _ Hst) as (Hl' & Hnew & Hne).
  exists (mem', result'). split.
  { unfold hash_update_retrieve.
    destruct (Z.ltb_spec (Z.of_nat t) D); [| lia].
    cbv zeta. rewrite Nat2Z.id, wrap32_id by lia.
    rewrite Hv, bind_of_Some, Hk, bind_of_Some, Hstep, bind_of_Some.
    rewrite Hst, bind_of_Some. reflexivity. }
  assert (Hops : (pre ++ batch_ops indices values D b L
                      ++ block_ops indices values D b t)
                 ++ [(k, Z.of_nat t, v)]
                 = pre ++ batch_ops indices values D b L
                       ++ block_ops indices values D b (S t)).
  { rewrite block_ops_S, Hop, <- !app_assoc. reflexivity. }
  unfold J. cbn [fst snd].
  split; [lia |]. split; [congruence |]. split.
  { rewrite <- Hops. exact Hinv'. }
  split; [| split].
  - intros b' t' Hd.
    destruct (Z.eq_dec (Z.of_nat b' * D + Z.of_nat t')
                (Z.of_nat b * D + Z.of_nat t)) as [E | E].
    + assert (b' = b ∧ t' = t) as [-> ->].
      { unfold done in Hd.
        destruct (flat_index_inj D (Z.of_nat b') (Z.of_nat t') (Z.of_nat b)
                    (Z.of_nat t) ltac:(lia) ltac:(lia) E). lia. }
      exists r. split; [exact Hnew |]. split.
      * rewrite Hk. cbn [default from_option]. unfold Datatypes.id.
        unfold ops_upto. rewrite <- Hops. exact Hr.
      * exists k, v, o0, o1, o2. repeat split; assumption.
    + rewrite (Hne _ E). apply Hdone.
      unfold done in *. destruct Hd as [Hd | [Hd1 Hd2]]; [left; exact Hd |].
      right. split; [exact Hd1 |].
      assert (t' ≠ t).
      { intros ->. apply E. rewrite Hd1. reflexivity. }
      lia.
  - intros b' t' Hb' Ht' Hnd.
    assert (E : b' * D + t' ≠ Z.of_nat b * D + Z.of_nat t).
    { intros E. apply Hnd. right.
      destruct (flat_index_inj D b' t' (Z.of_nat b) (Z.of_nat t) Ht'
                  ltac:(lia) E). lia. }
    rewrite (Hne _ E). apply Hrest; [exact Hb' | exact Ht' |].
    intros Hd. apply Hnd. unfold done in *.
    destruct Hd as [Hd | [Hd1 Hd2]]; [left; exact Hd | right; lia].
  - intros b' t' k' idx Hk' Ht' Hidx' Hnd.
    assert (Hnd0 : ¬ done b t (Z.of_nat b') t').
    { intros Hd. apply Hnd. unfold done in *.
      destruct Hd as [Hd | [Hd1 Hd2]]; [left; exact Hd | right; lia]. }
    rewrite <- (Hkeep b' t' k' idx Hk' Ht' Hidx' Hnd0).
    assert (Hother : ∀ i, 0 <= i < 3 →
              cell N (N * D) D k' t' idx
              ≠ cell N (N * D) D k (Z.of_nat t) i).
    { intros i Hi0 E.
      destruct (thread_cells_apart b b' k k' (Z.of_nat t) t' i idx Hk Hk'
                  HtD Ht' Hi0 Hidx' E) as [Eb Et].
      apply Hnd. right. unfold done. subst b'. lia. }
    apply Hframe; apply Hother; lia.
Qed.

Lemma block_done (b : nat) (s : list R * list R) :
  J b L s → J (S b) 0 s.
Proof using All.
  intros (Hlen & Hres & Hinv & Hdone & Hrest & Hkeep).
  assert (Heq : ∀ b' t', done (S b) 0 b' t'
                         ↔ done b L b' t' ∨ (b' = Z.of_nat (S b) ∧ t' < 0)).
  { intros b' t'. unfold done. lia. }
  unfold J. split; [exact Hlen |]. split; [exact Hres |]. split.
  { rewrite batch_ops_S. unfold block_ops at 2. cbn [seq fmap list_fmap].
    rewrite app_nil_r. exact Hinv. }
  split; [| split].
  - intros b' t' Hd. apply Hdone. apply Heq in Hd as [Hd | Hd];
      [exact Hd | lia].
  - intros b' t' Hb' Ht' Hnd. apply Hrest; [exact Hb' | exact Ht' |].
    intros Hd. apply Hnd, Heq. left. exact Hd.
  - intros b' t' k' idx Hk' Ht' Hidx' Hnd.
    apply (Hkeep b' t' k' idx Hk' Ht' Hidx').
    intros Hd. apply Hnd, Heq. left. exact Hd.
Qed.

Lemma launch_spec (s0 : list R * list R) :
  J 0 0 s0 →
  ∃ s',
    launch M (Z.of_nat L)
      (hash_update_retrieve indices values N (N * D) D) s0 = Some s'
    ∧ J (Z.to_nat M) 0 s'.
Proof using All.
  intros H0. unfold launch.
  apply (for_range_inv (λ b s, J b 0 s)); [exact H0 |].
  intros b s Hb Hs.
  destruct (for_range_inv (λ t s, J b t s) (Z.to_nat (Z.of_nat L))
              (hash_update_retrieve indices values N (N * D) D (Z.of_nat b))
              s Hs) as (s' & Hrun & Hs').
  { intros t s1 Ht H1. apply thread_step; [lia | lia | exact H1]. }
  exists s'. split; [exact Hrun |].
  rewrite Nat2Z.id in Hs'. apply block_done, Hs'.
Qed.

End CmsBatch.

Section CmsUpdate.
Import Int32 Tensor Cms.

Lemma zeros_overestimates (N D : Z) :
  0 < N → 0 < D → 3 * (N * D) <= 2 ^ 31 →
  overestimates (zeros (3 * (N * D))) N (N * D) D [].
Proof.
  intros HN HD Hsz k t idx Hi Ht. exists 0%R.
  destruct (cell_flat N D HN HD Hsz k t idx Hi Ht) as (_ & _ & Hc).
  split; [apply ld_zeros; lia | cbn; lra].
Qed.

Lemma length_zeros_of_nat (n : nat) : length (zeros (Z.of_nat n)) = n.
Proof. unfold zeros. rewrite length_replicate. apply Nat2Z.id. Qed.

(** X15.  One [CountMinSketch.update] of a batch of [M] rows of
    non-negative values, on a sketch built as [__init__] builds it (with
    at least one bucket and a block size CUDA accepts), when no two rows of
    the batch share a bucket (so that no two threads of the launch touch
    one cell, and the order they run in does not matter).  The launch
    stays within its buffers.  The answer for row [b] and a lane [t] below
    [blk_size] is the minimum over the three rows of the sketch of
    [cell + value], the cells being read from the memory the launch began
    with; it is at least the exact sum accumulated for that key and lane up
    to and with that call.  A sketch that held at least the exact sums of a
    history [pre] holds at least those of [pre] followed by the calls of
    the batch.  The lanes from [blk_size] to [D - 1], which no thread runs,
    are answered [0]. *)
Theorem update_batch_overestimates (self : CountMinSketch)
    (indices : list Z) (M : Z) (values : list R)
    (pre : list (Z * Z * R)) :
  0 < range self → 0 < D self → width self = range self * D self →
  3 * (range self * D self) <= 2 ^ 31 →
  blk_size self = D self / 32 * 32 → 0 < blk_size self <= 1024 →
  Z.of_nat (length (cms self)) = 3 * (range self * D self) →
  0 <= M → Z.of_nat (length indices) = M →
  Z.of_nat (length values) = M * D self → M * D self <= 2 ^ 31 →
  Forall (λ v, 0 <= v)%R values →
  race_free (range self) indices →
  overestimates (cms self) (range self) (width self) (D self) pre →
  let L := Z.to_nat (blk_size self) in
  ∃ self' result,
    update self indices M values = Some (self', result)
    ∧ length result = length values
    ∧ overestimates (cms self') (range self) (width self) (D self)
        (pre ++ batch_ops indices values (D self) (Z.to_nat M) L)
    ∧ (∀ b t : nat, Z.of_nat b < M → (t < L)%nat →
         ∃ k v o0 o1 o2,
           indices !! b = Some k
           ∧ ld values (Z.of_nat b * D self + Z.of_nat t) = Some v
           ∧ ld (cms self)
               (cell (range self) (width self) (D self) k (Z.of_nat t) 0)
             = Some o0
           ∧ ld (cms self)
               (cell (range self) (width self) (D self) k (Z.of_nat t) 1)
             = Some o1
           ∧ ld (cms self)
               (cell (range self) (width self) (D self) k (Z.of_nat t) 2)
             = Some o2
           ∧ ld result (Z.of_nat b * D self + Z.of_nat t)
             = Some (minimum (o0 + v) (o1 + v) (o2 + v))
           ∧ (exact_sum (pre ++ ops_upto indices values (D self) L b t)
                k (Z.of_nat t)
              <= minimum (o0 + v) (o1 + v) (o2 + v))%R)
    ∧ (∀ b t, 0 <= b < M → blk_size self <= t < D self →
         ld result (b * D self + t) = Some 0%R).
Proof.
  intros HN HD Hw Hsz Hblk Hblk' Hlen HM Hidx Hval HMD Hnn Hrf Hinv L.
  assert (HL : Z.of_nat L <= D self).
  { unfold L. rewrite Z2Nat.id by lia. rewrite Hblk.
    pose proof (Z.mul_div_le (D self) 32 ltac:(lia)). lia. }
  rewrite Hw in *.
  pose proof (launch_spec (range self) (D self) indices values M L pre
                (cms self) HN HD Hsz HL HM Hidx Hval HMD Hnn Hrf
                (cms self, zeros (Z.of_nat (length values)))) as Hrun.
  cbv zeta in Hrun. cbn [fst snd] in Hrun.
  destruct Hrun as ([mem' result'] & Hrun & Hlen' & Hres & Hinv' & Hdone
                    & Hrest & _).
  { split; [exact Hlen |]. split; [apply length_zeros_of_nat |]. split.
    { unfold batch_ops, block_ops. cbn [seq fmap list_fmap concat app].
      rewrite app_nil_r. exact Hinv. }
    split; [| split].
    - intros b' t' Hd. exfalso. lia.
    - intros b' t' Hb' Ht' _. apply ld_zeros.
      pose proof (flat_index_range M (D self) b' t' Hb' Ht'). lia.
    - reflexivity. }
  cbn [fst snd] in *.
  unfold L in Hrun. rewrite Z2Nat.id in Hrun by lia.
  unfold update. cbv zeta. rewrite Hw, Hrun, bind_of_Some.
  eexists _, _. split; [reflexivity |]. cbn [cms].
  split; [exact Hres |]. split.
  { unfold block_ops in Hinv'. cbn [seq fmap list_fmap] in Hinv'.
    rewrite app_nil_r in Hinv'. exact Hinv'. }
  split.
  - intros b t Hb Ht.
    destruct (Hdone b t ltac:(left; lia))
      as (r & Hr & Hge & k & v & o0 & o1 & o2 & Hk & Hv & H0 & H1 & H2 & Er).
    exists k, v, o0, o1, o2. rewrite Hk in Hge.
    cbn [default from_option] in Hge. unfold Datatypes.id in Hge.
    subst r. repeat split; assumption.
  - intros b t Hb Ht. apply Hrest; [exact Hb | lia |].
    unfold L. intros [Hd | Hd]; lia.
Qed.

Lemma race_free_single (N k : Z) : race_free N [k].
Proof.
  intros b b' k1 k2 idx Hne H1 H2 _.
  apply lookup_lt_Some in H1, H2. cbn [length] in H1, H2. lia.
Qed.

Lemma update_batch_overestimates_witness :
  let self := Cms.init 15 33 (1 # 5) in
  let indices := [7] in
  let values := replicate 33 1%R in
  let L := Z.to_nat (blk_size self) in
  ∃ self' result,
    update self indices 1 values = Some (self', result)
    ∧ length result = length values
    ∧ overestimates (cms self') (range self) (width self) (D self)
        ([] ++ batch_ops indices values (D self) (Z.to_nat 1) L)
    ∧ (∀ b t, 0 <= b < 1 → blk_size self <= t < D self →
         ld result (b * D self + t) = Some 0%R).
Proof.
  cbv zeta.
  destruct (update_batch_overestimates (Cms.init 15 33 (1 # 5)) [7] 1
              (replicate 33 1%R) [])
    as (self' & result & Hu & Hl & Hinv & _ & Hzero).
  - reflexivity.
  - reflexivity.
  - reflexivity.
  - vm_compute. discriminate.
  - reflexivity.
  - split; vm_compute; first [reflexivity | discriminate].
  - reflexivity.
  - lia.
  - reflexivity.
  - reflexivity.
  - vm_compute. discriminate.
  - apply Forall_replicate. lra.
  - apply race_free_single.
  - exact (zeros_overestimates 1 33 ltac:(lia) ltac:(lia) ltac:(lia)).
  - exists self', result. repeat split; assumption.
Defined.

End CmsUpdate.

(** ** [update_retrieve], the one-row variant *)

Section CmsSingleRow.
Import Int32 Tensor Cms.

Lemma salt_0 : salt 0 = (994443, 609478).
Proof. reflexivity. Qed.

(** X16.  [update_retrieve] is the first row of the fused
    [cms_update_retrieve]: on a buffer of at least [N * D] cells it stays
    within the first [N * D], adds the value to the cell of the key's
    bucket and lane, answers that cell's new value and changes no other
    cell; it is the round [idx = 0] of the loop of [cms_update_retrieve],
    whatever the row width [W]. *)
Theorem update_retrieve_is_first_row (mem : list R)
    (N D W index lane : Z) (value : R) :
  0 < N → 0 < D → N * D <= 2 ^ 31 → 0 <= lane < D →
  N * D <= Z.of_nat (length mem) →
  let c := bucket N index 0 * D + lane in
  ∃ old mem',
    0 <= c < N * D
    ∧ ld mem c = Some old
    ∧ update_retrieve mem N D index lane value = Some (mem', (old + value)%R)
    ∧ length mem' = length mem
    ∧ ld mem' c = Some (old + value)%R
    ∧ (∀ j, j ≠ c → ld mem' j = ld mem j)
    ∧ update_retrieve mem N D index lane value
      = cms_row mem N W D index lane value 0.
Proof.
  intros HN HD Hsz Hl Hlen c.
  assert (Hb : 0 <= bucket N index 0 < N) by (apply hash_bucket, HN).
  assert (Hc : 0 <= c < N * D) by (unfold c; nia).
  assert (Hu : update_retrieve mem N D index lane value
               = (mem' ← add_at mem c value; r ← ld mem' c; Some (mem', r))).
  { assert (Eb : bucket N index 0 = hash (wrap32 index) N 994443 609478).
    { unfold bucket. rewrite salt_0. reflexivity. }
    unfold update_retrieve. cbv zeta. rewrite <- Eb.
    change (bucket N index 0 * D + lane) with c.
    rewrite wrap32_id by lia. reflexivity. }
  destruct (ld_is_Some mem c ltac:(lia)) as [old Hold].
  destruct (add_at_is_Some mem c old value Hold) as [mem' Hadd].
  pose proof (add_at_spec _ _ _ _ Hadd) as (Hlen' & (o & Ho & Hnew) & Hne).
  rewrite Hold in Ho. inversion Ho; subst o.
  exists old, mem'. split; [exact Hc |]. split; [exact Hold |].
  split; [rewrite Hu, Hadd, bind_of_Some, Hnew, bind_of_Some; reflexivity |].
  split; [exact Hlen' |]. split; [exact Hnew |]. split; [exact Hne |].
  rewrite Hu. unfold cms_row, cell. cbv zeta.
  replace (0 * W + bucket N index 0 * D + lane) with c by (unfold c; lia).
  rewrite wrap32_id by lia. reflexivity.
Qed.

Lemma update_retrieve_is_first_row_witness :
  let mem := zeros 8 in
  let c := bucket 4 7 0 * 2 + 1 in
  ∃ old mem',
    0 <= c < 4 * 2
    ∧ ld mem c = Some old
    ∧ update_retrieve mem 4 2 7 1 5 = Some (mem', (old + 5)%R)
    ∧ length mem' = length mem
    ∧ ld mem' c = Some (old + 5)%R
    ∧ (∀ j, j ≠ c → ld mem' j = ld mem j)
    ∧ update_retrieve mem 4 2 7 1 5 = cms_row mem 4 8 2 7 1 5 0.
Proof.
  cbv zeta.
  apply (update_retrieve_is_first_row (zeros 8) 4 2 8 7 1 5);
    first [lia | vm_compute; discriminate].
Defined.

End CmsSingleRow.

(** ** [Adam.step] *)

Section AdamStep.
Import AdamError.
Context (api : sketch_api).

(** The counter after [k] sparse calls that found it at [c], and the
    pairs of numbers printed during them. *)
Let adv (c k : nat) : nat :=
  match k with O => c | S j => (2 + (c + j - 1) mod 124)%nat end.

Let prn (c k : nat) : nat :=
  match k with O => 0%nat | S j => ((c + j - 1) / 124)%nat end.

(** A parameter without a gradient is left as it is. *)
Let kept (p p' : param api) : Prop :=
  match p with
  | DenseParam _ None _ | SparseParam _ None _ => p' = p
  | _ => True
  end.

Lemma adv_step (c k : nat) :
  (1 <= c <= 125)%nat →
  (1 <= adv c k <= 125)%nat
  ∧ ((if (adv c k mod 125 =? 0)%nat then 1 else adv c k) + 1)%nat
    = adv c (S k)
  ∧ (prn c k + (if (adv c k mod 125 =? 0)%nat then 1 else 0))%nat
    = prn c (S k).
Proof.
  intros Hc. unfold adv, prn. destruct k as [| j].
  - replace (c + 0 - 1)%nat with (c - 1)%nat by lia.
    destruct (Nat.eq_dec c 125%nat) as [-> | Hne].
    + split; [lia |]. split; reflexivity.
    + split; [lia |].
      assert (Hm : (c mod 125 ≠ 0)%nat) by (rewrite Nat.mod_small; lia).
      apply Nat.eqb_neq in Hm. rewrite Hm.
      rewrite Nat.mod_small, Nat.div_small by lia. lia.
  - replace (c + S j - 1)%nat with (S (c + j - 1)) by lia.
    set (n := (c + j - 1)%nat).
    pose proof (Nat.div_mod_eq n 124) as Hn.
    pose proof (Nat.mod_upper_bound n 124 ltac:(lia)) as Hn'.
    pose proof (Nat.div_mod_eq (S n) 124) as Hm.
    pose proof (Nat.mod_upper_bound (S n) 124 ltac:(lia)) as Hm'.
    split; [lia |].
    destruct (Nat.eq_dec (n mod 124)%nat 123%nat) as [E | E].
    + assert (H125 : ((2 + n mod 124) mod 125 = 0)%nat)
        by (rewrite E; reflexivity).
      rewrite H125. cbn [Nat.eqb]. lia.
    + assert (H125 : ((2 + n mod 124) mod 125 ≠ 0)%nat).
      { rewrite Nat.mod_small by lia. lia. }
      apply Nat.eqb_neq in H125. rewrite H125. lia.
Qed.

Lemma step_param_counter (g : group) (self self' : Adam)
    (p p' : param api) (c n k : nat) :
  (1 <= c <= 125)%nat →
  step_param api g self p = Some (self', p') →
  count self = adv c k →
  length (printed self) = (n + 2 * prn c k)%nat →
  let b := if has_sparse_grad p then 1%nat else 0%nat in
  count self' = adv c (k + b)
  ∧ length (printed self') = (n + 2 * prn c (k + b))%nat
  ∧ (b = 0%nat → self' = self)
  ∧ kept p p'.
Proof.
  intros Hc H Hcnt Hprn. cbv zeta.
  destruct p as [data [grad |] state | data [grad |] state];
    cbn [step_param has_sparse_grad kept] in *.
  - bind_inv H. destruct p as [st data']. inversion H; subst.
    rewrite Nat.add_0_r. repeat split; assumption.
  - inversion H; subst. rewrite Nat.add_0_r. repeat split; assumption.
  - bind_inv H. destruct p as [[self1 st] data']. inversion H; subst.
    pose proof (sparse_Some api _ _ _ _ _ _ E) as Hs. cbv zeta in Hs.
    destruct Hs as (_ & _ & _ & _ & Hc1). cbn [fst] in Hc1.
    pose proof (sparse_shadows api _ _ _ _ _ _ E) as Hsh. cbv zeta in Hsh.
    destruct Hsh as (_ & _ & Hp1). cbn [fst] in Hp1.
    destruct (adv_step c k Hc) as (_ & Ha & Hp).
    rewrite Hcnt in Hc1, Hp1. rewrite Hprn in Hp1.
    replace (k + 1)%nat with (S k) by lia.
    split; [rewrite Hc1; exact Ha |]. split; [| split; [lia | exact I]].
    rewrite Hp1, <- Hp. destruct (adv c k mod 125 =? 0)%nat; lia.
  - inversion H; subst. rewrite Nat.add_0_r. repeat split; assumption.
Qed.

Lemma step_params_counter (g : group) (ps : list (param api)) :
  ∀ (self self' : Adam) (ps' : list (param api)) (c n k : nat),
    (1 <= c <= 125)%nat →
    step_params api g self ps = Some (self', ps') →
    count self = adv c k →
    length (printed self) = (n + 2 * prn c k)%nat →
    let b := length (List.filter has_sparse_grad ps) in
    count self' = adv c (k + b)
    ∧ length (printed self') = (n + 2 * prn c (k + b))%nat
    ∧ (b = 0%nat → self' = self)
    ∧ Forall2 kept ps ps'.
Proof.
  induction ps as [| p ps IH]; intros self self' ps' c n k Hc H Hcnt Hprn;
    cbv zeta.
  - cbn in H. inversion H; subst. cbn [List.filter length].
    rewrite Nat.add_0_r. repeat split; try assumption. constructor.
  - cbn [step_params] in H. bind_inv H. destruct p0 as [self1 p1].
    bind_inv H. destruct p0 as [self2 ps2]. inversion H; subst; clear H.
    destruct (step_param_counter g self self1 p p1 c n k Hc E Hcnt Hprn)
      as (Hc1 & Hp1 & Hs1 & Hk1).
    destruct (IH self1 self' ps2 c n _ Hc E0 Hc1 Hp1)
      as (Hc2 & Hp2 & Hs2 & Hk2).
    cbn [List.filter].
    destruct (has_sparse_grad p); cbn [length] in *.
    + replace (k + S (length (List.filter has_sparse_grad ps)))%nat
        with (k + 1 + length (List.filter has_sparse_grad ps))%nat by lia.
      split; [exact Hc2 |]. split; [exact Hp2 |].
      split; [intros Hb; discriminate Hb |].
      constructor; assumption.
    + rewrite Nat.add_0_r in Hc2, Hp2.
      split; [exact Hc2 |]. split; [exact Hp2 |].
      split; [intros Hb; rewrite (Hs2 Hb); apply Hs1; reflexivity |].
      constructor; assumption.
Qed.

Lemma step_groups_counter (gs : list (group * list (param api))) :
  ∀ (self self' : Adam) (gs' : list (group * list (param api)))
    (c n k : nat),
    (1 <= c <= 125)%nat →
    step_groups api self gs = Some (self', gs') →
    count self = adv c k →
    length (printed self) = (n + 2 * prn c k)%nat →
    count self' = adv c (k + sparse_calls gs)
    ∧ length (printed self') = (n + 2 * prn c (k + sparse_calls gs))%nat
    ∧ (sparse_calls gs = 0%nat → self' = self)
    ∧ Forall2 (λ gp gp', gp'.1 = gp.1 ∧ Forall2 kept gp.2 gp'.2) gs gs'.
Proof.
  induction gs as [| [g ps] gs IH]; intros self self' gs' c n k Hc H Hcnt Hprn.
  - cbn in H. inversion H; subst. unfold sparse_calls. cbn.
    rewrite Nat.add_0_r. repeat split; try assumption. constructor.
  - cbn [step_groups] in H. bind_inv H. destruct p as [self1 ps1].
    bind_inv H. destruct p as [self2 gs2]. inversion H; subst; clear H.
    pose proof (step_params_counter g ps self self1 ps1 c n k Hc E Hcnt Hprn)
      as Hps. cbv zeta in Hps. destruct Hps as (Hc1 & Hp1 & Hs1 & Hk1).
    destruct (IH self1 self' gs2 c n _ Hc E0 Hc1 Hp1)
      as (Hc2 & Hp2 & Hs2 & Hk2).
    assert (Hsum : sparse_calls ((g, ps) :: gs)
                   = (length (List.filter has_sparse_grad ps)
                      + sparse_calls gs)%nat) by reflexivity.
    rewrite Hsum, Nat.add_assoc.
    split; [exact Hc2 |]. split; [exact Hp2 |]. split.
    + intros Hb. rewrite (Hs2 ltac:(lia)). apply Hs1. lia.
    + constructor; [split; [reflexivity | exact Hk1] | exact Hk2].
Qed.

(** X17.  One [Adam.step]: it returns the loss of the closure; the groups
    keep their hyper-parameters and every parameter without a gradient is
    left as it was; and the counter of the error diagnostic, which is the
    optimizer's and not a parameter's, advances once for every parameter
    with a sparse gradient.  A step over [k >= 1] such parameters that
    finds the counter at [c] leaves it at [2 + (c + k - 2) mod 124] with
    [2 * ((c + k - 2) / 124)] more numbers printed: the diagnostic comes
    every 124 sparse parameter updates, not every so many steps. *)
Theorem step_counts_sparse_parameters (self : Adam)
    (param_groups : list (group * list (param api))) (closure : option R)
    (r : Adam * list (group * list (param api)) * option R) :
  (1 <= count self <= 125)%nat →
  step api self param_groups closure = Some r →
  let k := sparse_calls param_groups in
  r.2 = closure
  ∧ Forall2
      (λ gp gp',
         gp'.1 = gp.1
         ∧ Forall2
             (λ p p',
                match p with
                | DenseParam _ None _ | SparseParam _ None _ => p' = p
                | _ => True
                end) gp.2 gp'.2)
      param_groups r.1.2
  ∧ (k = 0%nat → r.1.1 = self)
  ∧ ((1 <= k)%nat →
     count r.1.1 = (2 + (count self + k - 2) mod 124)%nat
     ∧ length (printed r.1.1)
       = (length (printed self) + 2 * ((count self + k - 2) / 124))%nat).
Proof.
  intros Hc H. cbv zeta. unfold step in H. cbv zeta in H.
  bind_inv H. destruct p as [self' gs']. inversion H; subst; clear H.
  cbn [fst snd].
  destruct (step_groups_counter param_groups self self' gs' (count self)
              (length (printed self)) 0 Hc E eq_refl)
    as (Hc1 & Hp1 & Hs1 & Hk1).
  { cbn. lia. }
  cbn [Nat.add] in Hc1, Hp1.
  split; [reflexivity |]. split; [exact Hk1 |]. split; [exact Hs1 |].
  intros Hk. destruct (sparse_calls param_groups) as [| j]; [lia |].
  unfold adv in Hc1. unfold prn in Hp1.
  replace (count self + S j - 2)%nat with (count self + j - 1)%nat by lia.
  split; [exact Hc1 | exact Hp1].
Qed.

End AdamStep.

Section AdamStepRun.
Import AdamError.

Lemma step_counts_sparse_parameters_witness :
  let grad := {| indices := [0]; values := [[2]]%R; size := (1, 1) |} in
  let groups : list (group * list (param probe_api)) :=
    [(default_group,
      [SparseParam [[0]]%R (Some grad) None;
       DenseParam [1]%R None None;
       SparseParam [[3]]%R (Some grad) None])] in
  ∃ r,
    step probe_api default_adam groups (Some 7%R) = Some r
    ∧ r.2 = Some 7%R
    ∧ count r.1.1 = (2 + (1 + 2 - 2) mod 124)%nat
    ∧ length (printed r.1.1) = (0 + 2 * ((1 + 2 - 2) / 124))%nat.
Proof.
  cbv zeta. eexists.
  pose proof (step_counts_sparse_parameters probe_api default_adam
                [(default_group,
                  [SparseParam [[0]]%R
                     (Some {| indices := [0]; values := [[2]]%R;
                              size := (1, 1) |}) None;
                   DenseParam [1]%R None None;
                   SparseParam [[3]]%R
                     (Some {| indices := [0]; values := [[2]]%R;
                              size := (1, 1) |}) None])]
                (Some 7%R) _ ltac:(cbn; lia) eq_refl) as H.
  cbv zeta in H. destruct H as (Hl & _ & _ & Hk).
  destruct (Hk ltac:(cbn; lia)) as [Hc Hp].
  split; [reflexivity |]. split; [exact Hl |]. split; [exact Hc | exact Hp].
Defined.

End AdamStepRun.

(** ** How far one [DenseCMS.update] moves a coordinate *)

Section DenseCmsStepSize.
Import Int32 Tensor DenseCms.

Lemma rsqrt_step_bound (lr gd old beta : R) :
  (0 <= beta < 1)%R → (0 <= old)%R →
  (Rabs (lr * gd * rsqrtf (adaptive beta old (gd ^ 2) + 1e-10))
   <= Rabs lr / sqrt (1 - beta))%R.
Proof.
  intros Hbeta Hold. unfold rsqrtf.
  set (v := (adaptive beta old (gd ^ 2) + 1e-10)%R).
  assert (Hsq : (0 <= gd ^ 2)%R) by apply pow2_ge_0.
  assert (Hbo : (0 <= beta * old)%R) by (apply Rmult_le_pos; lra).
  assert (Hg : (0 <= (1 - beta) * gd ^ 2)%R) by (apply Rmult_le_pos; lra).
  assert (Hv : (0 < v)%R) by (unfold v, adaptive; lra).
  assert (Hs : (0 < sqrt v)%R) by (apply sqrt_lt_R0, Hv).
  assert (Ha : (0 < sqrt (1 - beta))%R) by (apply sqrt_lt_R0; lra).
  assert (Hle : (sqrt (1 - beta) * Rabs gd <= sqrt v)%R).
  { rewrite <- sqrt_Rsqr_abs.
    rewrite <- sqrt_mult by (lra || apply Rle_0_sqr).
    apply sqrt_le_1; [| lra |].
    - apply Rmult_le_pos; [lra | apply Rle_0_sqr].
    - unfold v, adaptive, Rsqr. lra. }
  assert (His : (0 < / sqrt v)%R) by (apply Rinv_0_lt_compat, Hs).
  assert (Hia : (0 < / sqrt (1 - beta))%R) by (apply Rinv_0_lt_compat, Ha).
  rewrite !Rabs_mult, (Rabs_pos_eq (/ sqrt v)) by lra.
  unfold Rdiv. rewrite Rmult_assoc.
  apply Rmult_le_compat_l; [apply Rabs_pos |].
  replace (Rabs gd * / sqrt v)%R
    with (sqrt (1 - beta) * Rabs gd * (/ sqrt v * / sqrt (1 - beta)))%R
    by (field; lra).
  replace (/ sqrt (1 - beta))%R
    with (sqrt v * (/ sqrt v * / sqrt (1 - beta)))%R at 2
    by (field; lra).
  apply Rmult_le_compat_r; [| exact Hle].
  apply Rlt_le, Rmult_lt_0_compat; assumption.
Qed.

(** X18.  One update moves no coordinate by more than
    [|lr| / sqrt (1 - beta)], however the coordinates collide in the
    sketch: for [0 <= beta < 1] and a sketch without negative cells (as
    every run from a fresh compressor leaves it), the adaptive value of a
    coordinate is at least [(1 - beta) * g^2], so that
    [|lr * g * rsqrtf (v + 1e-10)| <= |lr| / sqrt (1 - beta)]. *)
Theorem update_moves_at_most (c : DenseCMS) (p g : list R) (lr beta : R) :
  routed c → shaped c p → Z.of_nat (length g) = N c * D c →
  (0 <= beta < 1)%R → Forall (λ x, 0 <= x)%R (cms c) →
  ∃ c' p',
    update c p g lr beta = Some (c', p')
    ∧ length p' = length p
    ∧ ∀ i x x', p !! i = Some x → p' !! i = Some x' →
        (Rabs (x' - x) <= Rabs lr / sqrt (1 - beta))%R.
Proof.
  intros Hr Hsh Hg Hbeta Hnn.
  pose proof Hsh as (HN & HD & HW & HpI & HmI & Hp & Hm).
  destruct (update_routed c p g lr beta Hr Hsh Hg)
    as (c' & p' & Hu & _ & _ & _ & _ & Hlp & Hpar & _).
  exists c', p'. split; [exact Hu |]. split; [exact Hlp |].
  intros i x x' Hx Hx'.
  assert (Hi : 0 <= Z.of_nat i < N c * D c).
  { apply lookup_lt_Some in Hx. lia. }
  destruct (Z.eq_dec (D c) 0) as [E0 | E0]; [nia |].
  destruct (cell_of_index (N c) (D c) (Z.of_nat i) ltac:(lia) Hi)
    as (Ei & Hb & Hd).
  destruct (Hpar _ _ Hb Hd) as (y & gd & old & Hy & _ & _ & Hold & Hy').
  rewrite <- Ei in Hy, Hy'. rewrite ld_of_nat in Hy, Hy'.
  assert (Ey : y = x) by congruence. subst y.
  assert (Ex : x' = (x + lr * gd
                         * rsqrtf (adaptive beta old (gd ^ 2) + 1e-10))%R)
    by congruence.
  rewrite Ex.
  assert (Ho : (0 <= old)%R).
  { rewrite Forall_lookup in Hnn. unfold ld in Hold.
    destruct (0 <=? _); [| discriminate]. exact (Hnn _ _ Hold). }
  replace (x + lr * gd * rsqrtf (adaptive beta old (gd ^ 2) + 1e-10) - x)%R
    with (lr * gd * rsqrtf (adaptive beta old (gd ^ 2) + 1e-10))%R by ring.
  apply rsqrt_step_bound; assumption.
Qed.

Lemma update_moves_at_most_witness :
  let c := init 2 3 (1 # 5) in
  let p := [1; 2; 3; 4; 5; 6]%R in
  ∃ c' p',
    update c p [6; 5; 4; 3; 2; 1]%R 1 (1 / 2) = Some (c', p')
    ∧ length p' = length p
    ∧ ∀ i x x', p !! i = Some x → p' !! i = Some x' →
        (Rabs (x' - x) <= Rabs 1 / sqrt (1 - 1 / 2))%R.
Proof.
  cbv zeta.
  apply (update_moves_at_most (init 2 3 (1 # 5)) [1; 2; 3; 4; 5; 6]%R
           [6; 5; 4; 3; 2; 1]%R 1 (1 / 2)).
  - left. reflexivity.
  - repeat split;
      first [reflexivity | vm_compute; first [reflexivity | discriminate]].
  - reflexivity.
  - lra.
  - apply Forall_replicate. lra.
Defined.

End DenseCmsStepSize.
